(** * speedy.js: runtime array, bitcode linker and fallback code generator

    A shallow embedding of three parts of the speedy.js sources:
    - [RuntimeArray]: the C++ template [Array<T>] of the runtime
    (array.h), a growable array over manually managed storage;
    - [Linker]: the symbol-reachability loop of [LLVMLink]
    (llvm-link.ts);
    - [CodeGeneration]: [NotYetImplementedCodeGenerator]
    (not-yet-implemented-code-generator.ts). *)

From Stdlib Require Import ZArith NArith Lia.
From stdpp Require Import base numbers option list strings gmap sets.

Local Open Scope string_scope.

(** ** The runtime array *)

Module RuntimeArray.

(** The two exception classes the array throws.  [std::out_of_range]
    carries its message, which is what tells the failures apart. *)
Inductive exn : Type :=
| out_of_range (what : string)
| bad_alloc.

(** The failures of the specification, as the exceptions of the code. *)
Definition IndexOutOfRange (e : exn) : Prop :=
  e = out_of_range "Index out of bound"
  ∨ e = out_of_range "Start index is out of range"
  ∨ e = out_of_range "End index is out of range".
Definition EmptyArray : exn := out_of_range "Array is empty".
Definition CapacityExceeded : exn := out_of_range "Array size exceeded max limit".
Definition OutOfMemory : exn := bad_alloc.

(** What the array takes from the element type: its value-initialised
    element, [T {}], and its size in bytes, [sizeof(T)]. *)
Class Element (T : Type) : Type := {
  zero : T;
  sizeof : positive
}.

(** What the array takes from the platform: [size_t] is an unsigned
    integer of [size_bits] bits (values are in [N], and every operation
    that can leave the range wraps), and [realloc_ok n] says whether
    [std::realloc] hands out storage when it is asked for [n] bytes (a
    refusal is the null pointer). *)
Class Platform : Type := {
  size_bits : N;
  realloc_ok : N → bool
}.

Definition CAPACITY_GROW_FACTOR : N := 2.
Definition DEFAULT_CAPACITY : N := 16.
Definition INT32_MAX : N := 2147483647.

Section Array.
Context {T : Type} {elt : Element T} {plat : Platform}.

Definition size_t_of_Z (z : Z) : N := Z.to_N (z mod 2 ^ Z.of_N size_bits).
Definition size_t_wrap (n : N) : N := n mod 2 ^ size_bits.
Definition int32_of_Z (z : Z) : Z := (z + 2 ^ 31) mod 2 ^ 32 - 2 ^ 31.

(** Storage is a block of slots; a slot that was never written holds
    no value.  The null pointer is [None]. *)
Abbreviation storage := (list (option T)).

Record Array : Type := mkArray {
  length : N;
  capacity : N;
  elements : option storage
}.

Definition set_length (n : N) (a : Array) : Array :=
  mkArray n (capacity a) (elements a).
Definition set_elements (p : option storage) (a : Array) : Array :=
  mkArray (length a) (capacity a) p.

(** What a member function does to the array: it returns, it throws
    (the array is left as it was at the throw), or it leaves the
    language's defined behaviour (an access outside the storage, a read
    of a slot that holds no value). *)
Inductive outcome (A : Type) : Type :=
| Return (a : A) (s : Array)
| Throw (e : exn) (s : Array)
| Undefined.
Global Arguments Return {A} a s.
Global Arguments Throw {A} e s.
Global Arguments Undefined {A}.

Definition M (A : Type) : Type := Array → outcome A.

Definition ret {A} (a : A) : M A := λ s, Return a s.
Definition bind {A B} (m : M A) (k : A → M B) : M B := λ s,
  match m s with
  | Return a s' => k a s'
  | Throw e s' => Throw e s'
  | Undefined => Undefined
  end.
Definition throw {A} (e : exn) : M A := λ s, Throw e s.
Definition undefined {A} : M A := λ _, Undefined.
Definition gets {A} (f : Array → A) : M A := λ s, Return (f s) s.
Definition modify (f : Array → Array) : M unit := λ s, Return tt (f s).

Notation "'let!' x ':=' m 'in' k" := (bind m (λ x, k))
  (at level 10, x name, m at level 100, k at level 200).
Notation "m '>>' k" := (bind m (λ _, k))
  (at level 100, k at level 200, right associativity).

(** [elements[i]] as an rvalue and as the target of an assignment. *)
Definition load (i : N) : M T := λ s,
  match elements s with
  | Some buf =>
      if (i <? N.of_nat (List.length buf))%N then
        match buf !! N.to_nat i with
        | Some (Some v) => Return v s
        | _ => Undefined
        end
      else Undefined
  | None => Undefined
  end.

Definition store (i : N) (v : T) : M unit := λ s,
  match elements s with
  | Some buf =>
      if (i <? N.of_nat (List.length buf))%N
      then Return tt (set_elements (Some (<[N.to_nat i := Some v]> buf)) s)
      else Undefined
  | None => Undefined
  end.

(** [std::fill_n(&elements[first], n, v)]: [n] assignments, front to
    back.  [std::fill(first, last, v)] is the same with
    [n = last - first]. *)
Fixpoint std_fill_n (first : N) (n : nat) (v : T) : M unit :=
  match n with
  | O => ret tt
  | S n' => store first v >> std_fill_n (first + 1) n' v
  end.

(** [std::copy(src, src + n, elements + dest)] from a block of the
    caller; reading past the block is undefined. *)
Fixpoint std_copy_from (src : list T) (n : nat) (dest : N) {struct n}
  : M unit :=
  match n with
  | O => ret tt
  | S n' =>
      match src with
      | [] => undefined
      | x :: src' => store dest x >> std_copy_from src' n' (dest + 1)
      end
  end.

(** The [n] elements from [elements[first]] on, each read as an
    rvalue. *)
Fixpoint load_n (first : N) (n : nat) : M (list T) :=
  match n with
  | O => ret []
  | S n' =>
      let! v := load first in
      let! vs := load_n (first + 1) n' in
      ret (v :: vs)
  end.

(** [std::copy(elements + first, elements + first + n, elements + dest)]
    inside the array's own storage.  The storage comes from
    [std::realloc], so the elements are trivially copyable, and for
    those the library's [std::copy] is [memmove]: the block is read as it
    is before the copy, then written, also when the target begins inside
    the block. *)
Definition std_copy (first : N) (n : nat) (dest : N) : M unit :=
  let! block := load_n first n in
  std_copy_from block n dest.

(** [capacity * sizeof(T)], the byte count handed to [std::realloc]; the
    product is taken in [size_t]. *)
Definition byte_count (capacity : N) : N :=
  size_t_wrap (capacity * N.pos sizeof).

(** [allocateElements(capacity, elements)].  The block [std::realloc]
    returns has the bytes it was asked for, which are room for
    [byte_count capacity / sizeof(T)] elements, fewer than [capacity]
    when the byte count wrapped; it keeps the old slots up to the
    smaller of the two sizes, and new slots hold no value.  A null
    pointer from [std::realloc] leaves the old block as it was, and
    [bad_alloc] is thrown.  A request of zero bytes for a live block is
    left to the implementation, which may hand out a block of no bytes
    or release the old block and return the null pointer: there is no
    outcome the array could rely on, and the model has none ([None]). *)
Definition allocateElements (capacity : N) (elements : option storage)
  : option (exn + storage) :=
  if (INT32_MAX <? capacity)%N then
    Some (inl (out_of_range "Array size exceeded max limit"))
  else
    match elements with
    | Some old =>
        if (byte_count capacity =? 0)%N then None
        else if realloc_ok (byte_count capacity) then
          Some (inr (list.resize
                       (N.to_nat (byte_count capacity / N.pos sizeof)) None
                       old))
        else Some (inl bad_alloc)
    | None =>
        if realloc_ok (byte_count capacity) then
          Some (inr (list.resize
                       (N.to_nat (byte_count capacity / N.pos sizeof)) None []))
        else Some (inl bad_alloc)
    end.

(** The local [newCapacity] of [ensureCapacity], as the three
    statements that assign it leave it. *)
Definition newCapacity (capacity min : N) : N :=
  let newCapacity :=
    if (capacity =? 0)%N then DEFAULT_CAPACITY
    else size_t_wrap (capacity * CAPACITY_GROW_FACTOR) in
  let newCapacity := if (newCapacity <? min)%N then min else newCapacity in
  if (INT32_MAX <? newCapacity)%N then INT32_MAX else newCapacity.

Definition ensureCapacity (min : N) : M unit := λ s,
  if (min <=? capacity s)%N then Return tt s
  else if (INT32_MAX <? min)%N then
    Throw (out_of_range "Array size exceeded max limit") s
  else
    let newCapacity := newCapacity (capacity s) min in
    match allocateElements newCapacity (elements s) with
    | None => Undefined
    | Some (inl e) => Throw e s
    | Some (inr buf) => Return tt (mkArray (length s) newCapacity (Some buf))
    end.

(** The constructor [Array(size, elements)]; [elements] is the null
    pointer ([None]) or a block of the caller.  It runs on the object's
    fields before they hold anything; a throw leaves no object. *)
Definition blank : Array := mkArray 0 0 None.

Definition new_Array (size : N) (elems : option (list T)) : outcome unit :=
  let construct : M unit :=
    (if (size =? 0)%N then modify (set_elements None)
     else λ s,
       match allocateElements size None with
       | None => Undefined
       | Some (inl e) => Throw e s
       | Some (inr buf) =>
           (modify (set_elements (Some buf)) >>
            match elems with
            | None => std_fill_n 0 (N.to_nat size) zero
            | Some src => std_copy_from src (N.to_nat size) 0
            end) s
       end) >>
    modify (λ s, mkArray size size (elements s))
  in construct blank.

Definition get (index : N) : M T := λ s,
  if (length s <=? index)%N then Throw (out_of_range "Index out of bound") s
  else load index s.

Definition resize (newSize : N) : M unit :=
  ensureCapacity newSize >>
  (λ s, if (length s <? newSize)%N
        then std_fill_n (length s) (N.to_nat (newSize - length s)) zero s
        else Return tt s) >>
  modify (set_length newSize).

Definition set (index : N) (value : T) : M unit :=
  (λ s, if (length s <=? index)%N
        then resize (size_t_wrap (index + 1)) s
        else Return tt s) >>
  store index value.

(** [i < 0 ? this->length + i : static_cast<size_t>(i)], the
    initialiser of both [startIndex] and [endIndex] in [fill]; the sum
    is taken in [size_t]. *)
Definition resolve_index (length : N) (i : Z) : N :=
  if (i <? 0)%Z then size_t_of_Z (Z.of_N length + i) else size_t_of_Z i.

Definition fill (value : T) (start end_ : Z) : M unit := λ s,
  let startIndex := resolve_index (length s) start in
  let endIndex := resolve_index (length s) end_ in
  if (length s <=? startIndex)%N then
    Throw (out_of_range "Start index is out of range") s
  else if (length s <? endIndex)%N then
    Throw (out_of_range "End index is out of range") s
  else if (endIndex <? startIndex)%N then Return tt s
  else std_fill_n startIndex (N.to_nat (endIndex - startIndex)) value s.

(** The overload [fill(value, start)]: the end is the length, passed
    as an [int32_t]. *)
Definition fill_from (value : T) (start : Z) : M unit := λ s,
  fill value start (int32_of_Z (Z.of_N (length s))) s.

Definition push (elems : list T) (numElements : N) : M N := λ s,
  let newLength := size_t_wrap (length s + numElements) in
  (ensureCapacity newLength >>
   std_copy_from elems (N.to_nat numElements) (length s) >>
   modify (set_length newLength) >>
   ret newLength) s.

Definition unshift (elems : list T) (numElements : N) : M N := λ s,
  let newLength := size_t_wrap (length s + numElements) in
  (ensureCapacity newLength >>
   std_copy 0 (N.to_nat (length s)) numElements >>
   std_copy_from elems (N.to_nat numElements) 0 >>
   modify (set_length newLength) >>
   ret newLength) s.

Definition pop : M T := λ s,
  if (length s =? 0)%N then Throw (out_of_range "Array is empty") s
  else (modify (set_length (length s - 1)) >>
        load (length s - 1)) s.

Definition shift : M T := λ s,
  if (length s =? 0)%N then Throw (out_of_range "Array is empty") s
  else (let! element := load 0 in
        std_copy 1 (N.to_nat (length s - 1)) 0 >>
        modify (set_length (length s - 1)) >>
        ret element) s.

Definition size : M N := gets length.

(** *** The vocabulary of the properties *)

(** The value slot [i] of the storage holds, if it holds one. *)
Definition slot (a : Array) (i : N) : option T :=
  buf ← elements a; mjoin (buf !! N.to_nat i).

(** The invariants of the array buffer, as the specification lists
    them. *)
Definition buffer_invariants (a : Array) : Prop :=
  (length a ≤ capacity a)%N
  ∧ (elements a = None ↔ capacity a = 0%N)
  ∧ ∀ i, (i < length a)%N → is_Some (slot a i).

(** A well-formed array: the buffer invariants hold, the storage has
    [capacity] slots, and the capacity does not pass [INT32_MAX].  The
    member functions keep an array well-formed as long as the byte count
    of no reallocation wraps. *)
Record wf (a : Array) : Prop := mk_wf {
  wf_invariants : buffer_invariants a;
  wf_capacity : (capacity a ≤ INT32_MAX)%N;
  wf_storage :
    ∀ buf, elements a = Some buf → List.length buf = N.to_nat (capacity a)
}.

(** The number of slots of the storage. *)
Definition room (a : Array) : nat :=
  match elements a with
  | Some buf => List.length buf
  | None => 0%nat
  end.

(** What the member functions maintain whatever [std::realloc] hands
    out: the buffer invariants, a capacity that does not pass
    [INT32_MAX], and storage of no more slots than the capacity (of
    fewer, after a reallocation whose byte count wrapped). *)
Record sound (a : Array) : Prop := mk_sound {
  sound_invariants : buffer_invariants a;
  sound_capacity : (capacity a ≤ INT32_MAX)%N;
  sound_storage : (room a ≤ N.to_nat (capacity a))%nat
}.

(** [n] elements whose byte count [n * sizeof(T)] does not wrap in
    [size_t]. *)
Definition fits (n : N) : Prop := (n * N.pos sizeof < 2 ^ size_bits)%N.

(** The storage for [min] elements is granted: when the capacity has to
    grow for them, the byte count of the new capacity does not wrap and
    [std::realloc] hands out the block. *)
Definition granted (a : Array) (min : N) : Prop :=
  (capacity a < min)%N →
  fits (newCapacity (capacity a) min)
  ∧ realloc_ok (byte_count (newCapacity (capacity a) min)) = true.

(** The public member functions, as a caller can invoke them. *)
Inductive operation : Type :=
| OpGet (index : N)
| OpSet (index : N) (value : T)
| OpFill (value : T) (start end_ : Z)
| OpFillFrom (value : T) (start : Z)
| OpPush (elems : list T) (numElements : N)
| OpUnshift (elems : list T) (numElements : N)
| OpPop
| OpShift
| OpSize
| OpResize (newSize : N).

Definition forget {A} (o : outcome A) : outcome unit :=
  match o with
  | Return _ s => Return tt s
  | Throw e s => Throw e s
  | Undefined => Undefined
  end.

Definition run (op : operation) (a : Array) : outcome unit :=
  match op with
  | OpGet index => forget (get index a)
  | OpSet index value => set index value a
  | OpFill value start end_ => fill value start end_ a
  | OpFillFrom value start => fill_from value start a
  | OpPush elems numElements => forget (push elems numElements a)
  | OpUnshift elems numElements => forget (unshift elems numElements a)
  | OpPop => forget (pop a)
  | OpShift => forget (shift a)
  | OpSize => forget (size a)
  | OpResize newSize => resize newSize a
  end.

(** The array a caller holds after an operation that returned or threw
    (a caller that catches the exception goes on with the array). *)
Definition after {A} (o : outcome A) : option Array :=
  match o with
  | Return _ s => Some s
  | Throw _ s => Some s
  | Undefined => None
  end.

(** A slot of a storage block that holds a value, and storage that
    only gained values. *)
Definition init (buf : storage) (j : nat) : Prop :=
  is_Some (mjoin (buf !! j)).
Definition extends (buf buf' : storage) : Prop :=
  List.length buf' = List.length buf ∧ ∀ j, init buf j → init buf' j.


(** The capacity and the storage of [a'] are those of [a], or those a
    call of [ensureCapacity min] that had to grow the storage gave it. *)
Definition regrown (min : N) (a a' : Array) : Prop :=
  (capacity a' = capacity a ∧ room a' = room a)
  ∨ ((capacity a < min ≤ INT32_MAX)%N
     ∧ capacity a' = newCapacity (capacity a) min
     ∧ room a' = N.to_nat (byte_count (newCapacity (capacity a) min)
                           / N.pos sizeof)).

(** The capacity an operation asks [ensureCapacity] for: the new length
    of [set] beyond the length, of [push], of [unshift] and of
    [resize]. *)
Definition required (op : operation) (a : Array) : N :=
  match op with
  | OpSet index _ => if (length a <=? index)%N then index + 1 else 0
  | OpPush _ numElements | OpUnshift _ numElements => length a + numElements
  | OpResize newSize => newSize
  | _ => 0
  end.

(** The calls that stay within [size_t] and within the caller's block:
    the successor of the index of [set] and the new length of [push] and
    [unshift] do not wrap, and the block handed to [push] and [unshift]
    holds the elements it is said to hold. *)
Definition in_bounds (op : operation) (a : Array) : Prop :=
  match op with
  | OpSet index _ => (index + 1 < 2 ^ size_bits)%N
  | OpPush elems numElements | OpUnshift elems numElements =>
      (N.to_nat numElements ≤ List.length elems)%nat
      ∧ (length a + numElements < 2 ^ size_bits)%N
  | _ => True
  end.

(** The calls in range: in bounds, and when the storage has to grow,
    the byte count of the new capacity does not wrap. *)
Definition in_range (op : operation) (a : Array) : Prop :=
  in_bounds op a
  ∧ ((capacity a < required op a ≤ INT32_MAX)%N →
     fits (newCapacity (capacity a) (required op a))).



(** One element after the other through [push]. *)
Fixpoint push_each (xs : list T) : M unit :=
  match xs with
  | [] => ret tt
  | x :: xs' => push [x] 1 >> push_each xs'
  end.

(** The elements of the array, in their order: the values of the slots
    below the length. *)
Definition contents (a : Array) : list T :=
  omap (slot a) (N.of_nat <$> seq 0 (N.to_nat (length a))).

End Array.

Arguments Array T : clear implicits.
Arguments outcome T A : clear implicits.
Arguments operation T : clear implicits.

(** The examples run on the 32-bit [size_t] of the WebAssembly target,
    with an allocator that never refuses, on arrays of integers of four
    bytes. *)
Definition wasm32 : Platform := {| size_bits := 32; realloc_ok := λ _, true |}.
Definition integers : Element Z := {| zero := 0%Z; sizeof := 4 |}.

(** The array [Array(size, elements)] leaves for a block of integers. *)
Definition array_of (l : list Z) : Array Z :=
  mkArray (N.of_nat (List.length l)) (N.of_nat (List.length l))
        (match l with [] => None | _ => Some (Some <$> l) end).

End RuntimeArray.

(** ** The linker's choice of the files to link *)

Module Linker.

(** What the symbol resolver ([llvm-nm]) reports for an object file. *)
Record Symbols : Type := mkSymbols {
  defined : gset string;
  undefined : gset string
}.

Section LLVMLink.
(** [byteCodeSymbolResolver.getSymbols], by the path of the file. *)
Variable getSymbols : string → Symbols.

Definition intersects (setA setB : gset string) : bool :=
  let smaller := if decide (size setA < size setB) then setA else setB in
  let larger := if decide (size setA < size setB) then setB else setA in
  existsb (λ symbol, bool_decide (symbol ∈ larger)) (elements smaller).

(** [set.forEach(symbol => unresolvedSymbols.delete(symbol))] and
    [set.forEach(symbol => unresolvedSymbols.add(symbol))]. *)
Definition delete_each (symbols unresolvedSymbols : gset string) : gset string :=
  foldl (λ unresolved symbol, unresolved ∖ {[symbol]})
        unresolvedSymbols (elements symbols).
Definition add_each (symbols unresolvedSymbols : gset string) : gset string :=
  foldl (λ unresolved symbol, unresolved ∪ {[symbol]})
        unresolvedSymbols (elements symbols).

(** [considerObjectFile] changes the set it is handed; the set comes
    back beside the answer. *)
Definition considerObjectFile (objectFile : string)
    (unresolvedSymbols : gset string) : bool * gset string :=
  let symbols := getSymbols objectFile in
  if intersects unresolvedSymbols (defined symbols) then
    (true, add_each (undefined symbols)
             (delete_each (defined symbols) unresolvedSymbols))
  else (false, unresolvedSymbols).

(** The variables of [getObjectFilesToLink].  The included files are a
    JavaScript [Set], kept in the order of insertion. *)
Record LinkState : Type := mkLinkState {
  loopAgain : bool;
  includedObjectFiles : list string;
  unresolvedSymbols : gset string
}.

(** The body of the [for] loop. *)
Definition visit (st : LinkState) (objectFile : string) : LinkState :=
  if bool_decide (objectFile ∈ includedObjectFiles st) then st
  else
    let '(hit, unresolved) :=
      considerObjectFile objectFile (unresolvedSymbols st) in
    if hit then
      mkLinkState true (includedObjectFiles st ++ [objectFile]) unresolved
    else st.

(** One run of the [for] loop over all the object files. *)
Definition scan (objectFiles : list string) (st : LinkState) : LinkState :=
  foldl visit st objectFiles.

(** One round of the [while] loop: the flag is cleared, then the files
    are scanned. *)
Definition pass (objectFiles : list string) (st : LinkState) : LinkState :=
  scan objectFiles
    (mkLinkState false (includedObjectFiles st) (unresolvedSymbols st)).

(** The [while] loop, with a bound on the number of rounds. *)
Fixpoint resolve (fuel : nat) (objectFiles : list string) (st : LinkState)
  : option LinkState :=
  match fuel with
  | O => None
  | S fuel' =>
      if loopAgain st then resolve fuel' objectFiles (pass objectFiles st)
      else Some st
  end.

Definition seed (entrySymbols : list string) : LinkState :=
  mkLinkState true [] (list_to_set entrySymbols).

Definition getObjectFilesToLink (fuel : nat) (objectFiles : list string)
    (entrySymbols : list string) : option (list string) :=
  includedObjectFiles <$> resolve fuel objectFiles (seed entrySymbols).

(** The state after [n] rounds of the [while] loop. *)
Definition rounds (n : nat) (objectFiles : list string)
    (entrySymbols : list string) : LinkState :=
  Nat.iter n (pass objectFiles) (seed entrySymbols).

(** The symbols a link can come to need: the entry symbols, and the
    undefined symbols of every file that defines a needed symbol. *)
Inductive needed (objectFiles entrySymbols : list string) : string → Prop :=
| needed_entry symbol :
    symbol ∈ entrySymbols → needed objectFiles entrySymbols symbol
| needed_undefined objectFile symbol symbol' :
    objectFile ∈ objectFiles →
    needed objectFiles entrySymbols symbol →
    symbol ∈ defined (getSymbols objectFile) →
    symbol' ∈ undefined (getSymbols objectFile) →
    needed objectFiles entrySymbols symbol'.

(** A file none of whose defined symbols is ever needed. *)
Definition unrelated (objectFiles entrySymbols : list string)
    (objectFile : string) : Prop :=
  ∀ symbol, needed objectFiles entrySymbols symbol →
            symbol ∉ defined (getSymbols objectFile).

Section Session.
Variables objectFiles entrySymbols : list string.

(** What the loop maintains: every unresolved symbol is needed, every
    included file is a candidate that defines a needed symbol, and no
    file is included twice. *)
Record invariant (st : LinkState) : Prop := mk_invariant {
  inv_unresolved :
    ∀ symbol, symbol ∈ unresolvedSymbols st →
              needed objectFiles entrySymbols symbol;
  inv_included :
    ∀ objectFile, objectFile ∈ includedObjectFiles st →
      objectFile ∈ objectFiles
      ∧ ∃ symbol, needed objectFiles entrySymbols symbol
                  ∧ symbol ∈ defined (getSymbols objectFile);
  inv_nodup : NoDup (includedObjectFiles st)
}.

(** A state in which no candidate that is still out defines an
    unresolved symbol. *)
Definition settled (st : LinkState) : Prop :=
  ∀ objectFile, objectFile ∈ objectFiles →
    objectFile ∈ includedObjectFiles st
    ∨ ∀ symbol, symbol ∈ unresolvedSymbols st →
                symbol ∉ defined (getSymbols objectFile).

(** A state that accounts for every symbol the link has asked for: an
    entry symbol, or an undefined symbol of an included file, is still
    unresolved or is defined by an included file. *)
Definition accounted (st : LinkState) : Prop :=
  ∀ symbol,
    symbol ∈ entrySymbols
    ∨ (∃ objectFile, objectFile ∈ includedObjectFiles st
                     ∧ symbol ∈ undefined (getSymbols objectFile)) →
    symbol ∈ unresolvedSymbols st
    ∨ ∃ objectFile, objectFile ∈ includedObjectFiles st
                    ∧ symbol ∈ defined (getSymbols objectFile).

End Session.

(** For a file [A] that defines [main] and a file [B] that defines the
    [helper] it refers to: [A] is in or [main] is still unresolved; once
    [A] is in, [B] is in or [helper] is still unresolved. *)
Definition on_track (A B main helper : string) (st : LinkState) : Prop :=
  (A ∈ includedObjectFiles st ∨ main ∈ unresolvedSymbols st)
  ∧ (A ∈ includedObjectFiles st →
     B ∈ includedObjectFiles st ∨ helper ∈ unresolvedSymbols st).

End LLVMLink.

(** The examples: three candidates, of which [a.bc] defines the entry
    symbol and refers to [b.bc], which refers to a symbol nobody defines;
    and a single candidate that defines the entry symbol and refers to
    nothing. *)
Definition example_symbols (objectFile : string) : Symbols :=
  if decide (objectFile = "a.bc") then mkSymbols {["main"]} {["helper"]}
  else if decide (objectFile = "b.bc") then mkSymbols {["helper"]} {["printf"]}
  else mkSymbols {["unused"]} ∅.

Definition lone_symbols (objectFile : string) : Symbols :=
  mkSymbols {["main"]} ∅.

(** ** The files the linker is handed *)

(** [String.prototype.endsWith(searchString)]: the text has at least the
    length of [searchString], and its last characters are
    [searchString]. *)
Definition endsWith (s searchString : string) : bool :=
  if decide (String.length searchString ≤ String.length s)%nat then
    bool_decide
      (String.substring (String.length s - String.length searchString)
         (String.length searchString) s = searchString)
  else false.

(** A text between double quotes, as the template literals of the
    commands write it. *)
Definition quoted (s : string) : string :=
  String (Ascii.ascii_of_nat 34) s +:+ String (Ascii.ascii_of_nat 34) EmptyString.

(** What a member function of the linker throws: the error of a failed
    [assert], or what a call to the file system or to a tool threw. *)
Inductive Exception (Error : Type) : Type :=
| AssertionError (message : string)
| Raised (e : Error).
Arguments AssertionError {Error} message.
Arguments Raised {Error} e.

Inductive completion (Error A : Type) : Type :=
| Returned (a : A)
| Threw (e : Exception Error).
Arguments Returned {Error A} a.
Arguments Threw {Error A} e.

Section Registration.
(** The world outside the linker, the file system with the build
    directory, and the calls that read and change it.  [readdirSync] and
    [execLLVM] return or throw; [execLLVM] and [getTempSubdirectory]
    change the world. *)
Variables World Error : Type.
Variable fileExists : string → World → bool.
Variable readdirSync : string → World → Error + list string.
Variable path_join : string → string → string.
Variable path_basename : string → string.
Variable getTempSubdirectory : string → World → string * World.
Variable execLLVM : string → string → option string → World → option Error * World.
Variables OBJECT_FILES_LOCATION COMPILER_RT_FILE : string.
(** [byteCodeSymbolResolver.getSymbols], as in the loop above. *)
Variable getSymbols : string → Symbols.

(** The linker object: its [byteCodeFiles], beside the world. *)
Record LLVMLink : Type := mkLLVMLink {
  byteCodeFiles : list string;
  world : World
}.

Definition addByteCodeFile (file : string) (this : LLVMLink)
  : completion Error unit * LLVMLink :=
  if fileExists file (world this) then
    (Returned tt, mkLLVMLink (byteCodeFiles this ++ [file]) (world this))
  else
    (Threw (AssertionError ("The file " +:+ file +:+ " to link does not exist.")),
     this).

Definition extractArchive (archiveFilePath : string) (this : LLVMLink)
  : completion Error (list string) * LLVMLink :=
  let '(directory, w) :=
    getTempSubdirectory (path_basename archiveFilePath) (world this) in
  match execLLVM "llvm-ar" ("x " +:+ quoted archiveFilePath) (Some directory) w with
  | (Some e, w) => (Threw (Raised e), mkLLVMLink (byteCodeFiles this) w)
  | (None, w) =>
      match readdirSync directory w with
      | inl e => (Threw (Raised e), mkLLVMLink (byteCodeFiles this) w)
      | inr files =>
          (Returned (path_join directory <$> files),
           mkLLVMLink (byteCodeFiles this) w)
      end
  end.

(** The [for] loop of [addRuntime], over the entries of the
    directory. *)
Fixpoint addRuntime_each (files : list string) (this : LLVMLink)
  : completion Error unit * LLVMLink :=
  match files with
  | [] => (Returned tt, this)
  | file :: files =>
      let fullPath := path_join OBJECT_FILES_LOCATION file in
      if decide (fullPath = COMPILER_RT_FILE) then addRuntime_each files this
      else if endsWith file ".a" then
        match extractArchive fullPath this with
        | (Returned members, this) =>
            addRuntime_each files
              (mkLLVMLink (byteCodeFiles this ++ members) (world this))
        | (Threw e, this) => (Threw e, this)
        end
      else if endsWith file ".bc" || endsWith file ".o" then
        addRuntime_each files
          (mkLLVMLink (byteCodeFiles this ++ [fullPath]) (world this))
      else addRuntime_each files this
  end.

Definition addRuntime (this : LLVMLink) : completion Error unit * LLVMLink :=
  match readdirSync OBJECT_FILES_LOCATION (world this) with
  | inl e => (Threw (Raised e), this)
  | inr files => addRuntime_each files this
  end.

(** A call of a tool as the last step of a member function: what the
    tool throws, the member function throws. *)
Definition run_tool (tool arguments : string) (cwd : option string)
    (this : LLVMLink) : completion Error unit * LLVMLink :=
  match execLLVM tool arguments cwd (world this) with
  | (Some e, w) => (Threw (Raised e), mkLLVMLink (byteCodeFiles this) w)
  | (None, w) => (Returned tt, mkLLVMLink (byteCodeFiles this) w)
  end.

(** [link(target, entrySymbols)]; [fuel] bounds the rounds of the loop
    of [getObjectFilesToLink]. *)
Definition link (fuel : nat) (target : string) (entrySymbols : list string)
    (this : LLVMLink) : option (completion Error unit * LLVMLink) :=
  linkingFiles ←
    getObjectFilesToLink getSymbols fuel (byteCodeFiles this) entrySymbols;
  let quotedFileNames := String.concat " " (quoted <$> linkingFiles) in
  Some (run_tool "llvm-link" (quotedFileNames +:+ " -o " +:+ quoted target)
          None this).

(** The entries of the runtime directory [addRuntime] registers as they
    are, and those it takes for archives. *)
Definition object_entry (file : string) : Prop :=
  path_join OBJECT_FILES_LOCATION file ≠ COMPILER_RT_FILE
  ∧ endsWith file ".a" = false
  ∧ (endsWith file ".bc" = true ∨ endsWith file ".o" = true).
Definition archive_entry (file : string) : Prop :=
  path_join OBJECT_FILES_LOCATION file ≠ COMPILER_RT_FILE
  ∧ endsWith file ".a" = true.

End Registration.

Arguments mkLLVMLink {World} byteCodeFiles world.
Arguments byteCodeFiles {World} _.
Arguments world {World} _.

(** The example: a runtime directory with an object file, an archive of
    two members, the compiler-rt file and a text file. *)
Definition example_readdir (directory : string) (w : unit)
  : unit + list string :=
  if decide (directory = "runtime") then
    inr ["libc.bc"; "libm.a"; "compiler-rt.bc"; "README.md"]
  else if decide (directory = "tmp/libm.a") then inr ["sin.o"; "cos.o"]
  else inl tt.
Definition example_join (directory file : string) : string :=
  directory +:+ "/" +:+ file.
Definition example_basename (file : string) : string :=
  if decide (file = "runtime/libm.a") then "libm.a" else file.
Definition example_temp (name : string) (w : unit) : string * unit :=
  ("tmp/" +:+ name, w).
Definition example_exec (tool arguments : string) (cwd : option string)
    (w : unit) : option unit * unit :=
  (None, w).

End Linker.

(** ** The fallback code generator *)

Module CodeGeneration.

(** [ts.SyntaxKind] is a numeric enumeration. *)
Definition SyntaxKind : Type := N.

(** Where a node is in the source text. *)
Record Location : Type := mkLocation {
  fileName : string;
  pos : Z;
  end_ : Z
}.

(** [ts.Node], as far as code generation reads it. *)
#[warnings="-register-all"]
Inductive Node : Type :=
| mkNode (kind : SyntaxKind) (location : Location) (children : list Node).

Definition kind (node : Node) : SyntaxKind :=
  match node with mkNode k _ _ => k end.
Definition location (node : Node) : Location :=
  match node with mkNode _ l _ => l end.

Inductive DiagnosticCategory : Type :=
| UnsupportedSyntaxKind
| OtherCategory (name : string).

Record CodeGenerationDiagnostic : Type := mkDiagnostic {
  nodeLocation : Location;
  category : DiagnosticCategory;
  message : string
}.

Section Generator.
(** [CodeGenerationContext]: what the generators write to. *)
Variable CodeGenerationContext : Type.
(** [ts.SyntaxKind[kind]], the name of a kind. *)
Variable kindName : SyntaxKind → string.

(** Modelled from the spec: [CodeGenerationDiagnostic.unsupportedSyntaxKind]
    (code-generation-diagnostic.ts is not among the sources).  The
    diagnostic of a node with no generator has the category
    UnsupportedSyntaxKind, the node's source location, and a message
    that names the node's kind. *)
Definition unsupportedSyntaxKind (node : Node) : CodeGenerationDiagnostic :=
  mkDiagnostic (location node) UnsupportedSyntaxKind
    ("The syntax kind '" +:+ kindName (kind node) +:+ "' is not yet supported.").

(** [generate(node, context): void] either returns or throws; the
    context it was handed comes back beside the result. *)
Definition generate (node : Node) (context : CodeGenerationContext)
  : CodeGenerationContext * (CodeGenerationDiagnostic + unit) :=
  (context, inl (unsupportedSyntaxKind node)).

End Generator.

Arguments generate {CodeGenerationContext} kindName node context.

End CodeGeneration.

(** * Properties *)

(** ** The runtime array *)

Module ArrayFacts.
Import RuntimeArray.

#[local] Arguments slot : simpl never.

Section Facts.
Context {T : Type} {elt : Element T} {plat : Platform}.
Implicit Types (a s : Array T) (buf : list (option T)) (v : T).

Lemma set_elements_id a : set_elements (elements a) a = a.
Proof. by destruct a. Qed.

Lemma set_elements_twice p q a :
  set_elements p (set_elements q a) = set_elements p a.
Proof. done. Qed.

Lemma store_eq (i : N) v a :
  store i v a =
  match elements a with
  | Some buf =>
      if decide (N.to_nat i < List.length buf)%nat
      then Return tt (set_elements (Some (<[N.to_nat i := Some v]> buf)) a)
      else Undefined
  | None => Undefined
  end.
Proof.
  unfold store. destruct (elements a) as [buf|]; [|done].
  destruct (N.ltb_spec i (N.of_nat (List.length buf))); case_decide; first [done | lia].
Qed.

(** The block copy, in closed form: it is defined exactly when the
    source block and the storage both hold the [n] positions. *)
Lemma std_copy_from_eq (src : list T) (n : nat) (dest : N) a :
  std_copy_from src n dest a =
  match n with
  | O => Return tt a
  | S _ =>
      match elements a with
      | Some buf =>
          if decide (n ≤ List.length src ∧ N.to_nat dest + n ≤ List.length buf)%nat
          then Return tt (set_elements
                 (Some (list_inserts (N.to_nat dest) (Some <$> take n src) buf)) a)
          else Undefined
      | None => Undefined
      end
  end.
Proof.
  revert src dest a. induction n as [|n IH]; intros src dest a; [reflexivity|].
  cbn [std_copy_from]. destruct src as [|x src].
  { unfold undefined. destruct (elements a); [|done].
    case_decide; [simpl in *; lia|done]. }
  unfold bind. rewrite store_eq. destruct (elements a) as [buf|] eqn:Hbuf; [|done].
  case_decide as Hlt; last first.
  { case_decide; [lia|done]. }
  rewrite IH. destruct n as [|n].
  { rewrite decide_True by (simpl; lia). cbn. by rewrite take_0. }
  cbn [elements set_elements]. rewrite length_insert.
  case_decide as Hin.
  - rewrite decide_True by (simpl; lia). f_equal. unfold set_elements. cbn.
    do 2 f_equal. cbn [take fmap list_fmap list_inserts].
    replace (N.to_nat (dest + 1)) with (S (N.to_nat dest)) by lia.
    by rewrite list_insert_inserts_lt by lia.
  - rewrite decide_False; [done|]. simpl. lia.
Qed.

Lemma std_fill_n_copy (first : N) (n : nat) v a :
  std_fill_n first n v a = std_copy_from (replicate n v) n first a.
Proof.
  revert first a. induction n as [|n IH]; intros first a; [reflexivity|].
  cbn [std_fill_n replicate std_copy_from]. unfold bind.
  destruct (store first v a); [apply IH|done..].
Qed.

Lemma std_fill_n_eq (first : N) (n : nat) v a :
  std_fill_n first n v a =
  match n with
  | O => Return tt a
  | S _ =>
      match elements a with
      | Some buf =>
          if decide (N.to_nat first + n ≤ List.length buf)%nat
          then Return tt (set_elements
                 (Some (list_inserts (N.to_nat first) (replicate n (Some v)) buf)) a)
          else Undefined
      | None => Undefined
      end
  end.
Proof.
  rewrite std_fill_n_copy, std_copy_from_eq. destruct n as [|n]; [done|].
  destruct (elements a) as [buf|]; [|done].
  rewrite length_replicate, firstn_all2 by (rewrite length_replicate; lia).
  rewrite fmap_replicate.
  repeat case_decide; first [done | lia].
Qed.



Lemma init_insert buf (i j : nat) v :
  init buf j → init (<[i := Some v]> buf) j.
Proof.
  unfold init. intros Hj. destruct (decide (i = j)) as [->|Hne].
  - destruct (buf !! j) eqn:E; [|by destruct Hj].
    rewrite list_lookup_insert_eq by (by eapply lookup_lt_Some). by eexists.
  - by rewrite list_lookup_insert_ne.
Qed.

Lemma load_eq (i : N) a :
  load i a =
  match elements a with
  | Some buf =>
      match buf !! N.to_nat i with
      | Some (Some v) => Return v a
      | _ => Undefined
      end
  | None => Undefined
  end.
Proof.
  unfold load. destruct (elements a) as [buf|]; [|done].
  destruct (N.ltb_spec i (N.of_nat (List.length buf))); [done|].
  rewrite lookup_ge_None_2; [done|lia].
Qed.

#[local] Arguments list_inserts : simpl never.
#[local] Arguments list.resize : simpl never.

Lemma std_copy_from_ok (src : list T) (n : nat) (dest : N) a buf :
  elements a = Some buf →
  (n ≤ List.length src)%nat → (N.to_nat dest + n ≤ List.length buf)%nat →
  std_copy_from src n dest a =
  Return tt (set_elements
    (Some (list_inserts (N.to_nat dest) (Some <$> take n src) buf)) a).
Proof.
  intros Hbuf Hsrc Hlen. rewrite std_copy_from_eq, Hbuf.
  destruct n; [|by rewrite decide_True].
  rewrite <- (set_elements_id a) at 1. by rewrite Hbuf.
Qed.

Lemma std_copy_from_inv (src : list T) (n : nat) (dest : N) a a' :
  std_copy_from src n dest a = Return tt a' →
  (n = 0%nat ∧ a' = a)
  ∨ ∃ buf, elements a = Some buf
      ∧ (n ≤ List.length src)%nat
      ∧ (N.to_nat dest + n ≤ List.length buf)%nat
      ∧ a' = set_elements
          (Some (list_inserts (N.to_nat dest) (Some <$> take n src) buf)) a.
Proof.
  rewrite std_copy_from_eq. destruct n; [intros [= ?]; subst; by left|].
  destruct (elements a) as [buf|] eqn:Hbuf; [|done].
  case_decide as Hin; [|done]. destruct Hin. intros [= ?]; subst. right. by exists buf.
Qed.

Lemma std_copy_from_no_throw (src : list T) (n : nat) (dest : N) a e a' :
  std_copy_from src n dest a ≠ Throw e a'.
Proof.
  rewrite std_copy_from_eq. destruct n; [done|].
  destruct (elements a); [case_decide|]; done.
Qed.

Lemma std_fill_n_ok (first : N) (n : nat) v a buf :
  elements a = Some buf →
  (N.to_nat first + n ≤ List.length buf)%nat →
  std_fill_n first n v a =
  Return tt (set_elements
    (Some (list_inserts (N.to_nat first) (Some <$> replicate n v) buf)) a).
Proof.
  intros Hbuf Hlen. rewrite std_fill_n_copy.
  erewrite std_copy_from_ok; [|done|by rewrite length_replicate|done].
  by rewrite firstn_all2 by (rewrite length_replicate; lia).
Qed.


(** *** The copy inside the storage *)

Lemma load_n_ok buf a (n : nat) (first : N) (vs : list T) :
  elements a = Some buf →
  take n (drop (N.to_nat first) buf) = Some <$> vs →
  List.length vs = n →
  load_n first n a = Return vs a.
Proof.
  intros Hbuf. revert first vs. induction n as [|n IH]; intros first vs Hblock Hlen.
  { by destruct vs. }
  destruct vs as [|v vs]; [done|]. cbn in Hlen.
  destruct (drop (N.to_nat first) buf) as [|x rest] eqn:Hdrop; [done|].
  cbn in Hblock. injection Hblock as -> Hrest.
  assert (buf !! N.to_nat first = Some (Some v)) as Hv.
  { rewrite <- (Nat.add_0_r (N.to_nat first)), <- lookup_drop. by rewrite Hdrop. }
  cbn [load_n]. unfold bind, ret. rewrite load_eq, Hbuf, Hv.
  rewrite (IH (first + 1)%N vs); [done| |lia].
  replace (N.to_nat (first + 1)) with (S (N.to_nat first)) by lia.
  rewrite (drop_S _ _ _ Hv) in Hdrop. by injection Hdrop as ->.
Qed.

Lemma load_n_inv (first : N) (n : nat) a (vs : list T) a' :
  load_n first n a = Return vs a' →
  a' = a ∧ List.length vs = n
  ∧ (n = 0%nat
     ∨ ∃ buf, elements a = Some buf
              ∧ take n (drop (N.to_nat first) buf) = Some <$> vs).
Proof.
  revert first vs. induction n as [|n IH]; intros first vs.
  { intros [= <- <-]. split_and!; [done..|by left]. }
  cbn [load_n]. unfold bind, ret. rewrite load_eq.
  destruct (elements a) as [buf|] eqn:Hbuf; [|done].
  destruct (buf !! N.to_nat first) as [[v|]|] eqn:Hv; [|done..].
  destruct (load_n (first + 1) n a) as [vs' a1|e a1|] eqn:Hrest; [|done..].
  intros [= <- <-].
  destruct (IH _ _ Hrest) as (-> & Hlen & Hblock).
  split_and!; [done|cbn; lia|]. right. exists buf. split; [done|].
  rewrite (drop_S _ _ _ Hv). cbn. f_equal.
  destruct Hblock as [->|(buf' & Hbuf' & Hblock)].
  - destruct vs'; [by rewrite take_0|done].
  - assert (buf' = buf) as -> by congruence.
    by replace (N.to_nat (first + 1)) with (S (N.to_nat first)) in Hblock by lia.
Qed.

Lemma load_n_no_throw (first : N) (n : nat) a e a' :
  load_n first n a ≠ Throw e a'.
Proof.
  revert first. induction n as [|n IH]; intros first; [done|].
  cbn [load_n]. unfold bind, ret. rewrite load_eq.
  destruct (elements a) as [buf|]; [|done].
  destruct (buf !! N.to_nat first) as [[v|]|]; [|done..].
  specialize (IH (first + 1)%N).
  by destruct (load_n (first + 1) n a).
Qed.

Lemma values_of (l : list (option T)) :
  (∀ j, (j < List.length l)%nat → is_Some (mjoin (l !! j))) →
  ∃ vs : list T, l = Some <$> vs.
Proof.
  induction l as [|x l IH]; intros Hall; [by exists []|].
  destruct (Hall 0%nat) as [v Hv]; [cbn; lia|]. cbn in Hv. subst x.
  destruct IH as [vs ->].
  { intros j Hj. apply (Hall (S j)). cbn. lia. }
  by exists (v :: vs).
Qed.

(** The copy moves the block as it was, wherever the target lies. *)
Lemma std_copy_ok (n : nat) (first dest : N) a buf :
  elements a = Some buf →
  (N.to_nat first + n ≤ List.length buf)%nat →
  (N.to_nat dest + n ≤ List.length buf)%nat →
  (∀ j, (N.to_nat first ≤ j < N.to_nat first + n)%nat → init buf j) →
  std_copy first n dest a =
  Return tt (set_elements
    (Some (list_inserts (N.to_nat dest) (take n (drop (N.to_nat first) buf)) buf)) a).
Proof.
  intros Hbuf Hsrc Hdst Hinit.
  destruct (values_of (take n (drop (N.to_nat first) buf))) as [vs Hvs].
  { intros j Hj. rewrite length_take, length_drop in Hj.
    rewrite lookup_take_lt, lookup_drop by lia. apply Hinit. lia. }
  assert (List.length vs = n) as Hlen.
  { rewrite <- (length_fmap Some vs), <- Hvs, length_take, length_drop. lia. }
  unfold std_copy, bind. rewrite (load_n_ok buf a n first vs) by done.
  rewrite (std_copy_from_ok vs n dest a buf) by (done || lia).
  by rewrite Hvs, firstn_all2 by lia.
Qed.

Lemma std_copy_left (n : nat) (first dest : N) a buf :
  elements a = Some buf →
  (dest ≤ first)%N →
  (N.to_nat first + n ≤ List.length buf)%nat →
  (∀ j, (N.to_nat first ≤ j < N.to_nat first + n)%nat → init buf j) →
  std_copy first n dest a =
  Return tt (set_elements
    (Some (list_inserts (N.to_nat dest) (take n (drop (N.to_nat first) buf)) buf)) a).
Proof. intros Hbuf Hle Hin Hinit. apply std_copy_ok; [done|done|lia|done]. Qed.

(** What [std::copy] inside the storage leaves when it returns: the
    [n] slots from [dest] hold the values the [n] slots from [first]
    held, every other slot is as it was. *)
Lemma std_copy_inv (first : N) (n : nat) (dest : N) a a' :
  std_copy first n dest a = Return tt a' →
  (n = 0%nat ∧ a' = a)
  ∨ ∃ buf (vs : list T),
      elements a = Some buf
      ∧ take n (drop (N.to_nat first) buf) = Some <$> vs
      ∧ List.length vs = n
      ∧ (N.to_nat first + n ≤ List.length buf)%nat
      ∧ (N.to_nat dest + n ≤ List.length buf)%nat
      ∧ a' = set_elements
          (Some (list_inserts (N.to_nat dest) (Some <$> vs) buf)) a.
Proof.
  destruct n as [|k]; [intros [= <-]; by left|].
  remember (S k) as n eqn:Hn. unfold std_copy, bind.
  destruct (load_n first n a) as [vs a1|e a1|] eqn:Hload; [|done..].
  destruct (load_n_inv _ _ _ _ _ Hload) as (-> & Hlen & Hblock).
  intros [[? _]|(buf & Hbuf & Hsrc & Hdst & ->)]%std_copy_from_inv; [lia|].
  right. exists buf, vs. destruct Hblock as [?|(buf' & Hbuf' & Hblock)]; [lia|].
  assert (buf' = buf) as -> by congruence.
  assert (List.length (take n (drop (N.to_nat first) buf)) = n) as Htake
    by by rewrite Hblock, length_fmap.
  rewrite length_take, length_drop in Htake.
  split_and!; [done|done|done|lia|lia|].
  by rewrite firstn_all2 by lia.
Qed.

Lemma std_copy_footprint (first : N) (n : nat) (dest : N) a a' :
  std_copy first n dest a = Return tt a' →
  (n = 0%nat ∧ a' = a)
  ∨ ∃ buf buf',
      elements a = Some buf ∧ a' = set_elements (Some buf') a
      ∧ List.length buf' = List.length buf
      ∧ (N.to_nat dest + n ≤ List.length buf)%nat
      ∧ (∀ j, (N.to_nat dest ≤ j < N.to_nat dest + n)%nat → init buf' j)
      ∧ (∀ j, ¬ (N.to_nat dest ≤ j < N.to_nat dest + n)%nat →
              buf' !! j = buf !! j).
Proof.
  intros [?|(buf & vs & Hbuf & Hblock & Hlen & Hsrc & Hdst & ->)]%std_copy_inv;
    [by left|].
  right. exists buf. eexists. split_and!; [done|done|..].
  - by rewrite length_inserts.
  - done.
  - intros j Hj. unfold init.
    rewrite list_lookup_inserts by (rewrite ?length_fmap; lia).
    rewrite list_lookup_fmap.
    destruct (lookup_lt_is_Some_2 vs (j - N.to_nat dest)) as [v ->]; [lia|].
    by eexists.
  - intros j Hj. destruct (decide (j < N.to_nat dest)%nat).
    + by rewrite list_lookup_inserts_lt.
    + by rewrite list_lookup_inserts_ge by (rewrite ?length_fmap; lia).
Qed.

Lemma std_copy_no_throw (first : N) (n : nat) (dest : N) a e a' :
  std_copy first n dest a ≠ Throw e a'.
Proof.
  unfold std_copy, bind.
  destruct (load_n first n a) as [vs a1|e1 a1|] eqn:Hload.
  - apply std_copy_from_no_throw.
  - by destruct (load_n_no_throw _ _ _ _ _ Hload).
  - done.
Qed.
(** *** Storage that only gains values *)


Lemma extends_refl buf : extends buf buf.
Proof. by split. Qed.

Lemma extends_trans buf1 buf2 buf3 :
  extends buf1 buf2 → extends buf2 buf3 → extends buf1 buf3.
Proof. intros [? ?] [? ?]. split; [congruence|auto]. Qed.

Lemma extends_insert buf (i : nat) v : extends buf (<[i := Some v]> buf).
Proof. split; [apply length_insert|]. intros j. apply init_insert. Qed.

Lemma extends_inserts buf (i : nat) (k : list T) :
  extends buf (list_inserts i (Some <$> k) buf).
Proof.
  revert i. induction k as [|x k IH]; intros i; [apply extends_refl|].
  cbn. eapply extends_trans; [apply IH|apply extends_insert].
Qed.

Lemma init_inserts buf (i : nat) (k : list T) (j : nat) :
  (i ≤ j < i + List.length k)%nat → (j < List.length buf)%nat →
  mjoin (list_inserts i (Some <$> k) buf !! j) = k !! (j - i)%nat.
Proof.
  intros Hj Hlen. rewrite list_lookup_inserts by (rewrite ?length_fmap; lia).
  rewrite list_lookup_fmap. by destruct (k !! _).
Qed.

Lemma slot_eq a (i : N) :
  slot a i =
  match elements a with
  | Some buf => mjoin (buf !! N.to_nat i)
  | None => None
  end.
Proof. unfold slot. by destruct (elements a). Qed.

(** *** The representation invariant, by the shape of the array *)

Lemma wf_Some (len cap : N) buf :
  wf (mkArray len cap (Some buf)) ↔
  (len ≤ cap)%N ∧ cap ≠ 0%N ∧ (cap ≤ INT32_MAX)%N
  ∧ List.length buf = N.to_nat cap
  ∧ ∀ j, (j < N.to_nat len)%nat → init buf j.
Proof.
  split.
  - intros [(Hlen & Hnull & Hinit) Hcap Hsto]. cbn in *.
    split_and!; [done| |done|by apply Hsto|].
    + intros ->. by destruct Hnull as [_ Hnull]; specialize (Hnull eq_refl).
    + intros j Hj. specialize (Hinit (N.of_nat j)).
      rewrite slot_eq in Hinit. cbn in Hinit. rewrite Nat2N.id in Hinit.
      apply Hinit. lia.
  - intros (Hlen & Hne & Hcap & Hsto & Hinit). split; [split_and!| |]; cbn.
    + done.
    + split; [done|intros; done].
    + intros i Hi. rewrite slot_eq. cbn. apply Hinit. lia.
    + done.
    + by intros ? [= <-].
Qed.

Lemma wf_None (len cap : N) :
  wf (mkArray (T:=T) len cap None) ↔ len = 0%N ∧ cap = 0%N.
Proof.
  split.
  - intros [(Hlen & Hnull & _) _ _]. cbn in *.
    destruct Hnull as [Hnull _]. specialize (Hnull eq_refl). lia.
  - intros [-> ->]. split; [split_and!| |]; cbn; try done.
    + intros i Hi. lia.
Qed.

Lemma wf_blank : wf (blank (T:=T)).
Proof. by apply wf_None. Qed.

Lemma wf_extends (len cap len' : N) buf buf' :
  wf (mkArray len cap (Some buf)) → extends buf buf' → (len' ≤ cap)%N →
  (∀ j, (N.to_nat len ≤ j < N.to_nat len')%nat → init buf' j) →
  wf (mkArray len' cap (Some buf')).
Proof.
  rewrite !wf_Some. intros (? & ? & ? & ? & Hinit) [Hlen Hext] ? Hnew.
  split_and!; [done..|congruence|]. intros j Hj.
  destruct (decide (j < N.to_nat len)%nat); [by apply Hext, Hinit|].
  apply Hnew. lia.
Qed.


(** *** Sound arrays *)

Lemma sound_Some (len cap : N) buf :
  sound (mkArray len cap (Some buf)) ↔
  (len ≤ cap)%N ∧ cap ≠ 0%N ∧ (cap ≤ INT32_MAX)%N
  ∧ (List.length buf ≤ N.to_nat cap)%nat
  ∧ ∀ j, (j < N.to_nat len)%nat → init buf j.
Proof.
  split.
  - intros [(Hlen & Hnull & Hinit) Hcap Hsto]. cbn in *.
    split_and!; [done| |done|done|].
    + intros ->. by destruct Hnull as [_ Hnull]; specialize (Hnull eq_refl).
    + intros j Hj. specialize (Hinit (N.of_nat j)).
      rewrite slot_eq in Hinit. cbn in Hinit. rewrite Nat2N.id in Hinit.
      apply Hinit. lia.
  - intros (Hlen & Hne & Hcap & Hsto & Hinit). split; [split_and!| |]; cbn.
    + done.
    + split; [done|intros; done].
    + intros i Hi. rewrite slot_eq. cbn. apply Hinit. lia.
    + done.
    + done.
Qed.

Lemma sound_None (len cap : N) :
  sound (mkArray (T:=T) len cap None) ↔ len = 0%N ∧ cap = 0%N.
Proof.
  split.
  - intros [(Hlen & Hnull & _) _ _]. cbn in *.
    destruct Hnull as [Hnull _]. specialize (Hnull eq_refl). lia.
  - intros [-> ->]. split; [split_and!| |]; cbn; try done.
    + intros i Hi. lia.
Qed.

Lemma wf_iff a : wf a ↔ sound a ∧ room a = N.to_nat (capacity a).
Proof.
  destruct a as [len cap [buf|]]; cbn.
  - rewrite wf_Some, sound_Some. naive_solver lia.
  - rewrite wf_None, sound_None. naive_solver lia.
Qed.

Lemma wf_sound a : wf a → sound a.
Proof. by intros [? _]%wf_iff. Qed.

Lemma init_lt buf (j : nat) : init buf j → (j < List.length buf)%nat.
Proof.
  unfold init. intros [v Hv]. apply lookup_lt_is_Some.
  by destruct (buf !! j).
Qed.

(** The elements of a sound array are inside its storage. *)
Lemma sound_room a : sound a → (N.to_nat (length a) ≤ room a)%nat.
Proof.
  destruct a as [len cap [buf|]]; cbn.
  - intros (_ & _ & _ & _ & Hinit)%sound_Some.
    destruct (decide (len = 0%N)) as [->|]; [lia|].
    pose proof (init_lt buf (N.to_nat len - 1)
                  (Hinit (N.to_nat len - 1)%nat ltac:(lia))). lia.
  - intros [-> _]%sound_None. lia.
Qed.

Lemma sound_extends (len cap len' : N) buf buf' :
  sound (mkArray len cap (Some buf)) → extends buf buf' → (len' ≤ cap)%N →
  (∀ j, (N.to_nat len ≤ j < N.to_nat len')%nat → init buf' j) →
  sound (mkArray len' cap (Some buf')).
Proof.
  rewrite !sound_Some. intros (? & ? & ? & ? & Hinit) [Hlen Hext] ? Hnew.
  split_and!; [done..|congruence|]. intros j Hj.
  destruct (decide (j < N.to_nat len)%nat); [by apply Hext, Hinit|].
  apply Hnew. lia.
Qed.

(** *** Growth *)

Lemma size_t_wrap_le (n : N) : (size_t_wrap n ≤ n)%N.
Proof. unfold size_t_wrap. apply N.Div0.mod_le. Qed.

Lemma size_t_wrap_small (n : N) :
  (32 ≤ size_bits)%N → (n < 2 ^ 32)%N → size_t_wrap n = n.
Proof.
  intros Hbits Hn. unfold size_t_wrap. apply N.mod_small.
  eapply N.lt_le_trans; [done|]. by apply N.pow_le_mono_r.
Qed.

(** Case analysis on the comparisons of a goal, innermost first. *)
Ltac case_compare :=
  repeat match goal with
         | |- context [(?x <? ?y)%N] =>
             lazymatch constr:((x, y)) with
             | context [if _ then _ else _] => fail
             | _ => destruct (N.ltb_spec x y)
             end
         | |- context [(?x =? ?y)%N] => destruct (N.eqb_spec x y)
         | |- context [N.max ?x ?y] =>
             destruct (N.max_spec x y) as [[? ->]|[? ->]]
         | |- context [N.min ?x ?y] =>
             destruct (N.min_spec x y) as [[? ->]|[? ->]]
         end.

Lemma newCapacity_bounds (cap min : N) :
  (cap < min)%N → (min ≤ INT32_MAX)%N →
  (min ≤ newCapacity cap min ≤ INT32_MAX)%N.
Proof. intros Hlt Hmax. unfold newCapacity. case_compare; lia. Qed.

(** The growth policy of the specification. *)
Lemma newCapacity_policy (cap min : N) :
  (32 ≤ size_bits)%N → (cap ≤ INT32_MAX)%N →
  newCapacity cap min =
  N.min INT32_MAX (N.max min (if (cap =? 0)%N then 16 else cap * 2))%N.
Proof.
  intros Hbits Hcap. unfold newCapacity, CAPACITY_GROW_FACTOR, DEFAULT_CAPACITY.
  rewrite size_t_wrap_small by (done || (unfold INT32_MAX in *; lia)).
  case_compare; lia.
Qed.


Lemma size_t_wrap_id (n : N) : (n < 2 ^ size_bits)%N → size_t_wrap n = n.
Proof. intros Hn. unfold size_t_wrap. by apply N.mod_small. Qed.


(** The byte count of a capacity, and the elements the block for it
    holds. *)
Lemma byte_count_fits (n : N) : fits n → byte_count n = (n * N.pos sizeof)%N.
Proof. intros Hfit. unfold byte_count. by apply size_t_wrap_id. Qed.

Lemma block_fits (n : N) : fits n → (byte_count n / N.pos sizeof)%N = n.
Proof. intros Hfit. rewrite byte_count_fits by done. apply N.div_mul. lia. Qed.

Lemma block_le (n : N) : (byte_count n / N.pos sizeof ≤ n)%N.
Proof.
  unfold byte_count.
  transitivity (n * N.pos sizeof / N.pos sizeof)%N.
  - apply N.Div0.div_le_mono, size_t_wrap_le.
  - rewrite N.div_mul; lia.
Qed.

(** A byte count that wrapped is room for fewer elements than were
    asked for. *)
Lemma block_short (n : N) :
  ¬ fits n → (byte_count n / N.pos sizeof < n)%N.
Proof.
  unfold fits, byte_count, size_t_wrap. intros Hwrap.
  apply N.Div0.div_lt_upper_bound.
  pose proof (N.mod_upper_bound (n * N.pos sizeof) (2 ^ size_bits)
                ltac:(apply N.pow_nonzero; lia)).
  lia.
Qed.

Lemma byte_count_pos (n : N) : fits n → (0 < n)%N → byte_count n ≠ 0%N.
Proof. intros Hfit Hn. rewrite byte_count_fits by done. lia. Qed.

Lemma ensureCapacity_enough (min : N) a :
  (min ≤ capacity a)%N → ensureCapacity min a = Return tt a.
Proof.
  intros Hle. unfold ensureCapacity.
  by destruct (N.leb_spec min (capacity a)); [|lia].
Qed.

Lemma ensureCapacity_exceeded (min : N) a :
  (capacity a < min)%N → (INT32_MAX < min)%N →
  ensureCapacity min a = Throw CapacityExceeded a.
Proof.
  intros Hlt Hmax. unfold ensureCapacity.
  destruct (N.leb_spec min (capacity a)); [lia|].
  by destruct (N.ltb_spec INT32_MAX min); [|lia].
Qed.

(** When [ensureCapacity] returns, the array is as it was, or it has the
    new capacity and the block [std::realloc] handed out. *)
Lemma ensureCapacity_inv (min : N) a a1 :
  ensureCapacity min a = Return tt a1 →
  ((min ≤ capacity a)%N ∧ a1 = a)
  ∨ ((capacity a < min ≤ INT32_MAX)%N
     ∧ realloc_ok (byte_count (newCapacity (capacity a) min)) = true
     ∧ a1 = mkArray (length a) (newCapacity (capacity a) min)
              (Some (list.resize
                 (N.to_nat (byte_count (newCapacity (capacity a) min)
                            / N.pos sizeof))
                 None (default [] (elements a))))).
Proof.
  unfold ensureCapacity. destruct (N.leb_spec min (capacity a)).
  { intros [= <-]. by left. }
  destruct (N.ltb_spec INT32_MAX min); [done|].
  pose proof (newCapacity_bounds (capacity a) min) as Hb.
  unfold allocateElements.
  destruct (N.ltb_spec INT32_MAX (newCapacity (capacity a) min)); [lia|].
  destruct (elements a) as [buf|].
  - destruct (N.eqb_spec (byte_count (newCapacity (capacity a) min)) 0); [done|].
    destruct (realloc_ok _) eqn:Hok; [|done]. intros [= <-]. right. done.
  - destruct (realloc_ok _) eqn:Hok; [|done]. intros [= <-]. right. done.
Qed.

Lemma ensureCapacity_throw (min : N) a e a' :
  ensureCapacity min a = Throw e a' →
  a' = a ∧ (e = CapacityExceeded ∨ e = OutOfMemory).
Proof.
  unfold ensureCapacity. destruct (N.leb_spec min (capacity a)); [done|].
  destruct (N.ltb_spec INT32_MAX min); [intros [= <- <-]; auto|].
  unfold allocateElements.
  destruct (N.ltb_spec INT32_MAX (newCapacity (capacity a) min));
    [intros [= <- <-]; auto|].
  destruct (elements a) as [buf|].
  - destruct (N.eqb_spec (byte_count (newCapacity (capacity a) min)) 0); [done|].
    destruct (realloc_ok _); [done|]. intros [= <- <-]; auto.
  - destruct (realloc_ok _); [done|]. intros [= <- <-]; auto.
Qed.

(** What [ensureCapacity] does when the byte count of the new capacity
    does not wrap. *)
Lemma ensureCapacity_cases (min : N) a :
  ((capacity a < min ≤ INT32_MAX)%N → fits (newCapacity (capacity a) min)) →
  ((min ≤ capacity a)%N ∧ ensureCapacity min a = Return tt a)
  ∨ ((capacity a < min)%N ∧ (INT32_MAX < min)%N
     ∧ ensureCapacity min a = Throw CapacityExceeded a)
  ∨ ((capacity a < min ≤ INT32_MAX)%N
     ∧ realloc_ok (byte_count (newCapacity (capacity a) min)) = false
     ∧ ensureCapacity min a = Throw OutOfMemory a)
  ∨ ((capacity a < min ≤ INT32_MAX)%N
     ∧ realloc_ok (byte_count (newCapacity (capacity a) min)) = true
     ∧ ensureCapacity min a =
       Return tt (mkArray (length a) (newCapacity (capacity a) min)
         (Some (list.resize (N.to_nat (newCapacity (capacity a) min)) None
                  (default [] (elements a)))))).
Proof.
  intros Hfit.
  unfold ensureCapacity. destruct (N.leb_spec min (capacity a)); [by left|].
  right. destruct (N.ltb_spec INT32_MAX min); [by left|].
  right. pose proof (newCapacity_bounds (capacity a) min) as Hb.
  specialize (Hfit ltac:(lia)).
  unfold allocateElements.
  destruct (N.ltb_spec INT32_MAX (newCapacity (capacity a) min)); [lia|].
  rewrite block_fits by done.
  assert (byte_count (newCapacity (capacity a) min) ≠ 0%N) as Hpos
    by (apply byte_count_pos; [done|lia]).
  destruct (elements a) as [buf|].
  - destruct (N.eqb_spec (byte_count (newCapacity (capacity a) min)) 0); [done|].
    destruct (realloc_ok _) eqn:Hok; [right|left]; done.
  - destruct (realloc_ok _) eqn:Hok; [right|left]; done.
Qed.

Lemma slot_resize (len cap cap' : N) buf (i : N) :
  List.length buf = N.to_nat cap → (cap ≤ cap')%N →
  mjoin (list.resize (N.to_nat cap') None buf !! N.to_nat i) =
  mjoin (buf !! N.to_nat i).
Proof.
  intros Hlen Hle. destruct (decide (N.to_nat i < List.length buf)%nat).
  - by rewrite lookup_resize by lia.
  - rewrite (lookup_ge_None_2 buf) by lia.
    destruct (decide (N.to_nat i < N.to_nat cap')%nat).
    + by rewrite lookup_resize_new by lia.
    + by rewrite lookup_resize_old by lia.
Qed.


Lemma ensureCapacity_wf (min : N) a a' :
  wf a →
  ((capacity a < min ≤ INT32_MAX)%N → fits (newCapacity (capacity a) min)) →
  ensureCapacity min a = Return tt a' →
  wf a' ∧ (min ≤ capacity a')%N ∧ length a' = length a
  ∧ (capacity a ≤ capacity a')%N ∧ ∀ i, slot a' i = slot a i.
Proof.
  intros Hwf Hfit Hrun.
  destruct (ensureCapacity_cases min a Hfit)
    as [[? E]|[(_ & _ & E)|[(_ & _ & E)|(Hmin & _ & E)]]];
    rewrite E in Hrun; try done; injection Hrun as <-; [done|].
  pose proof (newCapacity_bounds (capacity a) min) as Hb.
  destruct a as [len cap [buf|]]; cbn in *.
  - apply wf_Some in Hwf as (? & ? & ? & Hlen & Hinit).
    split_and!; [|lia|done|lia|].
    + apply wf_Some. split_and!; [lia|lia|lia|by rewrite length_resize|].
      intros j Hj. unfold init. rewrite lookup_resize by lia. by apply Hinit.
    + intros i. rewrite !slot_eq. cbn. by apply (slot_resize len cap); [|lia].
  - apply wf_None in Hwf as [-> ->].
    split_and!; [|lia|done|lia|].
    + apply wf_Some. split_and!; [lia|lia|lia|by rewrite length_resize|].
      intros j Hj. lia.
    + intros i. rewrite !slot_eq. cbn. rewrite resize_nil.
      destruct (replicate _ _ !! _) as [o|] eqn:Hrep; [|done].
      by apply lookup_replicate in Hrep as [-> _].
Qed.

Lemma ensureCapacity_defined (min : N) a :
  ((capacity a < min ≤ INT32_MAX)%N → fits (newCapacity (capacity a) min)) →
  ensureCapacity min a ≠ Undefined.
Proof.
  intros Hfit.
  destruct (ensureCapacity_cases min a Hfit)
    as [[? E]|[(_ & _ & E)|[(_ & _ & E)|(_ & _ & E)]]]; by rewrite E.
Qed.

(** The grown array, when the block holds the elements: it is sound,
    and the slots inside the block are as they were. *)
Lemma grown_sound (min : N) a (room' : nat) :
  sound a → (capacity a < min ≤ INT32_MAX)%N →
  (N.to_nat (length a) ≤ room')%nat →
  (room' ≤ N.to_nat (newCapacity (capacity a) min))%nat →
  sound (mkArray (length a) (newCapacity (capacity a) min)
           (Some (list.resize room' None (default [] (elements a)))))
  ∧ ∀ i, (N.to_nat i < room')%nat →
      slot (mkArray (length a) (newCapacity (capacity a) min)
              (Some (list.resize room' None (default [] (elements a))))) i
      = slot a i.
Proof.
  intros Hsound Hmin Hlen Hroom.
  pose proof (newCapacity_bounds (capacity a) min) as Hb.
  pose proof (sound_room a Hsound) as Hin.
  destruct a as [len cap [buf|]]; cbn in *.
  - apply sound_Some in Hsound as (? & ? & ? & Hsto & Hinit). split.
    + apply sound_Some. split_and!; [lia|lia|lia|by rewrite length_resize|].
      intros j Hj. unfold init. rewrite lookup_resize by lia. by apply Hinit.
    + intros i Hi. rewrite !slot_eq. cbn.
      destruct (decide (N.to_nat i < List.length buf)%nat).
      * by rewrite lookup_resize by lia.
      * rewrite (lookup_ge_None_2 buf) by lia.
        by rewrite lookup_resize_new by lia.
  - apply sound_None in Hsound as [-> ->]. split.
    + apply sound_Some. split_and!; [lia|lia|lia|by rewrite length_resize|].
      intros j Hj. lia.
    + intros i Hi. rewrite !slot_eq. cbn. rewrite resize_nil.
      by rewrite lookup_replicate_2 by lia.
Qed.
(** *** Slots after a block write *)

Lemma slot_inserts buf (i : nat) (k : list T) (j : nat) :
  (i + List.length k ≤ List.length buf)%nat →
  mjoin (list_inserts i (Some <$> k) buf !! j) =
  if decide (i ≤ j < i + List.length k)%nat then k !! (j - i)%nat
  else mjoin (buf !! j).
Proof.
  intros Hlen. case_decide as Hj.
  - apply init_inserts; lia.
  - destruct (decide (j < i)%nat).
    + by rewrite list_lookup_inserts_lt.
    + by rewrite list_lookup_inserts_ge by (rewrite length_fmap; lia).
Qed.

Lemma slot_insert buf (i j : nat) v :
  (i < List.length buf)%nat →
  mjoin (<[i := Some v]> buf !! j) =
  if decide (j = i) then Some v else mjoin (buf !! j).
Proof.
  intros Hi. case_decide as Hj.
  - subst. by rewrite list_lookup_insert_eq.
  - by rewrite list_lookup_insert_ne.
Qed.


(** *** Granted storage *)

Lemma granted_fits (min : N) a :
  granted a min →
  (capacity a < min ≤ INT32_MAX)%N → fits (newCapacity (capacity a) min).
Proof. intros Hok [Hlt _]. by destruct (Hok Hlt). Qed.

Lemma ensureCapacity_granted (min : N) a :
  (min ≤ INT32_MAX)%N → granted a min →
  ∃ a1, ensureCapacity min a = Return tt a1.
Proof.
  intros Hmax Hok.
  destruct (ensureCapacity_cases min a (granted_fits _ _ Hok))
    as [[? E]|[(? & ? & E)|[([Hlt ?] & Hno & E)|(_ & _ & E)]]]; eauto; try lia.
  destruct (Hok Hlt) as [_ Hyes]. congruence.
Qed.

(** *** [resize] *)

Lemma resize_throws (newSize : N) a e s :
  ensureCapacity newSize a = Throw e s → resize newSize a = Throw e s.
Proof. intros E. unfold resize, bind. by rewrite E. Qed.

Lemma resize_returns (newSize : N) a a1 :
  wf a →
  ((capacity a < newSize ≤ INT32_MAX)%N →
   fits (newCapacity (capacity a) newSize)) →
  ensureCapacity newSize a = Return tt a1 →
  ∃ a', resize newSize a = Return tt a'
        ∧ wf a' ∧ length a' = newSize ∧ capacity a' = capacity a1
        ∧ ∀ i, slot a' i =
               if decide (length a ≤ i < newSize)%N then Some zero
               else slot a i.
Proof.
  intros Hwf Hfit E.
  destruct (ensureCapacity_wf _ _ _ Hwf Hfit E) as (Hwf1 & Hcap & Hlen & _ & Hslot).
  unfold resize, bind. rewrite E. clear E. rewrite Hlen.
  destruct (N.ltb_spec (length a) newSize) as [Hgrow|Hshrink].
  - destruct a1 as [len1 cap1 [buf1|]]; cbn in *; last first.
    { apply wf_None in Hwf1. lia. }
    subst len1. pose proof Hwf1 as Hwf1'.
    apply wf_Some in Hwf1' as (? & ? & ? & Hbuf & Hinit).
    erewrite std_fill_n_ok; [|done|lia].
    eexists. split; [done|]. cbn.
    split_and!; [|done|done|].
    + eapply wf_extends; [done|apply extends_inserts|done|].
      intros j Hj. unfold init.
      rewrite slot_inserts by (rewrite length_replicate; lia).
      rewrite length_replicate, decide_True by lia.
      rewrite lookup_replicate_2 by lia. by eexists.
    + intros i. rewrite <- Hslot, !slot_eq. cbn.
      rewrite slot_inserts by (rewrite length_replicate; lia).
      rewrite length_replicate.
      repeat case_decide; try lia; [|done].
      by rewrite lookup_replicate_2 by lia.
  - eexists. split; [done|]. destruct a1 as [len1 cap1 [buf1|]]; cbn in *.
    + subst len1. split_and!; [|done|done|].
      * eapply wf_extends; [done|apply extends_refl|cbn; lia|]. intros j Hj. lia.
      * intros i. rewrite decide_False by lia. rewrite <- Hslot.
        by rewrite !slot_eq.
    + apply wf_None in Hwf1 as [-> ->]. split_and!; [|done|done|].
      * apply wf_None. split; [lia|done].
      * intros i. rewrite decide_False by lia. by rewrite <- Hslot, !slot_eq.
Qed.

(** *** [set] *)

Lemma store_wf (index : N) v a a' :
  wf a → store index v a = Return tt a' →
  wf a' ∧ length a' = length a ∧ capacity a' = capacity a
  ∧ (index < capacity a)%N
  ∧ ∀ i, slot a' i = if decide (i = index) then Some v else slot a i.
Proof.
  intros Hwf. rewrite store_eq. destruct a as [len cap [buf|]]; cbn; [|done].
  case_decide as Hlt; [|done]. intros [= <-]. cbn.
  pose proof Hwf as (? & ? & ? & Hbuf & Hinit)%wf_Some.
  split_and!; [|done|done|lia|].
  - eapply wf_extends; [done|apply extends_insert|done|].
    intros j Hj. cbn in Hj. lia.
  - intros i. rewrite !slot_eq. cbn. rewrite slot_insert by done.
    repeat case_decide; try done; lia.
Qed.

Lemma store_in_range (index : N) v a :
  wf a → (index < capacity a)%N → ∃ a', store index v a = Return tt a'.
Proof.
  intros Hwf Hlt. rewrite store_eq. destruct a as [len cap [buf|]]; cbn in *.
  - apply wf_Some in Hwf as (? & ? & ? & Hbuf & Hinit).
    rewrite decide_True by lia. by eexists.
  - apply wf_None in Hwf. lia.
Qed.

Lemma store_no_throw (index : N) v a e a' : store index v a ≠ Throw e a'.
Proof. rewrite store_eq. destruct (elements a); [case_decide|]; done. Qed.


Lemma set_returns (index : N) (value : T) a :
  (32 ≤ size_bits)%N → wf a →
  (length a ≤ index)%N → (index < INT32_MAX)%N →
  granted a (index + 1) →
  ∃ a', set index value a = Return tt a'
        ∧ wf a'
        ∧ length a' = (index + 1)%N
        ∧ (∀ i, (length a ≤ i < index)%N → slot a' i = Some zero)
        ∧ slot a' index = Some value
        ∧ (∀ i, (i < length a)%N → slot a' i = slot a i)
        ∧ (index + 1 ≤ capacity a')%N
        ∧ (capacity a ≤ capacity a')%N.
Proof.
  intros Hbits Hwf Hlen Hmax Hok. unfold set, bind.
  destruct (N.leb_spec (length a) index); [|lia].
  rewrite size_t_wrap_small by (done || (unfold INT32_MAX in *; lia)).
  pose proof (granted_fits _ _ Hok) as Hfit.
  destruct (ensureCapacity_granted (index + 1) a) as [a1 E]; [lia|done|].
  destruct (ensureCapacity_wf _ _ _ Hwf Hfit E) as (_ & Hcap1 & _ & Hmono & _).
  destruct (resize_returns _ _ _ Hwf Hfit E)
    as (a2 & -> & Hwf2 & Hlen2 & Hcap2 & Hslot2).
  destruct (store_in_range index value a2 Hwf2) as [a' Hstore]; [lia|].
  rewrite Hstore. exists a'. split; [done|].
  destruct (store_wf _ _ _ _ Hwf2 Hstore) as (Hwf' & Hlen' & Hcap' & _ & Hslot').
  split_and!; [done|congruence| | | |lia|lia].
  - intros i Hi. rewrite Hslot', Hslot2.
    rewrite decide_False by lia. by rewrite decide_True by lia.
  - rewrite Hslot'. by rewrite decide_True.
  - intros i Hi. rewrite Hslot', Hslot2.
    rewrite decide_False by lia. by rewrite decide_False by lia.
Qed.

(** *** [fill] *)

Lemma size_t_of_Z_small (z : Z) :
  (32 ≤ size_bits)%N → (0 ≤ z < 2 ^ 32)%Z → Z.of_N (size_t_of_Z z) = z.
Proof.
  intros Hbits Hz. unfold size_t_of_Z.
  assert (2 ^ 32 ≤ 2 ^ Z.of_N size_bits)%Z by (apply Z.pow_le_mono_r; lia).
  rewrite Z.mod_small by lia. lia.
Qed.

Lemma resolve_index_from_end (len : N) (i : Z) :
  (32 ≤ size_bits)%N → (len ≤ INT32_MAX)%N →
  (- Z.of_N len ≤ i < 0)%Z →
  Z.of_N (resolve_index len i) = (Z.of_N len + i)%Z.
Proof.
  intros Hbits Hlen Hi. unfold resolve_index.
  destruct (Z.ltb_spec i 0); [|lia].
  apply size_t_of_Z_small; [done|]. unfold INT32_MAX in *. lia.
Qed.

Lemma resolve_index_from_start (len : N) (i : Z) :
  (32 ≤ size_bits)%N → (0 ≤ i < 2 ^ 31)%Z →
  Z.of_N (resolve_index len i) = i.
Proof.
  intros Hbits Hi. unfold resolve_index.
  destruct (Z.ltb_spec i 0); [lia|]. apply size_t_of_Z_small; [done|lia].
Qed.

(** A negative index that reaches below the first element wraps to an
    index above the length. *)
Lemma resolve_index_below (len : N) (i : Z) :
  (32 ≤ size_bits)%N → (len ≤ INT32_MAX)%N →
  (- 2 ^ 31 ≤ i < - Z.of_N len)%Z →
  (len < resolve_index len i)%N.
Proof.
  intros Hbits Hlen Hi. unfold resolve_index, size_t_of_Z.
  destruct (Z.ltb_spec i 0); [|lia].
  assert (2 ^ 32 ≤ 2 ^ Z.of_N size_bits)%Z by (apply Z.pow_le_mono_r; lia).
  replace (Z.of_N len + i)%Z
    with (Z.of_N len + i + 2 ^ Z.of_N size_bits + (-1) * 2 ^ Z.of_N size_bits)%Z
    by lia.
  rewrite Z.mod_add, Z.mod_small by (unfold INT32_MAX in *; lia).
  unfold INT32_MAX in *. lia.
Qed.


(** *** The steps of the member functions, on well-formed arrays *)

Lemma set_length_wf (len' : N) a :
  wf a → (len' ≤ capacity a)%N →
  (∀ i, (length a ≤ i < len')%N → is_Some (slot a i)) →
  wf (set_length len' a).
Proof.
  intros Hwf Hcap Hnew. destruct a as [len cap [buf|]]; unfold set_length; cbn in *.
  - eapply wf_extends; [done|apply extends_refl|done|].
    intros j Hj. specialize (Hnew (N.of_nat j)). rewrite slot_eq in Hnew.
    cbn in Hnew. rewrite Nat2N.id in Hnew. apply Hnew. lia.
  - apply wf_None in Hwf as [-> ->]. apply wf_None. split; [lia|done].
Qed.

Lemma slot_set_length (len' : N) a i : slot (set_length len' a) i = slot a i.
Proof. by rewrite !slot_eq. Qed.

Lemma std_copy_from_wf (src : list T) (n : nat) (dest : N) a a' :
  wf a → std_copy_from src n dest a = Return tt a' →
  wf a' ∧ length a' = length a ∧ capacity a' = capacity a
  ∧ (n ≤ List.length src)%nat
  ∧ ((0 < n)%nat → (dest + N.of_nat n ≤ capacity a)%N)
  ∧ ∀ i, slot a' i =
         if decide (dest ≤ i < dest + N.of_nat n)%N
         then src !! N.to_nat (i - dest)
         else slot a i.
Proof.
  intros Hwf Hrun.
  destruct (std_copy_from_inv _ _ _ _ _ Hrun)
    as [[-> ->]|(buf & Hbuf & Hsrc & Hin & ->)].
  { split_and!; [done|done|done|lia|lia|].
    intros i. by rewrite decide_False by lia. }
  destruct a as [len cap [buf0|]]; cbn in Hbuf; [|done].
  injection Hbuf as ->. unfold set_elements. cbn.
  pose proof Hwf as (? & ? & ? & Hlen & Hinit)%wf_Some.
  split_and!; [|done|done|done|lia|].
  - eapply wf_extends; [done|apply extends_inserts|done|]. intros j Hj. lia.
  - intros i. rewrite !slot_eq. cbn.
    rewrite slot_inserts by (rewrite length_take; lia).
    rewrite length_take.
    repeat case_decide; try lia; [|done].
    rewrite lookup_take_lt by lia. f_equal. lia.
Qed.

Lemma std_copy_wf (first : N) (n : nat) (dest : N) a a' :
  wf a → std_copy first n dest a = Return tt a' →
  wf a' ∧ length a' = length a ∧ capacity a' = capacity a
  ∧ ((0 < n)%nat → (dest + N.of_nat n ≤ capacity a)%N)
  ∧ (∀ i, (dest ≤ i < dest + N.of_nat n)%N → is_Some (slot a' i))
  ∧ (∀ i, ¬ (dest ≤ i < dest + N.of_nat n)%N → slot a' i = slot a i).
Proof.
  intros Hwf Hrun.
  destruct (std_copy_footprint _ _ _ _ _ Hrun)
    as [[-> ->]|(buf & buf' & Hbuf & -> & Hlen & Hin & Hnew & Hold)].
  { split_and!; [done|done|done|lia| |done]. intros i Hi. lia. }
  destruct a as [len cap [buf0|]]; cbn in Hbuf; [|done].
  injection Hbuf as ->. unfold set_elements. cbn.
  pose proof Hwf as (? & ? & ? & Hcap & Hinit)%wf_Some.
  assert (extends buf buf') as Hext.
  { split; [done|]. intros j Hj.
    destruct (decide (N.to_nat dest ≤ j < N.to_nat dest + n)%nat); [by apply Hnew|].
    unfold init. by rewrite Hold. }
  split_and!; [|done|done|lia|..].
  - eapply wf_extends; [done|done|done|]. intros j Hj. lia.
  - intros i Hi. rewrite slot_eq. cbn. apply Hnew. lia.
  - intros i Hi. rewrite !slot_eq. cbn. f_equal. apply Hold. lia.
Qed.

Lemma std_fill_n_wf (first : N) (n : nat) v a a' :
  wf a → std_fill_n first n v a = Return tt a' →
  wf a' ∧ length a' = length a ∧ capacity a' = capacity a
  ∧ ((0 < n)%nat → (first + N.of_nat n ≤ capacity a)%N)
  ∧ ∀ i, slot a' i =
         if decide (first ≤ i < first + N.of_nat n)%N then Some v
         else slot a i.
Proof.
  intros Hwf. rewrite std_fill_n_copy. intros Hrun.
  destruct (std_copy_from_wf _ _ _ _ _ Hwf Hrun) as (? & ? & ? & _ & ? & Hslot).
  split_and!; [done..|]. intros i. rewrite Hslot. case_decide; [|done].
  apply lookup_replicate_2. lia.
Qed.

Lemma load_wf (i : N) a :
  wf a → (i < length a)%N → ∃ v, slot a i = Some v ∧ load i a = Return v a.
Proof.
  intros [(_ & _ & Hinit) _ _] Hi. destruct (Hinit i Hi) as [v Hv].
  exists v. split; [done|]. rewrite load_eq. rewrite slot_eq in Hv.
  destruct (elements a) as [buf|]; [|done].
  by destruct (buf !! N.to_nat i) as [[w|]|]; simplify_eq/=.
Qed.



Lemma std_fill_n_no_throw (first : N) (n : nat) v a e a' :
  std_fill_n first n v a ≠ Throw e a'.
Proof. rewrite std_fill_n_copy. apply std_copy_from_no_throw. Qed.

Lemma wf_length_max a : wf a → (length a ≤ INT32_MAX)%N.
Proof. intros [(? & _) ? _]. lia. Qed.

Lemma wf_elements a :
  wf a → (0 < capacity a)%N →
  ∃ buf, elements a = Some buf ∧ List.length buf = N.to_nat (capacity a).
Proof.
  intros Hwf Hcap. destruct a as [len cap [buf|]]; cbn in *.
  - apply wf_Some in Hwf as (? & ? & ? & ? & ?). by exists buf.
  - apply wf_None in Hwf. lia.
Qed.

Lemma std_copy_from_returns (src : list T) (n : nat) (dest : N) a :
  wf a → (n ≤ List.length src)%nat → (dest + N.of_nat n ≤ capacity a)%N →
  ∃ a', std_copy_from src n dest a = Return tt a'.
Proof.
  intros Hwf Hsrc Hcap. destruct n as [|n]; [by eexists|].
  destruct (wf_elements a Hwf) as (buf & Hbuf & Hlen); [lia|].
  erewrite std_copy_from_ok; [by eexists|done|done|lia].
Qed.

Lemma std_fill_n_returns (first : N) (n : nat) v a :
  wf a → (first + N.of_nat n ≤ capacity a)%N →
  ∃ a', std_fill_n first n v a = Return tt a'.
Proof.
  intros Hwf Hcap. rewrite std_fill_n_copy.
  apply std_copy_from_returns; [done|by rewrite length_replicate|done].
Qed.

Lemma fill_returns (value : T) (start end_ : Z) a :
  wf a →
  (resolve_index (length a) start < length a)%N →
  (resolve_index (length a) start ≤ resolve_index (length a) end_
   ≤ length a)%N →
  ∃ a', fill value start end_ a = Return tt a'
        ∧ wf a' ∧ length a' = length a ∧ capacity a' = capacity a
        ∧ ∀ i, slot a' i =
               if decide (resolve_index (length a) start ≤ i
                          < resolve_index (length a) end_)%N
               then Some value else slot a i.
Proof.
  intros Hwf Hs He. unfold fill.
  destruct (N.leb_spec (length a) (resolve_index (length a) start)); [lia|].
  destruct (N.ltb_spec (length a) (resolve_index (length a) end_)); [lia|].
  destruct (N.ltb_spec (resolve_index (length a) end_)
              (resolve_index (length a) start)); [lia|].
  pose proof Hwf as [(Hlc & _) _ _].
  destruct (std_fill_n_returns (resolve_index (length a) start)
    (N.to_nat (resolve_index (length a) end_ - resolve_index (length a) start))
    value a Hwf) as [a' Hrun]; [lia|].
  exists a'. split; [done|].
  destruct (std_fill_n_wf _ _ _ _ _ Hwf Hrun) as (? & ? & ? & _ & Hslot).
  split_and!; [done..|]. intros i. rewrite Hslot.
  repeat case_decide; done || lia.
Qed.

Lemma fill_throws (value : T) (start end_ : Z) a :
  (length a ≤ resolve_index (length a) start
   ∨ length a < resolve_index (length a) end_)%N →
  ∃ e, IndexOutOfRange e ∧ fill value start end_ a = Throw e a.
Proof.
  intros Hout. unfold fill, IndexOutOfRange.
  destruct (N.leb_spec (length a) (resolve_index (length a) start)); [eauto|].
  destruct (N.ltb_spec (length a) (resolve_index (length a) end_)); [eauto|].
  lia.
Qed.

Lemma fill_nothing (value : T) (start end_ : Z) a :
  (resolve_index (length a) start < length a)%N →
  (resolve_index (length a) end_ ≤ length a)%N →
  (resolve_index (length a) end_ < resolve_index (length a) start)%N →
  fill value start end_ a = Return tt a.
Proof.
  intros Hs He Hlt. unfold fill.
  destruct (N.leb_spec (length a) (resolve_index (length a) start)); [lia|].
  destruct (N.ltb_spec (length a) (resolve_index (length a) end_)); [lia|].
  destruct (N.ltb_spec (resolve_index (length a) end_)
              (resolve_index (length a) start)); [done|lia].
Qed.

(** *** [pop] and [shift] *)

Lemma pop_empty a : length a = 0%N → pop a = Throw EmptyArray a.
Proof. intros Hlen. unfold pop. by rewrite Hlen. Qed.

Lemma shift_empty a : length a = 0%N → shift a = Throw EmptyArray a.
Proof. intros Hlen. unfold shift. by rewrite Hlen. Qed.

Lemma pop_returns a :
  wf a → (0 < length a)%N →
  ∃ v, slot a (length a - 1) = Some v
       ∧ pop a = Return v (set_length (length a - 1) a).
Proof.
  intros Hwf Hlen. unfold pop, bind, modify.
  destruct (N.eqb_spec (length a) 0); [lia|].
  destruct (load_wf (length a - 1) a Hwf) as (v & Hv & Hload); [lia|].
  exists v. split; [done|]. rewrite load_eq in *. cbn.
  destruct (elements a) as [buf|]; [|done].
  by destruct (buf !! _) as [[w|]|]; simplify_eq.
Qed.

Lemma shift_returns a :
  wf a → (0 < length a)%N →
  ∃ v a', slot a 0 = Some v ∧ shift a = Return v a'
          ∧ wf a' ∧ length a' = (length a - 1)%N
          ∧ capacity a' = capacity a
          ∧ ∀ i, (i < length a - 1)%N → slot a' i = slot a (i + 1).
Proof.
  intros Hwf Hlen. unfold shift, bind, modify, ret.
  destruct (N.eqb_spec (length a) 0); [lia|].
  destruct (load_wf 0 a Hwf) as (v & Hv & ->); [lia|].
  pose proof Hwf as [(Hlc & _ & Hinit) _ _].
  destruct (wf_elements a Hwf) as (buf & Hbuf & Hcap); [lia|].
  assert (∀ j, (j < N.to_nat (length a))%nat → init buf j) as Hinit'.
  { intros j Hj. specialize (Hinit (N.of_nat j)).
    rewrite slot_eq, Hbuf, Nat2N.id in Hinit. apply Hinit. lia. }
  pose proof (std_copy_left (N.to_nat (length a - 1)) 1 0 a buf Hbuf) as Hcopy.
  specialize (Hcopy ltac:(lia) ltac:(lia)).
  specialize (Hcopy ltac:(intros j Hj; apply Hinit'; lia)).
  rewrite Hcopy.
  destruct (std_copy_wf _ _ _ _ _ Hwf Hcopy) as (Hwf2 & Hlen2 & Hcap2 & _).
  eexists v, _. split; [done|]. split; [done|].
  split_and!; [|done|done|].
  - apply set_length_wf; [done|cbn; lia|]. intros i Hi. cbn in Hi. lia.
  - intros i Hi. rewrite slot_set_length, !slot_eq, Hbuf. cbn.
    rewrite list_lookup_inserts
      by (rewrite ?length_take, ?length_drop; lia).
    rewrite lookup_take_lt, lookup_drop by lia.
    do 2 f_equal. lia.
Qed.


(** *** [push] *)

Lemma push_returns (elems : list T) (numElements : N) a a1 :
  (32 ≤ size_bits)%N → wf a →
  (length a + numElements ≤ INT32_MAX)%N →
  (N.to_nat numElements ≤ List.length elems)%nat →
  ((capacity a < length a + numElements ≤ INT32_MAX)%N →
   fits (newCapacity (capacity a) (length a + numElements))) →
  ensureCapacity (length a + numElements) a = Return tt a1 →
  ∃ a', push elems numElements a = Return (length a + numElements)%N a'
        ∧ wf a' ∧ length a' = (length a + numElements)%N
        ∧ capacity a' = capacity a1
        ∧ ∀ i, slot a' i =
               if decide (length a ≤ i < length a + numElements)%N
               then elems !! N.to_nat (i - length a)
               else slot a i.
Proof.
  intros Hbits Hwf Hmax Hsrc Hfit E. unfold push, bind, modify, ret.
  rewrite size_t_wrap_small by (done || (unfold INT32_MAX in *; lia)).
  rewrite E.
  destruct (ensureCapacity_wf _ _ _ Hwf Hfit E)
    as (Hwf1 & Hcap1 & Hlen1 & _ & Hslot1).
  destruct (std_copy_from_returns elems (N.to_nat numElements) (length a) a1 Hwf1)
    as [a2 Hcopy]; [done|lia|].
  rewrite Hcopy.
  destruct (std_copy_from_wf _ _ _ _ _ Hwf1 Hcopy)
    as (Hwf2 & Hlen2 & Hcap2 & _ & _ & Hslot2).
  eexists. split; [done|]. split_and!; [|done|by cbn|].
  - apply set_length_wf; [done|lia|]. intros i Hi.
    rewrite Hslot2, decide_True by lia. apply lookup_lt_is_Some. lia.
  - intros i. rewrite slot_set_length, Hslot2, Hslot1.
    repeat case_decide; done || lia.
Qed.

(** *** The constructor *)

Lemma new_Array_wf (size : N) (elems : option (list T)) a :
  new_Array size elems = Return tt a →
  wf a ∧ length a = size ∧ capacity a = size
  ∧ ∀ i, (i < size)%N →
         slot a i = match elems with
                    | None => Some zero
                    | Some src => src !! N.to_nat i
                    end.
Proof.
  unfold new_Array, bind, modify, blank, set_elements; cbn.
  destruct (N.eqb_spec size 0) as [->|Hsize].
  { intros [= <-]. split_and!; [by apply wf_None|done|done|]. intros i Hi. lia. }
  unfold allocateElements.
  destruct (N.ltb_spec INT32_MAX size); [done|].
  destruct (realloc_ok (byte_count size)); [|done]. cbn. rewrite resize_nil.
  pose proof (block_le size) as Hblock.
  assert (∀ k : list T,
    List.length k = N.to_nat size →
    wf (mkArray size size
          (Some (list_inserts 0 (Some <$> k) (replicate (N.to_nat size) None))))
    ∧ ∀ i, (i < size)%N →
        slot (mkArray size size
          (Some (list_inserts 0 (Some <$> k) (replicate (N.to_nat size) None)))) i
        = k !! N.to_nat i) as Hfull.
  { intros k Hk. assert (∀ j, (j < N.to_nat size)%nat →
      mjoin (list_inserts 0 (Some <$> k) (replicate (N.to_nat size) None) !! j)
      = k !! j) as Hj.
    { intros j Hj. rewrite slot_inserts by (rewrite length_replicate; lia).
      rewrite decide_True by lia. f_equal. lia. }
    split.
    - apply wf_Some. split_and!; [lia|done|done| |].
      + by rewrite length_inserts, length_replicate.
      + intros j Hlt. unfold init. rewrite Hj by done.
        apply lookup_lt_is_Some. lia.
    - intros i Hi. rewrite slot_eq. cbn. apply Hj. lia. }
  assert (∀ src a2,
    std_copy_from src (N.to_nat size) 0
      (mkArray 0 0
         (Some (replicate (N.to_nat (byte_count size / N.pos sizeof)) None)))
    = Return tt a2 →
    (N.to_nat size ≤ List.length src)%nat
    ∧ a2 = mkArray 0 0
             (Some (list_inserts 0 (Some <$> take (N.to_nat size) src)
                      (replicate (N.to_nat size) None)))) as Hwrite.
  { intros src a2 Hcopy.
    apply std_copy_from_inv in Hcopy
      as [[? ?]|(buf & Hbuf & Hsrc & Hin & ->)]; [lia|].
    cbn in Hbuf. injection Hbuf as <-. rewrite length_replicate in Hin.
    replace (N.to_nat (byte_count size / N.pos sizeof)) with (N.to_nat size)
      by lia.
    done. }
  destruct elems as [src|].
  - destruct (std_copy_from src (N.to_nat size) 0 _) as [[] a2|e a2|] eqn:Hcopy;
      [|done..].
    apply Hwrite in Hcopy as [Hsrc ->]. cbn. intros [= <-].
    destruct (Hfull (take (N.to_nat size) src)) as [Hwf Hslot].
    { rewrite length_take. lia. }
    split_and!; [done..|]. intros i Hi. rewrite Hslot by done.
    apply lookup_take_lt. lia.
  - rewrite std_fill_n_copy.
    destruct (std_copy_from _ (N.to_nat size) 0 _) as [[] a2|e a2|] eqn:Hcopy;
      [|done..].
    apply Hwrite in Hcopy as [Hsrc ->]. cbn. intros [= <-].
    rewrite firstn_all2 by (rewrite length_replicate; lia).
    destruct (Hfull (replicate (N.to_nat size) zero)) as [Hwf Hslot].
    { by rewrite length_replicate. }
    split_and!; [done..|]. intros i Hi. rewrite Hslot by done.
    apply lookup_replicate_2. lia.
Qed.

(** *** The steps of the member functions, on sound arrays *)

Lemma store_sound (index : N) v a a' :
  sound a → store index v a = Return tt a' →
  sound a' ∧ length a' = length a ∧ capacity a' = capacity a
  ∧ room a' = room a ∧ (N.to_nat index < room a)%nat
  ∧ ∀ i, slot a' i = if decide (i = index) then Some v else slot a i.
Proof.
  intros Hsound. rewrite store_eq. destruct a as [len cap [buf|]]; cbn; [|done].
  case_decide as Hlt; [|done]. intros [= <-]. cbn.
  pose proof Hsound as (? & ? & ? & Hbuf & Hinit)%sound_Some.
  split_and!; [|done|done|by rewrite length_insert|done|].
  - eapply sound_extends; [done|apply extends_insert|done|].
    intros j Hj. cbn in Hj. lia.
  - intros i. rewrite !slot_eq. cbn. rewrite slot_insert by done.
    repeat case_decide; try done; lia.
Qed.

Lemma set_length_sound (len' : N) a :
  sound a → (len' ≤ capacity a)%N →
  (∀ i, (length a ≤ i < len')%N → is_Some (slot a i)) →
  sound (set_length len' a).
Proof.
  intros Hsound Hcap Hnew.
  destruct a as [len cap [buf|]]; unfold set_length; cbn in *.
  - eapply sound_extends; [done|apply extends_refl|done|].
    intros j Hj. specialize (Hnew (N.of_nat j)). rewrite slot_eq in Hnew.
    cbn in Hnew. rewrite Nat2N.id in Hnew. apply Hnew. lia.
  - apply sound_None in Hsound as [-> ->]. apply sound_None. split; [lia|done].
Qed.

Lemma room_set_length (len' : N) a : room (set_length len' a) = room a.
Proof. done. Qed.

Lemma std_copy_from_sound (src : list T) (n : nat) (dest : N) a a' :
  sound a → std_copy_from src n dest a = Return tt a' →
  sound a' ∧ length a' = length a ∧ capacity a' = capacity a
  ∧ room a' = room a
  ∧ (n ≤ List.length src)%nat
  ∧ ((0 < n)%nat → (N.to_nat dest + n ≤ room a)%nat)
  ∧ ∀ i, slot a' i =
         if decide (dest ≤ i < dest + N.of_nat n)%N
         then src !! N.to_nat (i - dest)
         else slot a i.
Proof.
  intros Hsound Hrun.
  destruct (std_copy_from_inv _ _ _ _ _ Hrun)
    as [[-> ->]|(buf & Hbuf & Hsrc & Hin & ->)].
  { split_and!; [done|done|done|done|lia|lia|].
    intros i. by rewrite decide_False by lia. }
  destruct a as [len cap [buf0|]]; cbn in Hbuf; [|done].
  injection Hbuf as ->. unfold set_elements. cbn.
  pose proof Hsound as (? & ? & ? & Hlen & Hinit)%sound_Some.
  split_and!; [|done|done|by rewrite length_inserts|done|done|].
  - eapply sound_extends; [done|apply extends_inserts|done|]. intros j Hj. lia.
  - intros i. rewrite !slot_eq. cbn.
    rewrite slot_inserts by (rewrite length_take; lia).
    rewrite length_take.
    repeat case_decide; try lia; [|done].
    rewrite lookup_take_lt by lia. f_equal. lia.
Qed.

Lemma std_fill_n_sound (first : N) (n : nat) v a a' :
  sound a → std_fill_n first n v a = Return tt a' →
  sound a' ∧ length a' = length a ∧ capacity a' = capacity a
  ∧ room a' = room a
  ∧ ((0 < n)%nat → (N.to_nat first + n ≤ room a)%nat)
  ∧ ∀ i, slot a' i =
         if decide (first ≤ i < first + N.of_nat n)%N then Some v
         else slot a i.
Proof.
  intros Hsound. rewrite std_fill_n_copy. intros Hrun.
  destruct (std_copy_from_sound _ _ _ _ _ Hsound Hrun)
    as (? & ? & ? & ? & _ & ? & Hslot).
  split_and!; [done..|]. intros i. rewrite Hslot. case_decide; [|done].
  apply lookup_replicate_2. lia.
Qed.

(** [std::copy] inside the storage moves the block: each slot from
    [dest] holds what the slot at the same place from [first] held
    before the call, also when the two ranges overlap. *)
Lemma std_copy_sound (first : N) (n : nat) (dest : N) a a' :
  sound a → std_copy first n dest a = Return tt a' →
  sound a' ∧ length a' = length a ∧ capacity a' = capacity a
  ∧ room a' = room a
  ∧ ((0 < n)%nat →
     (N.to_nat first + n ≤ room a)%nat ∧ (N.to_nat dest + n ≤ room a)%nat)
  ∧ ∀ i, slot a' i =
         if decide (dest ≤ i < dest + N.of_nat n)%N
         then slot a (first + (i - dest))
         else slot a i.
Proof.
  intros Hsound Hrun.
  destruct (std_copy_inv _ _ _ _ _ Hrun)
    as [[-> ->]|(buf & vs & Hbuf & Hblock & Hvs & Hsrc & Hdst & ->)].
  { split_and!; [done|done|done|done|lia|].
    intros i. by rewrite decide_False by lia. }
  destruct a as [len cap [buf0|]]; cbn in Hbuf; [|done].
  injection Hbuf as ->. unfold set_elements. cbn.
  pose proof Hsound as (? & ? & ? & Hlen & Hinit)%sound_Some.
  split_and!; [|done|done|by rewrite length_inserts|done|].
  - eapply sound_extends; [done|apply extends_inserts|done|]. intros j Hj. lia.
  - intros i. rewrite !slot_eq. cbn.
    rewrite slot_inserts by lia. rewrite Hvs.
    repeat case_decide; try lia; [|done].
    assert (take n (drop (N.to_nat first) buf) !! (N.to_nat i - N.to_nat dest)%nat
            = (Some <$> vs) !! (N.to_nat i - N.to_nat dest)%nat) as Hat
      by by rewrite Hblock.
    rewrite lookup_take_lt, lookup_drop, list_lookup_fmap in Hat by lia.
    replace (N.to_nat (first + (i - dest)))
      with (N.to_nat first + (N.to_nat i - N.to_nat dest))%nat by lia.
    rewrite Hat. by destruct (vs !! _).
Qed.

Lemma load_sound (i : N) a :
  sound a → (i < length a)%N → ∃ v, slot a i = Some v ∧ load i a = Return v a.
Proof.
  intros [(_ & _ & Hinit) _ _] Hi. destruct (Hinit i Hi) as [v Hv].
  exists v. split; [done|]. rewrite load_eq. rewrite slot_eq in Hv.
  destruct (elements a) as [buf|]; [|done].
  by destruct (buf !! N.to_nat i) as [[w|]|]; simplify_eq/=.
Qed.

(** A write that returned was inside the storage. *)
Lemma std_copy_from_room (src : list T) (n : nat) (dest : N) a a' :
  std_copy_from src n dest a = Return tt a' → (0 < n)%nat →
  (N.to_nat dest + n ≤ room a)%nat.
Proof.
  intros [[? ?]|(buf & Hbuf & _ & ? & _)]%std_copy_from_inv ?; [lia|].
  unfold room. by rewrite Hbuf.
Qed.

Lemma std_fill_n_room (first : N) (n : nat) v a a' :
  std_fill_n first n v a = Return tt a' → (0 < n)%nat →
  (N.to_nat first + n ≤ room a)%nat.
Proof. rewrite std_fill_n_copy. apply std_copy_from_room. Qed.

Lemma std_copy_room (first : N) (n : nat) (dest : N) a a' :
  std_copy first n dest a = Return tt a' → (0 < n)%nat →
  (N.to_nat first + n ≤ room a)%nat ∧ (N.to_nat dest + n ≤ room a)%nat.
Proof.
  intros [[? ?]|(buf & vs & Hbuf & _ & _ & ? & ? & _)]%std_copy_inv ?; [lia|].
  unfold room. by rewrite Hbuf.
Qed.

(** *** [ensureCapacity] on sound arrays *)

Lemma regrown_le (min : N) a a' :
  regrown min a a' → (capacity a ≤ capacity a')%N.
Proof.
  intros [[-> _]|(? & -> & _)]; [done|].
  pose proof (newCapacity_bounds (capacity a) min). lia.
Qed.

Lemma regrown_enough (min : N) a a' :
  regrown min a a' → (min ≤ capacity a)%N →
  capacity a' = capacity a ∧ room a' = room a.
Proof. intros [?|(? & _)] ?; [done|lia]. Qed.

Lemma regrown_same (min : N) a a1 a2 :
  regrown min a a1 → capacity a2 = capacity a1 → room a2 = room a1 →
  regrown min a a2.
Proof.
  intros [[? ?]|(? & ? & ?)] ? ?; [left|right].
  - split; congruence.
  - split; [done|]. split; congruence.
Qed.

(** A well-formed array that was regrown without a wrap of the byte
    count is well-formed. *)
Lemma regrown_wf (min : N) a a' :
  wf a → sound a' → regrown min a a' →
  ((capacity a < min ≤ INT32_MAX)%N → fits (newCapacity (capacity a) min)) →
  wf a'.
Proof.
  intros [_ Hroom]%wf_iff Hsound Hgrown Hfit. apply wf_iff. split; [done|].
  destruct Hgrown as [[-> ->]|(Hmin & -> & ->)]; [done|].
  by rewrite block_fits by auto.
Qed.

(** When [ensureCapacity] returned on a sound array and the block it
    got holds the elements, the array it leaves is sound, and the slots
    inside the block are as they were. *)
Lemma ensureCapacity_sound (min : N) a a1 :
  sound a → ensureCapacity min a = Return tt a1 →
  ((capacity a < min)%N → (N.to_nat (length a) ≤ room a1)%nat) →
  sound a1 ∧ length a1 = length a ∧ (min ≤ capacity a1)%N
  ∧ regrown min a a1
  ∧ ∀ i, (N.to_nat i < room a1)%nat → slot a1 i = slot a i.
Proof.
  intros Hsound E Hroom.
  destruct (ensureCapacity_inv _ _ _ E) as [[Hle ->]|(Hmin & Hok & ->)].
  { split_and!; [done|done|done|by left|done]. }
  pose proof (newCapacity_bounds (capacity a) min) as Hb.
  pose proof (block_le (newCapacity (capacity a) min)) as Hblock.
  cbn in Hroom. rewrite length_resize in Hroom.
  destruct (grown_sound min a
              (N.to_nat (byte_count (newCapacity (capacity a) min)
                         / N.pos sizeof)) Hsound Hmin) as [Hsound1 Hslot];
    [lia|lia|].
  split_and!; [done|done|cbn; lia| |].
  - right. cbn. by rewrite length_resize.
  - intros i Hi. apply Hslot. cbn in Hi. by rewrite length_resize in Hi.
Qed.

Lemma ensureCapacity_length (min : N) a a1 :
  ensureCapacity min a = Return tt a1 → length a1 = length a.
Proof. by intros [[_ ->]|(_ & _ & ->)]%ensureCapacity_inv. Qed.
(** *** What a member function that returned did, on sound arrays *)

Lemma load_slot (i : N) a v a' :
  load i a = Return v a' → a' = a ∧ slot a i = Some v.
Proof.
  rewrite load_eq, slot_eq. destruct (elements a) as [buf|]; [|done].
  by destruct (buf !! N.to_nat i) as [[w|]|]; intros; simplify_eq.
Qed.

Lemma get_inv (index : N) a v a' :
  get index a = Return v a' →
  a' = a ∧ (index < length a)%N ∧ slot a index = Some v.
Proof.
  unfold get. destruct (N.leb_spec (length a) index); [done|].
  intros [-> ?]%load_slot. done.
Qed.

Lemma resize_inv (newSize : N) a a' :
  sound a → resize newSize a = Return tt a' →
  sound a' ∧ length a' = newSize ∧ regrown newSize a a'
  ∧ ∀ i, (N.to_nat i < room a')%nat →
         slot a' i = if decide (length a ≤ i < newSize)%N then Some zero
                     else slot a i.
Proof.
  intros Hsound. unfold resize, bind, modify.
  destruct (ensureCapacity newSize a) as [[] a1|e a1|] eqn:E; [|done..].
  rewrite (ensureCapacity_length _ _ _ E).
  destruct (N.ltb_spec (length a) newSize) as [Hlt|Hge].
  - destruct (std_fill_n _ _ zero a1) as [[] a2|e a2|] eqn:Hfill; [|done..].
    intros [= <-].
    pose proof (std_fill_n_room _ _ _ _ _ Hfill ltac:(lia)) as Hroom.
    destruct (ensureCapacity_sound _ _ _ Hsound E)
      as (Hs1 & Hlen1 & Hcap1 & Hgrown & Hslot1); [lia|].
    destruct (std_fill_n_sound _ _ _ _ _ Hs1 Hfill)
      as (Hs2 & Hlen2 & Hcap2 & Hroom2 & _ & Hslot2).
    split_and!.
    + apply set_length_sound; [done|lia|]. intros i Hi.
      by rewrite Hslot2, decide_True by lia.
    + done.
    + by eapply regrown_same.
    + intros i Hi. rewrite room_set_length in Hi.
      rewrite slot_set_length, Hslot2.
      repeat case_decide; try (done || lia). apply Hslot1. lia.
  - intros [= <-]. pose proof Hsound as [(Hlc & _) _ _].
    rewrite ensureCapacity_enough in E by lia. injection E as <-.
    split_and!.
    + apply set_length_sound; [done|lia|]. intros i Hi. lia.
    + done.
    + by left.
    + intros i Hi. rewrite slot_set_length. by rewrite decide_False by lia.
Qed.

Lemma set_inv_wrap (index : N) (value : T) a a' :
  sound a → set index value a = Return tt a' →
  sound a' ∧ (N.to_nat index < room a')%nat
  ∧ regrown (size_t_wrap (index + 1)) a a'
  ∧ length a' = (if decide (length a ≤ index)%N
                 then size_t_wrap (index + 1) else length a)
  ∧ ∀ i, (N.to_nat i < room a')%nat →
         slot a' i =
         if decide (i = index) then Some value
         else if decide (length a ≤ i < size_t_wrap (index + 1))%N
              then Some zero
              else slot a i.
Proof.
  intros Hsound. unfold set, bind.
  destruct (N.leb_spec (length a) index) as [Hle|Hlt].
  - destruct (resize _ a) as [[] a1|e a1|] eqn:Hresize; [|done..].
    intros Hstore.
    destruct (resize_inv _ _ _ Hsound Hresize) as (Hs1 & Hlen1 & Hgrown & Hslot1).
    destruct (store_sound _ _ _ _ Hs1 Hstore)
      as (Hs' & Hlen' & Hcap' & Hroom' & Hin & Hslot').
    split_and!; [done|lia|by eapply regrown_same| |].
    + rewrite decide_True by done. congruence.
    + intros i Hi. rewrite Hslot'. case_decide; [done|].
      apply Hslot1. lia.
  - intros Hstore.
    destruct (store_sound _ _ _ _ Hsound Hstore)
      as (Hs' & Hlen' & Hcap' & Hroom' & Hin & Hslot').
    pose proof (size_t_wrap_le (index + 1)).
    split_and!; [done|lia|by left|by rewrite decide_False by lia|].
    intros i Hi. rewrite Hslot'.
    repeat case_decide; done || lia.
Qed.

Lemma sound_small a :
  (32 ≤ size_bits)%N → sound a → ∀ n : N,
  (N.to_nat n ≤ room a)%nat → size_t_wrap n = n.
Proof.
  intros Hbits [_ Hcap Hsto] n Hn. apply size_t_wrap_small; [done|].
  unfold INT32_MAX in *. lia.
Qed.

Lemma set_inv (index : N) (value : T) a a' :
  (32 ≤ size_bits)%N → sound a → set index value a = Return tt a' →
  sound a' ∧ length a' = N.max (length a) (index + 1)
  ∧ regrown (index + 1) a a'
  ∧ ∀ i, (N.to_nat i < room a')%nat →
         slot a' i =
         if decide (i = index) then Some value
         else if decide (length a ≤ i < index)%N then Some zero
         else slot a i.
Proof.
  intros Hbits Hsound Hrun.
  destruct (set_inv_wrap _ _ _ _ Hsound Hrun)
    as (Hs' & Hin & Hgrown & Hlen & Hslot).
  rewrite (sound_small a' Hbits Hs' (index + 1)) in * by lia.
  split_and!; [done| |done|].
  - rewrite Hlen. case_decide; lia.
  - intros i Hi. rewrite Hslot by done.
    repeat case_decide; done || lia.
Qed.


Lemma push_inv_wrap (elems : list T) (numElements n : N) a a' :
  sound a → push elems numElements a = Return n a' →
  n = size_t_wrap (length a + numElements)
  ∧ sound a' ∧ length a' = n
  ∧ (N.to_nat numElements ≤ List.length elems)%nat
  ∧ (N.to_nat (length a + numElements) ≤ room a')%nat
  ∧ regrown n a a'
  ∧ ∀ i, (N.to_nat i < room a')%nat →
         slot a' i =
         if decide (length a ≤ i < length a + numElements)%N
         then elems !! N.to_nat (i - length a)
         else slot a i.
Proof.
  intros Hsound. unfold push, bind, modify, ret.
  pose proof (size_t_wrap_le (length a + numElements)) as Hwrap.
  pose proof (sound_room a Hsound) as Hin.
  pose proof Hsound as [(Hlc & _) _ _].
  destruct (ensureCapacity _ a) as [[] a1|e a1|] eqn:E; [|done..].
  destruct (std_copy_from elems _ (length a) a1) as [[] a2|e a2|] eqn:Hcopy;
    [|done..].
  intros [= <- <-].
  assert ((0 < numElements)%N →
          (N.to_nat (length a) + N.to_nat numElements ≤ room a1)%nat) as Hroom.
  { intros Hpos. apply (std_copy_from_room _ _ _ _ _ Hcopy). lia. }
  destruct (ensureCapacity_sound _ _ _ Hsound E)
    as (Hs1 & Hlen1 & Hcap1 & Hgrown & Hslot1).
  { intros Hgrow. destruct (decide (numElements = 0%N)) as [->|];
      [rewrite N.add_0_r in *; lia|]. specialize (Hroom ltac:(lia)). lia. }
  destruct (std_copy_from_sound _ _ _ _ _ Hs1 Hcopy)
    as (Hs2 & Hlen2 & Hcap2 & Hroom2 & Hsrc & _ & Hslot2).
  split_and!; [done| |done|lia| |by eapply regrown_same|].
  - apply set_length_sound; [done|lia|]. intros i Hi.
    rewrite Hslot2, decide_True by lia. apply lookup_lt_is_Some. lia.
  - rewrite room_set_length, Hroom2.
    destruct (decide (numElements = 0%N)) as [->|]; [|lia].
    rewrite N.add_0_r in *.
    destruct (regrown_enough _ _ _ Hgrown) as [_ ->]; lia.
  - intros i Hi. rewrite room_set_length, Hroom2 in Hi.
    rewrite slot_set_length, Hslot2.
    repeat case_decide; try lia; [done|by apply Hslot1].
Qed.

Lemma push_inv (elems : list T) (numElements n : N) a a' :
  (32 ≤ size_bits)%N → sound a →
  push elems numElements a = Return n a' →
  n = (length a + numElements)%N
  ∧ sound a' ∧ length a' = (length a + numElements)%N
  ∧ (N.to_nat numElements ≤ List.length elems)%nat
  ∧ regrown (length a + numElements) a a'
  ∧ ∀ i, (N.to_nat i < room a')%nat →
         slot a' i =
         if decide (length a ≤ i < length a + numElements)%N
         then elems !! N.to_nat (i - length a)
         else slot a i.
Proof.
  intros Hbits Hsound Hrun.
  destruct (push_inv_wrap _ _ _ _ _ Hsound Hrun)
    as (-> & Hs' & Hlen & Hsrc & Hin & Hgrown & Hslot).
  rewrite (sound_small a' Hbits Hs' (length a + numElements)) in * by lia.
  done.
Qed.

(** [unshift] moves the elements up by [numElements] and writes the new
    block in front of them. *)
Lemma unshift_inv_wrap (elems : list T) (numElements n : N) a a' :
  sound a → unshift elems numElements a = Return n a' →
  n = size_t_wrap (length a + numElements)
  ∧ sound a' ∧ length a' = n
  ∧ (N.to_nat numElements ≤ List.length elems)%nat
  ∧ (N.to_nat (length a + numElements) ≤ room a')%nat
  ∧ regrown n a a'
  ∧ ∀ i, (N.to_nat i < room a')%nat →
         slot a' i =
         if decide (i < numElements)%N then elems !! N.to_nat i
         else if decide (i < numElements + length a)%N
              then slot a (i - numElements)
              else slot a i.
Proof.
  intros Hsound. unfold unshift, bind, modify, ret.
  pose proof (size_t_wrap_le (length a + numElements)) as Hwrap.
  pose proof (sound_room a Hsound) as Hin.
  pose proof Hsound as [(Hlc & _ & Hinit) _ _].
  destruct (ensureCapacity _ a) as [[] a1|e a1|] eqn:E; [|done..].
  destruct (std_copy 0 _ numElements a1) as [[] a2|e a2|] eqn:Hmove;
    [|done..].
  destruct (std_copy_from elems _ 0 a2) as [[] a3|e a3|] eqn:Hcopy;
    [|done..].
  intros [= <- <-].
  assert ((0 < length a)%N →
          (N.to_nat numElements + N.to_nat (length a) ≤ room a1)%nat) as Hroom.
  { intros Hpos. apply (std_copy_room _ _ _ _ _ Hmove). lia. }
  destruct (ensureCapacity_sound _ _ _ Hsound E)
    as (Hs1 & Hlen1 & Hcap1 & Hgrown & Hslot1).
  { intros Hgrow. destruct (decide (length a = 0%N)) as [->|]; [lia|].
    specialize (Hroom ltac:(lia)). lia. }
  destruct (std_copy_sound _ _ _ _ _ Hs1 Hmove)
    as (Hs2 & Hlen2 & Hcap2 & Hroom2 & _ & Hslot2).
  destruct (std_copy_from_sound _ _ _ _ _ Hs2 Hcopy)
    as (Hs3 & Hlen3 & Hcap3 & Hroom3 & Hsrc & Hdst & Hslot3).
  pose proof (sound_room a1 Hs1) as Hin1.
  assert (∀ i, (numElements ≤ i < numElements + length a)%N →
               slot a2 i = slot a (i - numElements)) as Hmoved.
  { intros i Hi. rewrite Hslot2, decide_True by lia.
    replace (0 + (i - numElements))%N with (i - numElements)%N by lia.
    apply Hslot1. lia. }
  split_and!; [done| |done|lia| |by eapply regrown_same; [done|cbn; congruence|cbn; unfold room in *; cbn; congruence]|].
  - apply set_length_sound; [done|lia|]. intros i Hi.
    rewrite Hslot3. case_decide.
    + apply lookup_lt_is_Some. lia.
    + rewrite Hmoved by lia. apply Hinit. lia.
  - rewrite room_set_length, Hroom3, Hroom2.
    destruct (decide (length a = 0%N)) as [Hzero|]; [|lia].
    destruct (decide (numElements = 0%N)) as [->|]; [lia|].
    specialize (Hdst ltac:(lia)). lia.
  - intros i Hi. rewrite room_set_length, Hroom3, Hroom2 in Hi.
    rewrite slot_set_length, Hslot3.
    replace (i - 0)%N with i by lia.
    destruct (decide (i < numElements)%N); [by rewrite decide_True by lia|].
    rewrite decide_False by lia.
    destruct (decide (i < numElements + length a)%N); [apply Hmoved; lia|].
    rewrite Hslot2, decide_False by lia. by apply Hslot1.
Qed.

Lemma unshift_inv (elems : list T) (numElements n : N) a a' :
  (32 ≤ size_bits)%N → sound a →
  unshift elems numElements a = Return n a' →
  n = (length a + numElements)%N
  ∧ sound a' ∧ length a' = (length a + numElements)%N
  ∧ (N.to_nat numElements ≤ List.length elems)%nat
  ∧ regrown (length a + numElements) a a'
  ∧ ∀ i, (N.to_nat i < room a')%nat →
         slot a' i =
         if decide (i < numElements)%N then elems !! N.to_nat i
         else if decide (i < numElements + length a)%N
              then slot a (i - numElements)
              else slot a i.
Proof.
  intros Hbits Hsound Hrun.
  destruct (unshift_inv_wrap _ _ _ _ _ Hsound Hrun)
    as (-> & Hs' & Hlen & Hsrc & Hin & Hgrown & Hslot).
  rewrite (sound_small a' Hbits Hs' (length a + numElements)) in * by lia.
  done.
Qed.

Lemma pop_inv a v a' :
  pop a = Return v a' →
  (0 < length a)%N ∧ a' = set_length (length a - 1) a
  ∧ slot a (length a - 1) = Some v.
Proof.
  unfold pop, bind, modify.
  destruct (N.eqb_spec (length a) 0); [done|].
  intros [-> Hslot]%load_slot. rewrite slot_set_length in Hslot.
  split_and!; [lia|done|done].
Qed.

Lemma shift_inv a v a' :
  sound a → shift a = Return v a' →
  (0 < length a)%N ∧ slot a 0 = Some v
  ∧ sound a' ∧ length a' = (length a - 1)%N
  ∧ capacity a' = capacity a ∧ room a' = room a
  ∧ ∀ i, slot a' i = if decide (i < length a - 1)%N then slot a (i + 1)
                     else slot a i.
Proof.
  intros Hsound. unfold shift, bind, modify, ret.
  destruct (N.eqb_spec (length a) 0); [done|].
  destruct (load 0 a) as [w a1|e a1|] eqn:Hload; [|done..].
  apply load_slot in Hload as [-> Hfirst].
  destruct (std_copy 1 _ 0 a) as [[] a2|e a2|] eqn:Hmove; [|done..].
  intros [= <- <-]. pose proof Hsound as [(Hlc & _ & Hinit) _ _].
  destruct (std_copy_sound _ _ _ _ _ Hsound Hmove)
    as (Hs2 & Hlen2 & Hcap2 & Hroom2 & _ & Hslot2).
  split_and!; [lia|done| |done|done|done|].
  - apply set_length_sound; [done|lia|]. intros i Hi. cbn in Hi. lia.
  - intros i. rewrite slot_set_length, Hslot2.
    repeat case_decide; try lia; [|done]. f_equal. lia.
Qed.

(** *** A member function that throws leaves the array as it was *)


Lemma forget_throw {A} (o : outcome T A) e a' :
  forget o = Throw e a' → o = Throw e a'.
Proof. destruct o; naive_solver. Qed.

Lemma forget_return {A} (o : outcome T A) a' :
  forget o = Return tt a' → ∃ r : A, o = Return r a'.
Proof. destruct o; naive_solver. Qed.


(** *** Every member function maintains soundness and the capacity *)




(** *** In range, every member function returns or throws *)

Lemma std_copy_returns (n : nat) (first dest : N) a :
  wf a → (first + N.of_nat n ≤ length a)%N →
  (dest + N.of_nat n ≤ capacity a)%N →
  ∃ a', std_copy first n dest a = Return tt a'.
Proof.
  intros Hwf Hsrc Hdst. destruct n as [|n]; [by eexists|].
  pose proof Hwf as [(Hlc & _ & Hinit) _ _].
  destruct (wf_elements a Hwf) as (buf & Hbuf & Hlen); [lia|].
  erewrite std_copy_ok; [by eexists|done|lia|lia|].
  intros j Hj. specialize (Hinit (N.of_nat j)).
  rewrite slot_eq, Hbuf, Nat2N.id in Hinit. apply Hinit. lia.
Qed.

Lemma run_defined (op : operation T) a :
  wf a → in_range op a → run op a ≠ Undefined.
Proof.
  intros Hwf [Hrange Hfit]. pose proof Hwf as [(Hlc & _) _ _].
  destruct op as [index|index value|value start end_|value start
                 |elems numElements|elems numElements| | | |newSize];
    cbn [run in_bounds required] in *.
  - unfold get. destruct (N.leb_spec (length a) index); [done|].
    by destruct (load_wf index a Hwf) as (v & _ & ->).
  - unfold set, bind. destruct (N.leb_spec (length a) index).
    + rewrite size_t_wrap_id by done.
      destruct (ensureCapacity (index + 1) a) as [[] a1|e a1|] eqn:E.
      * destruct (ensureCapacity_wf _ _ _ Hwf Hfit E) as (_ & Hcap1 & _).
        destruct (resize_returns _ _ _ Hwf Hfit E)
          as (a2 & -> & Hwf2 & _ & Hcap2 & _).
        by destruct (store_in_range index value a2 Hwf2) as [a' ->]; [lia|].
      * by rewrite (resize_throws _ _ _ _ E).
      * by destruct (ensureCapacity_defined _ _ Hfit).
    + by destruct (store_in_range index value a Hwf) as [a' ->]; [lia|].
  - unfold fill.
    destruct (N.leb_spec (length a) (resolve_index (length a) start)); [done|].
    destruct (N.ltb_spec (length a) (resolve_index (length a) end_)); [done|].
    destruct (N.ltb_spec (resolve_index (length a) end_)
                (resolve_index (length a) start)); [done|].
    by destruct (std_fill_n_returns (resolve_index (length a) start)
         (N.to_nat (resolve_index (length a) end_
                    - resolve_index (length a) start)) value a Hwf)
      as [a' ->]; [lia|].
  - unfold fill_from, fill. generalize (int32_of_Z (Z.of_N (length a))) as end_.
    intros end_.
    destruct (N.leb_spec (length a) (resolve_index (length a) start)); [done|].
    destruct (N.ltb_spec (length a) (resolve_index (length a) end_)); [done|].
    destruct (N.ltb_spec (resolve_index (length a) end_)
                (resolve_index (length a) start)); [done|].
    by destruct (std_fill_n_returns (resolve_index (length a) start)
         (N.to_nat (resolve_index (length a) end_
                    - resolve_index (length a) start)) value a Hwf)
      as [a' ->]; [lia|].
  - destruct Hrange as [Hsrc Hlen]. unfold push, bind, modify, ret.
    rewrite size_t_wrap_id by done.
    destruct (ensureCapacity _ a) as [[] a1|e a1|] eqn:E; cbn; [|done|].
    + destruct (ensureCapacity_wf _ _ _ Hwf Hfit E) as (Hwf1 & Hcap1 & _).
      by destruct (std_copy_from_returns elems (N.to_nat numElements)
                     (length a) a1 Hwf1) as [a2 ->]; [done|lia|].
    + by destruct (ensureCapacity_defined _ _ Hfit).
  - destruct Hrange as [Hsrc Hlen]. unfold unshift, bind, modify, ret.
    rewrite size_t_wrap_id by done.
    destruct (ensureCapacity _ a) as [[] a1|e a1|] eqn:E; cbn; [|done|].
    + destruct (ensureCapacity_wf _ _ _ Hwf Hfit E) as (Hwf1 & Hcap1 & Hlen1 & _).
      destruct (std_copy_returns (N.to_nat (length a)) 0 numElements a1 Hwf1)
        as [a2 Hmove]; [lia|lia|].
      rewrite Hmove.
      destruct (std_copy_wf _ _ _ _ _ Hwf1 Hmove) as (Hwf2 & _ & Hcap2 & _).
      by destruct (std_copy_from_returns elems (N.to_nat numElements) 0 a2 Hwf2)
        as [a3 ->]; [done|lia|].
    + by destruct (ensureCapacity_defined _ _ Hfit).
  - destruct (N.eq_dec (length a) 0%N) as [Hlen|Hlen].
    + by rewrite pop_empty.
    + by destruct (pop_returns a Hwf) as (v & _ & ->); [lia|].
  - destruct (N.eq_dec (length a) 0%N) as [Hlen|Hlen].
    + by rewrite shift_empty.
    + by destruct (shift_returns a Hwf) as (v & a' & _ & -> & _); [lia|].
  - done.
  - destruct (ensureCapacity newSize a) as [[] a1|e a1|] eqn:E.
    + by destruct (resize_returns _ _ _ Hwf Hfit E) as (a2 & -> & _).
    + by rewrite (resize_throws _ _ _ _ E).
    + by destruct (ensureCapacity_defined _ _ Hfit).
Qed.
(** *** The operations that ask for capacity *)

Lemma regrown_grew (min : N) a a' :
  regrown min a a' → (capacity a < min)%N → (min ≤ capacity a')%N →
  capacity a' = newCapacity (capacity a) min
  ∧ room a' = N.to_nat (byte_count (newCapacity (capacity a) min)
                        / N.pos sizeof).
Proof. intros [[? _]|(_ & ? & ?)] ? ?; [lia|done]. Qed.

(** An operation that asked for more than the capacity and returned
    has the length it asked for, the capacity of the growth policy and
    the block [std::realloc] handed out. *)
Lemma run_grows (op : operation T) a a' :
  sound a → in_bounds op a → (capacity a < required op a)%N →
  run op a = Return tt a' →
  sound a' ∧ length a' = required op a
  ∧ capacity a' = newCapacity (capacity a) (required op a)
  ∧ room a' = N.to_nat (byte_count (newCapacity (capacity a) (required op a))
                        / N.pos sizeof).
Proof.
  intros Hsound Hin Hlt Hrun.
  assert (∀ min, sound a' → length a' = min → regrown min a a' →
                 (capacity a < min)%N →
                 sound a' ∧ length a' = min
                 ∧ capacity a' = newCapacity (capacity a) min
                 ∧ room a' = N.to_nat (byte_count (newCapacity (capacity a) min)
                                       / N.pos sizeof)) as Hgrew.
  { intros min Hs' Hlen Hgrown Hmin. split; [done|]. split; [done|].
    apply regrown_grew; [done..|]. destruct Hs' as [(? & _) _ _]. lia. }
  destruct op as [index|index value|value start end_|value start
                 |elems numElements|elems numElements| | | |newSize];
    cbn [run in_bounds required] in *; try lia;
    try apply forget_return in Hrun as [v Hrun].
  - destruct (N.leb_spec (length a) index); [|lia].
    destruct (set_inv_wrap _ _ _ _ Hsound Hrun) as (? & _ & Hgrown & Hlen & _).
    rewrite decide_True in Hlen by done.
    rewrite size_t_wrap_id in Hgrown, Hlen by done. by apply Hgrew.
  - destruct Hin as [_ Hin].
    destruct (push_inv_wrap _ _ _ _ _ Hsound Hrun)
      as (-> & ? & Hlen & _ & _ & Hgrown & _).
    rewrite size_t_wrap_id in Hgrown, Hlen by done. by apply Hgrew.
  - destruct Hin as [_ Hin].
    destruct (unshift_inv_wrap _ _ _ _ _ Hsound Hrun)
      as (-> & ? & Hlen & _ & _ & Hgrown & _).
    rewrite size_t_wrap_id in Hgrown, Hlen by done. by apply Hgrew.
  - destruct (resize_inv _ _ _ Hsound Hrun) as (? & ? & ? & _). by apply Hgrew.
Qed.

(** An operation that asks for more than the capacity throws what
    [ensureCapacity] throws, and only that. *)
Lemma run_throws (op : operation T) a e :
  in_bounds op a → (capacity a < required op a)%N →
  ensureCapacity (required op a) a = Throw e a → run op a = Throw e a.
Proof.
  intros Hin Hlt E.
  destruct op as [index|index value|value start end_|value start
                 |elems numElements|elems numElements| | | |newSize];
    cbn [run in_bounds required] in *; try lia.
  - unfold set, bind. destruct (N.leb_spec (length a) index); [|lia].
    rewrite size_t_wrap_id by done. by rewrite (resize_throws _ _ _ _ E).
  - destruct Hin as [_ Hin]. unfold push, bind.
    rewrite size_t_wrap_id by done. by rewrite E.
  - destruct Hin as [_ Hin]. unfold unshift, bind.
    rewrite size_t_wrap_id by done. by rewrite E.
  - by apply resize_throws.
Qed.

Lemma run_throw_ensure (op : operation T) a e a' :
  in_bounds op a → (capacity a < required op a)%N →
  run op a = Throw e a' → ensureCapacity (required op a) a = Throw e a.
Proof.
  intros Hin Hlt Hrun.
  destruct op as [index|index value|value start end_|value start
                 |elems numElements|elems numElements| | | |newSize];
    cbn [run in_bounds required] in *; try lia;
    try apply forget_throw in Hrun.
  - revert Hrun. unfold set, resize, bind, modify.
    destruct (N.leb_spec (length a) index); [|lia].
    rewrite size_t_wrap_id by done.
    destruct (ensureCapacity _ a) as [[] a1|e1 a1|] eqn:E; [| |done].
    + destruct (N.ltb_spec (length a1) (index + 1)).
      * destruct (std_fill_n _ _ _ a1) as [[] a2|e2 a2|] eqn:Hfill; [| |done].
        -- intros Hstore. by destruct (store_no_throw _ _ _ _ _ Hstore).
        -- by destruct (std_fill_n_no_throw _ _ _ _ _ _ Hfill).
      * intros Hstore. by destruct (store_no_throw _ _ _ _ _ Hstore).
    + intros [= -> ->]. by apply ensureCapacity_throw in E as [-> _].
  - destruct Hin as [_ Hin]. revert Hrun. unfold push, bind, modify, ret.
    rewrite size_t_wrap_id by done.
    destruct (ensureCapacity _ a) as [[] a1|e1 a1|] eqn:E; [| |done].
    + destruct (std_copy_from _ _ _ a1) as [[] a2|e2 a2|] eqn:Hcopy; [done| |done].
      by destruct (std_copy_from_no_throw _ _ _ _ _ _ Hcopy).
    + intros [= -> ->]. by apply ensureCapacity_throw in E as [-> _].
  - destruct Hin as [_ Hin]. revert Hrun. unfold unshift, bind, modify, ret.
    rewrite size_t_wrap_id by done.
    destruct (ensureCapacity _ a) as [[] a1|e1 a1|] eqn:E; [| |done].
    + destruct (std_copy _ _ _ a1) as [[] a2|e2 a2|] eqn:Hmove; [| |done].
      * destruct (std_copy_from _ _ _ a2) as [[] a3|e3 a3|] eqn:Hcopy;
          [done| |done].
        by destruct (std_copy_from_no_throw _ _ _ _ _ _ Hcopy).
      * by destruct (std_copy_no_throw _ _ _ _ _ _ Hmove).
    + intros [= -> ->]. by apply ensureCapacity_throw in E as [-> _].
  - revert Hrun. unfold resize, bind, modify.
    destruct (ensureCapacity _ a) as [[] a1|e1 a1|] eqn:E; [| |done].
    + destruct (N.ltb_spec (length a1) newSize); [|done].
      destruct (std_fill_n _ _ _ a1) as [[] a2|e2 a2|] eqn:Hfill; [done| |done].
      by destruct (std_fill_n_no_throw _ _ _ _ _ _ Hfill).
    + intros [= -> ->]. by apply ensureCapacity_throw in E as [-> _].
Qed.

(** An operation in range that asks for more than the capacity returns
    as soon as [ensureCapacity] does. *)
Lemma run_granted (op : operation T) a a1 :
  wf a → in_range op a → (capacity a < required op a)%N →
  ensureCapacity (required op a) a = Return tt a1 →
  ∃ a', run op a = Return tt a'.
Proof.
  intros Hwf Hrange Hlt E. pose proof (run_defined op a Hwf Hrange) as Hdef.
  destruct (run op a) as [[] a'|e a'|] eqn:Hrun; [by exists a'| |done].
  apply run_throw_ensure in Hrun; [congruence|apply Hrange|done].
Qed.
(** *** [push] and [unshift] with the storage granted *)

Lemma push_granted (elems : list T) (numElements : N) a :
  (32 ≤ size_bits)%N → wf a →
  (length a + numElements ≤ INT32_MAX)%N →
  (N.to_nat numElements ≤ List.length elems)%nat →
  granted a (length a + numElements) →
  ∃ a', push elems numElements a = Return (length a + numElements)%N a'
        ∧ wf a' ∧ length a' = (length a + numElements)%N
        ∧ (capacity a ≤ capacity a')%N
        ∧ ∀ i, slot a' i =
               if decide (length a ≤ i < length a + numElements)%N
               then elems !! N.to_nat (i - length a)
               else slot a i.
Proof.
  intros Hbits Hwf Hmax Hsrc Hok.
  pose proof (granted_fits _ _ Hok) as Hfit.
  destruct (ensureCapacity_granted (length a + numElements) a) as [a1 E];
    [done..|].
  destruct (ensureCapacity_wf _ _ _ Hwf Hfit E) as (_ & _ & _ & Hmono & _).
  destruct (push_returns elems numElements a a1 Hbits Hwf Hmax Hsrc Hfit E)
    as (a' & ? & ? & ? & Hcap & ?).
  exists a'. split_and!; [done..|lia|done].
Qed.

Lemma unshift_granted (elems : list T) (numElements : N) a :
  (32 ≤ size_bits)%N → wf a →
  (length a + numElements ≤ INT32_MAX)%N →
  (N.to_nat numElements ≤ List.length elems)%nat →
  granted a (length a + numElements) →
  ∃ a', unshift elems numElements a = Return (length a + numElements)%N a'
        ∧ wf a' ∧ length a' = (length a + numElements)%N
        ∧ (capacity a ≤ capacity a')%N
        ∧ ∀ i, (i < length a + numElements)%N →
               slot a' i =
               if decide (i < numElements)%N then elems !! N.to_nat i
               else slot a (i - numElements).
Proof.
  intros Hbits Hwf Hmax Hsrc Hok.
  pose proof (granted_fits _ _ Hok) as Hfit.
  pose proof Hwf as [(Hlc & _) _ _].
  destruct (ensureCapacity_granted (length a + numElements) a) as [a1 E];
    [done..|].
  destruct (ensureCapacity_wf _ _ _ Hwf Hfit E) as (Hwf1 & Hcap1 & Hlen1 & _).
  destruct (std_copy_returns (N.to_nat (length a)) 0 numElements a1 Hwf1)
    as [a2 Hmove]; [lia|lia|].
  destruct (std_copy_wf _ _ _ _ _ Hwf1 Hmove) as (Hwf2 & _ & Hcap2 & _).
  destruct (std_copy_from_returns elems (N.to_nat numElements) 0 a2 Hwf2)
    as [a3 Hcopy]; [done|lia|].
  assert (∃ n a', unshift elems numElements a = Return n a') as (n & a' & Hrun).
  { unfold unshift, bind, modify, ret.
    rewrite size_t_wrap_small by (done || (unfold INT32_MAX in *; lia)).
    rewrite E, Hmove, Hcopy. by eexists _, _. }
  destruct (unshift_inv _ _ _ _ _ Hbits (wf_sound _ Hwf) Hrun)
    as (-> & Hs' & Hlen' & _ & Hgrown & Hslot).
  exists a'. split_and!; [done| |done|by eapply regrown_le|].
  - exact (regrown_wf _ a a' Hwf Hs' Hgrown Hfit).
  - intros i Hi. pose proof (sound_room a' Hs'). rewrite Hslot by lia.
    repeat case_decide; done || lia.
Qed.

(** *** The specification of the runtime array *)

(** C2, as amended.  For every well-formed array and every [index] with
    [length ≤ index < INT32_MAX], when the storage need not grow or the
    storage for [index + 1] elements is granted (the byte count of the
    new capacity does not wrap in [size_t] and [std::realloc] hands out
    the block), [set index value] returns, leaves the length at
    [index + 1], the slots from the old length up to [index] at the zero
    element, the slot [index] at [value], the slots below the old length
    as they were, and a capacity that holds [index + 1] elements. *)
Theorem set_beyond_length (index : N) (value : T) a :
  (32 ≤ size_bits)%N → wf a →
  (length a ≤ index)%N → (index < INT32_MAX)%N →
  granted a (index + 1) →
  ∃ a', set index value a = Return tt a'
        ∧ length a' = (index + 1)%N
        ∧ (∀ i, (length a ≤ i < index)%N → slot a' i = Some zero)
        ∧ slot a' index = Some value
        ∧ (∀ i, (i < length a)%N → slot a' i = slot a i)
        ∧ (index + 1 ≤ capacity a')%N.
Proof.
  intros Hbits Hwf Hlen Hmax Hok.
  destruct (set_returns index value a Hbits Hwf Hlen Hmax Hok)
    as (a' & ? & _ & ? & ? & ? & ? & ? & _).
  by exists a'.
Qed.

(** C3.  Whenever [set] beyond the length, [push], [unshift] or
    [resize] asks for more than the capacity (the successor of the
    index, respectively the new length, taken without wrap): when the
    operation returns, the array has the length asked for and its
    capacity is the larger of the minimum asked for and of twice the
    capacity (16 for no capacity), capped at [INT32_MAX]; a minimum above
    [INT32_MAX] fails CapacityExceeded; and when the byte count of the
    new capacity does not wrap, the operation does return if
    [std::realloc] hands out the block, and fails OutOfMemory, leaving
    the array as it was, if not.  The array [Array()] has capacity 0;
    pushing single elements on it gives capacity 16 from the first to the
    16th element and capacity 32 at the 17th. *)
Theorem growth_policy :
  (32 ≤ size_bits)%N →
  (∀ (op : operation T) a,
     wf a → in_bounds op a → (capacity a < required op a)%N →
     let grown :=
       N.min INT32_MAX
         (N.max (required op a)
            (if (capacity a =? 0)%N then 16 else capacity a * 2))%N in
     (∀ a', run op a = Return tt a' →
            capacity a' = grown ∧ length a' = required op a)
     ∧ ((INT32_MAX < required op a)%N →
        run op a = Throw CapacityExceeded a)
     ∧ ((required op a ≤ INT32_MAX)%N → fits grown →
        if realloc_ok (byte_count grown)
        then ∃ a', run op a = Return tt a'
                   ∧ capacity a' = grown ∧ length a' = required op a
        else run op a = Throw OutOfMemory a))
  ∧ (∀ elems : option (list T),
       new_Array 0 elems = Return tt blank ∧ capacity (blank (T:=T)) = 0%N)
  ∧ (∀ (xs : list T),
       fits 32 →
       realloc_ok (byte_count 16) = true →
       realloc_ok (byte_count 32) = true →
       (1 ≤ List.length xs ≤ 17)%nat →
       ∃ a', push_each xs blank = Return tt a'
             ∧ length a' = N.of_nat (List.length xs)
             ∧ capacity a' = if decide (List.length xs ≤ 16)%nat then 16%N
                             else 32%N).
Proof.
  intros Hbits. split; [|split].
  2: { by intros elems. }
  - intros op a Hwf Hin Hlt grown. pose proof Hwf as [_ Hcap _].
    assert (newCapacity (capacity a) (required op a) = grown) as Hnew
      by by apply newCapacity_policy.
    assert (∀ a', run op a = Return tt a' →
                  capacity a' = grown ∧ length a' = required op a) as Hret.
    { intros a' Hrun.
      destruct (run_grows _ _ _ (wf_sound _ Hwf) Hin Hlt Hrun)
        as (_ & ? & ? & _).
      split; congruence. }
    split_and!; [done| |].
    + intros Hmax. apply run_throws; [done..|].
      by apply ensureCapacity_exceeded.
    + intros Hmax Hfit. rewrite <- Hnew in Hfit.
      destruct (ensureCapacity_cases (required op a) a (λ _, Hfit))
        as [[? E]|[(_ & ? & E)|[(? & Hno & E)|(? & Hyes & E)]]]; [lia..| |].
      * rewrite <- Hnew, Hno. by apply run_throws.
      * rewrite <- Hnew, Hyes. rewrite Hnew.
        assert (in_range op a) as Hrange by (split; [done|by intros _]).
        destruct (run_granted op a _ Hwf Hrange Hlt E) as [a' Hrun].
        exists a'. split; [done|]. by apply Hret.
  - intros xs Hfit H16 H32 Hxs.
    assert (fits 16) as Hfit16 by (unfold fits in *; lia).
    set (f := λ l : N, if decide (l = 0)%N then 0%N
                       else if decide (l ≤ 16)%N then 16%N else 32%N).
    assert (∀ (ys : list T) a,
      wf a → capacity a = f (length a) →
      (N.to_nat (length a) + List.length ys ≤ 17)%nat →
      ∃ a', push_each ys a = Return tt a'
            ∧ length a' = (length a + N.of_nat (List.length ys))%N
            ∧ capacity a' = f (length a')) as Hchain.
    { induction ys as [|y ys IH]; intros a Hwf Hcap Hlen.
      { exists a. split_and!; [done|cbn; lia|done]. }
      cbn [push_each]. unfold bind at 1.
      assert ((capacity a < length a + 1)%N →
              newCapacity (capacity a) (length a + 1) = f (length a + 1)%N
              ∧ fits (f (length a + 1)%N)
              ∧ realloc_ok (byte_count (f (length a + 1)%N)) = true) as Hgrow.
      { intros Hlt. rewrite newCapacity_policy by (done || apply Hwf).
        rewrite Hcap in *. unfold f, INT32_MAX in *. cbn in Hlen.
        repeat case_decide; case_compare; try lia; split_and!; done. }
      assert ((capacity a < length a + 1 ≤ INT32_MAX)%N →
              fits (newCapacity (capacity a) (length a + 1))) as Hfits.
      { intros [Hlt _]. by destruct (Hgrow Hlt) as (-> & ? & _). }
      assert (∃ a1, ensureCapacity (length a + 1) a = Return tt a1
                    ∧ capacity a1 = f (length a + 1)%N) as (a1 & E & Hcap1).
      { destruct (ensureCapacity_cases (length a + 1) a Hfits)
          as [[? E]|[(_ & ? & E)|[([? ?] & Hno & E)|([? ?] & Hyes & E)]]].
        - exists a. split; [done|]. rewrite Hcap in *. unfold f in *.
          repeat case_decide; lia.
        - cbn in Hlen. unfold INT32_MAX in *. lia.
        - destruct Hgrow as (Hnew & _ & Hok); [done|]. congruence.
        - destruct Hgrow as (Hnew & _ & Hok); [done|]. eexists. by split. }
      destruct (push_returns [y] 1 a a1 Hbits Hwf)
        as (a2 & -> & Hwf2 & Hlen2 & Hcap2 & _);
        [cbn in Hlen; unfold INT32_MAX; lia|cbn; lia|done|done|].
      destruct (IH a2 Hwf2) as (a' & -> & Hlen' & Hcap');
        [congruence|cbn in Hlen; lia|].
      exists a'. split_and!; [done|cbn [List.length]; lia|done]. }
    destruct (Hchain xs blank wf_blank) as (a' & -> & Hlen' & Hcap');
      [done|cbn; lia|].
    exists a'. cbn in Hlen'. split_and!; [done|lia|].
    rewrite Hcap'. unfold f. repeat case_decide; lia.
Qed.

(** C4, as amended.  [fill value start end_] resolves a negative [start]
    or [end_] from the end of the array, in [size_t]: to [length + i]
    when that is not negative, and to an index above the length when it
    is.  It fails IndexOutOfRange if the resolved start is at or above the
    length or the resolved end above it, does nothing if the resolved end
    is below the resolved start, and otherwise sets the slots from the
    resolved start up to the resolved end, and no other. *)
Theorem fill_range (value : T) (start end_ : Z) a :
  (32 ≤ size_bits)%N → wf a →
  let startIndex := resolve_index (length a) start in
  let endIndex := resolve_index (length a) end_ in
  (∀ i, (- Z.of_N (length a) ≤ i < 0)%Z →
        Z.of_N (resolve_index (length a) i) = (Z.of_N (length a) + i)%Z)
  ∧ (∀ i, (0 ≤ i < 2 ^ 31)%Z → Z.of_N (resolve_index (length a) i) = i)
  ∧ (∀ i, (- 2 ^ 31 ≤ i < - Z.of_N (length a))%Z →
          (length a < resolve_index (length a) i)%N)
  ∧ ((length a ≤ startIndex ∨ length a < endIndex)%N →
     ∃ e, IndexOutOfRange e ∧ fill value start end_ a = Throw e a)
  ∧ ((startIndex < length a)%N → (endIndex ≤ length a)%N →
     (endIndex < startIndex)%N → fill value start end_ a = Return tt a)
  ∧ ((startIndex < length a)%N → (startIndex ≤ endIndex ≤ length a)%N →
     ∃ a', fill value start end_ a = Return tt a'
           ∧ length a' = length a ∧ capacity a' = capacity a
           ∧ ∀ i, slot a' i =
                  if decide (startIndex ≤ i < endIndex)%N then Some value
                  else slot a i).
Proof.
  intros Hbits Hwf startIndex endIndex.
  pose proof (wf_length_max a Hwf) as Hmax.
  split_and!.
  - intros i Hi. by apply resolve_index_from_end.
  - intros i Hi. by apply resolve_index_from_start.
  - intros i Hi. by apply resolve_index_below.
  - apply fill_throws.
  - apply fill_nothing.
  - intros Hs He.
    destruct (fill_returns value start end_ a Hwf Hs He)
      as (a' & ? & _ & ? & ? & ?).
    by exists a'.
Qed.

(** C6.  On an array of length 0, [pop] and [shift] fail EmptyArray and
    leave the array as it was.  On any other array [pop] returns the
    last element and takes one off the length, and [shift] returns the
    first element, takes one off the length and leaves every remaining
    element one slot to the left. *)
Theorem pop_shift a :
  wf a →
  (length a = 0%N →
   pop a = Throw EmptyArray a ∧ shift a = Throw EmptyArray a)
  ∧ ((0 < length a)%N →
     (∃ v, slot a (length a - 1) = Some v
           ∧ pop a = Return v (set_length (length a - 1) a))
     ∧ (∃ v a', slot a 0 = Some v ∧ shift a = Return v a'
                ∧ length a' = (length a - 1)%N
                ∧ capacity a' = capacity a
                ∧ ∀ i, (i < length a - 1)%N → slot a' i = slot a (i + 1))).
Proof.
  intros Hwf. split.
  - intros Hlen. split; [by apply pop_empty|by apply shift_empty].
  - intros Hlen. split; [by apply pop_returns|].
    destruct (shift_returns a Hwf Hlen) as (v & a' & ? & ? & _ & ? & ? & ?).
    by exists v, a'.
Qed.

(** C5, as amended.  Whenever [unshift elems numElements] returns on a
    sound array, the block held [numElements] elements, [unshift]
    returns the new length [length + numElements], the first
    [numElements] slots hold the elements of the block in their order,
    and the following [length] slots hold the previous elements in their
    order; whenever [push elems numElements] returns, the block held
    [numElements] elements, [push] returns the new length, the previous
    elements are where they were and the elements of the block follow
    them in their order.  On a well-formed array both do return when the
    block holds [numElements] elements, the new length does not pass
    [INT32_MAX] and, if the storage has to grow, the storage for the new
    length is granted.  A new length above [INT32_MAX] fails
    CapacityExceeded and leaves the array as it was. *)
Theorem unshift_prepends_push_appends
    (elems : list T) (numElements : N) a :
  (32 ≤ size_bits)%N → sound a →
  (∀ n a', unshift elems numElements a = Return n a' →
           n = (length a + numElements)%N
           ∧ length a' = (length a + numElements)%N
           ∧ (N.to_nat numElements ≤ List.length elems)%nat
           ∧ (∀ j, (j < numElements)%N → slot a' j = elems !! N.to_nat j)
           ∧ (∀ i, (i < length a)%N → slot a' (numElements + i) = slot a i))
  ∧ (∀ n a', push elems numElements a = Return n a' →
             n = (length a + numElements)%N
             ∧ length a' = (length a + numElements)%N
             ∧ (N.to_nat numElements ≤ List.length elems)%nat
             ∧ (∀ i, (i < length a)%N → slot a' i = slot a i)
             ∧ (∀ j, (j < numElements)%N →
                     slot a' (length a + j) = elems !! N.to_nat j))
  ∧ (wf a → (length a + numElements ≤ INT32_MAX)%N →
     (N.to_nat numElements ≤ List.length elems)%nat →
     granted a (length a + numElements) →
     (∃ a', unshift elems numElements a
            = Return (length a + numElements)%N a')
     ∧ (∃ a', push elems numElements a
              = Return (length a + numElements)%N a'))
  ∧ ((INT32_MAX < length a + numElements < 2 ^ size_bits)%N →
     unshift elems numElements a = Throw CapacityExceeded a
     ∧ push elems numElements a = Throw CapacityExceeded a).
Proof.
  intros Hbits Hsound. split_and!.
  - intros n a' Hrun.
    destruct (unshift_inv _ _ _ _ _ Hbits Hsound Hrun)
      as (-> & Hs' & Hlen' & Hsrc & _ & Hslot).
    pose proof (sound_room a' Hs') as Hroom.
    split_and!; [done|done|done|..].
    + intros j Hj. rewrite Hslot by lia. by rewrite decide_True by lia.
    + intros i Hi. rewrite Hslot by lia. rewrite decide_False by lia.
      rewrite decide_True by lia. f_equal. lia.
  - intros n a' Hrun.
    destruct (push_inv _ _ _ _ _ Hbits Hsound Hrun)
      as (-> & Hs' & Hlen' & Hsrc & _ & Hslot).
    pose proof (sound_room a' Hs') as Hroom.
    split_and!; [done|done|done|..].
    + intros i Hi. rewrite Hslot by lia. by rewrite decide_False by lia.
    + intros j Hj. rewrite Hslot by lia. rewrite decide_True by lia.
      do 2 f_equal. lia.
  - intros Hwf Hmax Hsrc Hok. split.
    + destruct (unshift_granted elems numElements a Hbits Hwf Hmax Hsrc Hok)
        as (a' & ? & _). by exists a'.
    + destruct (push_granted elems numElements a Hbits Hwf Hmax Hsrc Hok)
        as (a' & ? & _). by exists a'.
  - intros [Hmax Hwrap]. pose proof Hsound as [_ Hcap _].
    unfold unshift, push, bind. rewrite size_t_wrap_id by done.
    by rewrite ensureCapacity_exceeded by lia.
Qed.



(** *** Further properties of the runtime array *)

(** [push elems numElements] appends the block: when the block holds
    [numElements] elements, the new length does not pass [INT32_MAX]
    and, if the storage has to grow, the storage for the new length is
    granted (the byte count of the new capacity does not wrap and
    [std::realloc] hands out the block), [push] returns the new length,
    the old elements stay, and the new ones follow in their order. *)
Theorem push_appends (elems : list T) (numElements : N) a :
  (32 ≤ size_bits)%N → wf a →
  (length a + numElements ≤ INT32_MAX)%N →
  (N.to_nat numElements ≤ List.length elems)%nat →
  granted a (length a + numElements) →
  ∃ a', push elems numElements a = Return (length a + numElements)%N a'
        ∧ length a' = (length a + numElements)%N
        ∧ (∀ i, (i < length a)%N → slot a' i = slot a i)
        ∧ (∀ j, (j < numElements)%N →
                slot a' (length a + j) = elems !! N.to_nat j).
Proof.
  intros Hbits Hwf Hmax Hsrc Hok.
  destruct (push_granted elems numElements a Hbits Hwf Hmax Hsrc Hok)
    as (a' & Hpush & _ & Hlen & _ & Hslot).
  exists a'. split_and!; [done|done|..].
  - intros i Hi. rewrite Hslot. by rewrite decide_False by lia.
  - intros j Hj. rewrite Hslot, decide_True by lia. do 2 f_equal. lia.
Qed.

(** After [set index value] returned, [get index] returns [value] and
    leaves the array as it is. *)
Theorem get_after_set (index : N) (value : T) a a' :
  (32 ≤ size_bits)%N → wf a → set index value a = Return tt a' →
  get index a' = Return value a'.
Proof.
  intros Hbits Hwf Hset.
  destruct (set_inv _ _ _ _ Hbits (wf_sound _ Hwf) Hset)
    as (Hs' & Hlen & _ & Hslot).
  destruct (set_inv_wrap _ _ _ _ (wf_sound _ Hwf) Hset) as (_ & Hin & _).
  unfold get. destruct (N.leb_spec (length a') index); [lia|].
  destruct (load_sound index a' Hs') as (v & Hv & ->); [lia|].
  rewrite Hslot, decide_True in Hv by done. congruence.
Qed.

(** [get] throws IndexOutOfRange at and above the length, and returns
    the element below it. *)
Theorem get_in_and_out (index : N) a :
  wf a →
  ((length a ≤ index)%N →
   get index a = Throw (out_of_range "Index out of bound") a)
  ∧ ((index < length a)%N →
     ∃ v, slot a index = Some v ∧ get index a = Return v a).
Proof.
  intros Hwf. unfold get. split; intros Hi.
  - by destruct (N.leb_spec (length a) index); [|lia].
  - destruct (N.leb_spec (length a) index); [lia|]. by apply load_wf.
Qed.


(** *** [resize], [set] and [fill] at their edges *)

(** [resize newSize] beyond [INT32_MAX] fails CapacityExceeded, and
    OutOfMemory when the reallocation it needs is refused.  With the
    storage granted (no growth, or a byte count of the new capacity that
    does not wrap and a block from [std::realloc]) it returns with the
    length at [newSize]: the slots from the old length up to [newSize]
    hold the zero element, every other slot is as it was, and a
    [newSize] within the capacity leaves the capacity as it was, also
    when the array shrinks.  It never returns with a block that holds
    fewer than [newSize] elements, as a wrapped byte count can give. *)
Theorem resize_zero_fills (newSize : N) a :
  wf a →
  ((INT32_MAX < newSize)%N → resize newSize a = Throw CapacityExceeded a)
  ∧ ((capacity a < newSize ≤ INT32_MAX)%N →
     fits (newCapacity (capacity a) newSize) →
     realloc_ok (byte_count (newCapacity (capacity a) newSize)) = false →
     resize newSize a = Throw OutOfMemory a)
  ∧ ((newSize ≤ INT32_MAX)%N → granted a newSize →
     ∃ a', resize newSize a = Return tt a'
           ∧ length a' = newSize
           ∧ (newSize ≤ capacity a')%N
           ∧ ((newSize ≤ capacity a)%N → capacity a' = capacity a)
           ∧ ∀ i, slot a' i =
                  if decide (length a ≤ i < newSize)%N then Some zero
                  else slot a i)
  ∧ ((capacity a < newSize ≤ INT32_MAX)%N →
     (byte_count (newCapacity (capacity a) newSize) / N.pos sizeof
      < newSize)%N →
     ∀ a', resize newSize a ≠ Return tt a').
Proof.
  intros Hwf. pose proof Hwf as [(Hlc & _) Hcap _]. split_and!.
  - intros Hmax. apply resize_throws, ensureCapacity_exceeded; lia.
  - intros Hmin Hfit Hno.
    destruct (ensureCapacity_cases newSize a (λ _, Hfit))
      as [[? E]|[(? & ? & E)|[(? & _ & E)|(? & Hyes & E)]]]; try lia.
    + by apply resize_throws.
    + congruence.
  - intros Hmax Hok. pose proof (granted_fits _ _ Hok) as Hfit.
    destruct (ensureCapacity_granted newSize a Hmax Hok) as [a1 E].
    destruct (ensureCapacity_wf _ _ _ Hwf Hfit E) as (_ & Hcap1 & _).
    destruct (resize_returns _ _ _ Hwf Hfit E)
      as (a' & Hrun & _ & Hlen & Hcap' & Hslot).
    exists a'. split_and!; [done|done|lia| |done].
    intros Hle. rewrite ensureCapacity_enough in E by done.
    injection E as <-. done.
  - intros Hmin Hshort a' Hrun.
    destruct (resize_inv _ _ _ (wf_sound _ Hwf) Hrun)
      as (Hs' & Hlen' & Hgrown & _).
    pose proof (sound_room a' Hs') as Hroom.
    pose proof Hs' as [(? & _) _ _].
    destruct (regrown_grew _ _ _ Hgrown) as [_ Hblock]; [lia..|].
    lia.
Qed.

(** Shrinking forgets: after [resize n] and then [resize m] with
    [n ≤ m], the slots from [n] up to [m] hold the zero element, whatever
    they held before the array shrank; the elements below [n] are
    kept. *)
Theorem resize_shrink_then_grow (n m : N) a a1 a2 :
  wf a → (n ≤ m)%N →
  resize n a = Return tt a1 → resize m a1 = Return tt a2 →
  length a2 = m
  ∧ (∀ i, (n ≤ i < m)%N → slot a2 i = Some zero)
  ∧ (∀ i, (i < n)%N → (i < length a)%N → slot a2 i = slot a i).
Proof.
  intros Hwf Hnm Hrun1 Hrun2.
  destruct (resize_inv _ _ _ (wf_sound _ Hwf) Hrun1)
    as (Hs1 & Hlen1 & _ & Hslot1).
  destruct (resize_inv _ _ _ Hs1 Hrun2) as (Hs2 & Hlen2 & _ & Hslot2).
  pose proof (sound_room a1 Hs1). pose proof (sound_room a2 Hs2).
  split_and!; [done|..].
  - intros i Hi. by rewrite Hslot2, Hlen1, decide_True by lia.
  - intros i Hi Hlen. rewrite Hslot2, Hlen1, decide_False by lia.
    by rewrite Hslot1, decide_False by lia.
Qed.

(** [set] below the length writes the one slot and leaves the length,
    the capacity and every other slot as they were. *)
Theorem set_within_length (index : N) (value : T) a :
  wf a → (index < length a)%N →
  ∃ a', set index value a = Return tt a'
        ∧ length a' = length a ∧ capacity a' = capacity a
        ∧ ∀ i, slot a' i = if decide (i = index) then Some value else slot a i.
Proof.
  intros Hwf Hlt. pose proof Hwf as [(Hlc & _) _ _]. unfold set, bind.
  destruct (N.leb_spec (length a) index); [lia|].
  destruct (store_in_range index value a Hwf) as [a' Hstore]; [lia|].
  rewrite Hstore. exists a'.
  destruct (store_wf _ _ _ _ Hwf Hstore) as (_ & ? & ? & _ & ?). done.
Qed.

(** [set] at the largest index of [size_t] is outside the defined
    behaviour: the new length [index + 1] wraps to 0, so [resize] returns
    without growing the storage and with the length at 0, and the
    assignment then writes beyond the storage. *)
Theorem set_at_size_max (value : T) a :
  (32 ≤ size_bits)%N → wf a →
  resize (size_t_wrap (2 ^ size_bits - 1 + 1)) a = Return tt (set_length 0 a)
  ∧ set (2 ^ size_bits - 1) value a = Undefined.
Proof.
  intros Hbits Hwf. pose proof Hwf as [(Hlc & _) Hcap Hsto].
  assert (2 ^ 32 ≤ 2 ^ size_bits)%N as Hpow by by apply N.pow_le_mono_r.
  assert (size_t_wrap (2 ^ size_bits - 1 + 1) = 0%N) as Hwrap.
  { unfold size_t_wrap. replace (2 ^ size_bits - 1 + 1)%N with (2 ^ size_bits)%N by lia.
    apply N.Div0.mod_same. }
  assert (resize 0 a = Return tt (set_length 0 a)) as Hresize.
  { unfold resize, bind, modify. rewrite ensureCapacity_enough by lia.
    by destruct (N.ltb_spec (length a) 0); [lia|]. }
  rewrite Hwrap. split; [done|]. unfold set, bind.
  destruct (N.leb_spec (length a) (2 ^ size_bits - 1)); last first.
  { unfold INT32_MAX in *. lia. }
  rewrite Hwrap, Hresize, store_eq. cbn.
  destruct (elements a) as [buf|] eqn:Hbuf; [|done].
  rewrite decide_False; [done|]. rewrite (Hsto _ eq_refl).
  unfold INT32_MAX in *. lia.
Qed.

Lemma int32_of_length a :
  wf a → int32_of_Z (Z.of_N (length a)) = Z.of_N (length a).
Proof.
  intros Hwf%wf_length_max. unfold int32_of_Z, INT32_MAX in *.
  rewrite Z.mod_small; lia.
Qed.

(** [fill value start], the overload without an end, fills from the
    resolved start to the end of the array and leaves every slot before
    it; it fails when the resolved start is at or above the length, so it
    fails on every empty array. *)
Theorem fill_from_to_end (value : T) (start : Z) a :
  (32 ≤ size_bits)%N → wf a →
  ((length a ≤ resolve_index (length a) start)%N →
   fill_from value start a
   = Throw (out_of_range "Start index is out of range") a)
  ∧ (length a = 0%N →
     fill_from value start a
     = Throw (out_of_range "Start index is out of range") a)
  ∧ ((resolve_index (length a) start < length a)%N →
     ∃ a', fill_from value start a = Return tt a'
           ∧ length a' = length a ∧ capacity a' = capacity a
           ∧ ∀ i, slot a' i =
                  if decide (resolve_index (length a) start ≤ i < length a)%N
                  then Some value else slot a i).
Proof.
  intros Hbits Hwf. pose proof (wf_length_max a Hwf) as Hmax.
  assert (resolve_index (length a) (Z.of_N (length a)) = length a) as Hend.
  { apply N2Z.inj, resolve_index_from_start; [done|]. unfold INT32_MAX in *. lia. }
  assert ((length a ≤ resolve_index (length a) start)%N →
          fill_from value start a
          = Throw (out_of_range "Start index is out of range") a) as Hout.
  { intros Hle. unfold fill_from, fill.
    by destruct (N.leb_spec (length a) (resolve_index (length a) start)); [|lia]. }
  split_and!; [done|intros Hzero; apply Hout; lia|].
  intros Hlt. unfold fill_from. rewrite int32_of_length by done.
  destruct (fill_returns value start (Z.of_N (length a)) a Hwf)
    as (a' & Hrun & _ & ? & ? & Hslot); [done|rewrite Hend; lia|].
  exists a'. split_and!; [done..|]. intros i. by rewrite Hslot, Hend.
Qed.

(** *** [push], [pop] and [unshift] together *)

Lemma pop_returns_sound a :
  sound a → (0 < length a)%N →
  ∃ v, slot a (length a - 1) = Some v
       ∧ pop a = Return v (set_length (length a - 1) a).
Proof.
  intros Hsound Hlen. unfold pop, bind, modify.
  destruct (N.eqb_spec (length a) 0); [lia|].
  destruct (load_sound (length a - 1) a Hsound) as (v & Hv & Hload); [lia|].
  exists v. split; [done|]. rewrite load_eq in *. cbn.
  destruct (elements a) as [buf|]; [|done].
  by destruct (buf !! _) as [[w|]|]; simplify_eq.
Qed.

(** After [push] returned, [pop] returns the last element of the pushed
    block and leaves the elements the array held before the [push]. *)
Theorem pop_after_push (elems : list T) (numElements n : N) a a1 :
  (32 ≤ size_bits)%N → wf a → (0 < numElements)%N →
  push elems numElements a = Return n a1 →
  ∃ v a2, elems !! N.to_nat (numElements - 1) = Some v
          ∧ pop a1 = Return v a2
          ∧ length a2 = (length a + numElements - 1)%N
          ∧ capacity a2 = capacity a1
          ∧ ∀ i, (i < length a)%N → slot a2 i = slot a i.
Proof.
  intros Hbits Hwf Hpos Hpush.
  destruct (push_inv _ _ _ _ _ Hbits (wf_sound _ Hwf) Hpush)
    as (_ & Hs1 & Hlen1 & Hsrc & _ & Hslot1).
  pose proof (sound_room a1 Hs1) as Hroom.
  destruct (pop_returns_sound a1 Hs1) as (v & Hv & Hpop); [lia|].
  exists v, (set_length (length a1 - 1) a1). split_and!.
  - rewrite Hslot1, Hlen1, decide_True in Hv by lia. rewrite <- Hv.
    f_equal. lia.
  - done.
  - cbn. lia.
  - done.
  - intros i Hi. by rewrite slot_set_length, Hslot1, decide_False by lia.
Qed.

(** [push] never takes more storage than twice what the array holds (16
    slots for a small array): a capacity within that bound stays within
    it. *)
Theorem push_capacity_bound (elems : list T) (numElements n : N) a a' :
  (32 ≤ size_bits)%N → wf a →
  (capacity a ≤ N.max 16 (2 * length a))%N →
  push elems numElements a = Return n a' →
  (length a' ≤ capacity a' ≤ N.max 16 (2 * length a'))%N.
Proof.
  intros Hbits Hwf Hbound Hpush.
  destruct (push_inv _ _ _ _ _ Hbits (wf_sound _ Hwf) Hpush)
    as (_ & Hs' & Hlen' & _ & Hgrown & _).
  pose proof Hwf as [_ Hcap _]. pose proof Hs' as [(? & _) _ _].
  split; [done|]. rewrite Hlen'.
  destruct Hgrown as [[-> _]|(Hmin & -> & _)]; [lia|].
  rewrite newCapacity_policy by done. unfold INT32_MAX in *.
  case_compare; lia.
Qed.

Lemma list_inserts_take_id buf (n : nat) :
  list_inserts 0 (take n buf) buf = buf.
Proof.
  apply list_eq. intros j.
  destruct (decide (j < List.length (take n buf))%nat) as [Hj|Hj];
    rewrite length_take in Hj.
  - rewrite list_lookup_inserts by (rewrite ?length_take; lia).
    rewrite Nat.sub_0_r. by rewrite lookup_take_lt by lia.
  - by rewrite list_lookup_inserts_ge by (rewrite ?length_take; lia).
Qed.

Lemma set_length_id a : set_length (length a) a = a.
Proof. by destruct a. Qed.

(** [push] and [unshift] of no element return the length and leave the
    array as it is. *)
Theorem push_unshift_nothing (elems : list T) a :
  (32 ≤ size_bits)%N → wf a →
  push elems 0 a = Return (length a) a
  ∧ unshift elems 0 a = Return (length a) a.
Proof.
  intros Hbits Hwf. pose proof (wf_length_max a Hwf) as Hmax.
  pose proof Hwf as [(Hlc & _ & Hinit) _ _].
  assert (size_t_wrap (length a + 0) = length a) as Hwrap.
  { rewrite N.add_0_r. apply size_t_wrap_small; [done|]. unfold INT32_MAX in *. lia. }
  assert (ensureCapacity (length a) a = Return tt a) as E
    by by apply ensureCapacity_enough.
  split.
  - unfold push, bind, modify, ret. rewrite Hwrap, E. change (N.to_nat 0) with 0%nat. cbn -[set_length].
    by rewrite set_length_id.
  - unfold unshift, bind, modify, ret. rewrite Hwrap, E.
    assert (std_copy 0 (N.to_nat (length a)) 0 a = Return tt a) as ->.
    { destruct (decide (length a = 0%N)) as [->|Hne]; [done|].
      destruct (wf_elements a Hwf) as (buf & Hbuf & Hcap); [lia|].
      rewrite (std_copy_left _ 0 0 a buf Hbuf); [|lia|lia|].
      - cbn. rewrite drop_0, list_inserts_take_id, <- Hbuf. by rewrite set_elements_id.
      - intros j Hj. specialize (Hinit (N.of_nat j)).
        rewrite slot_eq, Hbuf, Nat2N.id in Hinit. apply Hinit. lia. }
    change (N.to_nat 0) with 0%nat. cbn -[set_length]. by rewrite set_length_id.
Qed.

(** [push] undoes [pop]: pushing the element [pop] returned gives back
    the array as it was, with its length, capacity and storage. *)
Theorem push_after_pop v a a1 :
  (32 ≤ size_bits)%N → wf a →
  pop a = Return v a1 →
  push [v] 1 a1 = Return (length a) a.
Proof.
  intros Hbits Hwf Hpop. pose proof (wf_length_max a Hwf) as Hmax.
  pose proof Hwf as [(Hlc & _) _ _].
  destruct (N.eq_dec (length a) 0%N) as [Hzero|Hpos].
  { by rewrite pop_empty in Hpop. }
  destruct (pop_returns a Hwf) as (w & Hw & Hpop'); [lia|].
  rewrite Hpop in Hpop'. injection Hpop' as -> ->.
  destruct (wf_elements a Hwf) as (buf & Hbuf & Hcap); [lia|].
  rewrite slot_eq, Hbuf in Hw.
  unfold push, bind, modify, ret. cbn [length set_length].
  replace (length a - 1 + 1)%N with (length a) by lia.
  rewrite size_t_wrap_small by (done || (unfold INT32_MAX in *; lia)).
  rewrite ensureCapacity_enough by (cbn; lia).
  erewrite std_copy_from_ok; [|exact Hbuf|cbn; lia|cbn; lia].
  destruct (buf !! N.to_nat (length a - 1)) as [[x|]|] eqn:Hx; simplify_eq/=.
  unfold list_inserts. rewrite list_insert_id by done.
  destruct a; cbn in *. by subst.
Qed.

(** *** The constructor *)

Lemma std_copy_from_undefined (src : list T) (n : nat) (dest : N) a :
  (0 < n)%nat →
  (List.length src < n)%nat ∨ (room a < N.to_nat dest + n)%nat →
  std_copy_from src n dest a = Undefined.
Proof.
  intros Hn Hshort.
  destruct (std_copy_from src n dest a) as [[] a'|e a'|] eqn:Hrun; [| |done].
  - pose proof (std_copy_from_room _ _ _ _ _ Hrun Hn).
    apply std_copy_from_inv in Hrun as [[? _]|(_ & _ & ? & _)]; lia.
  - by destruct (std_copy_from_no_throw _ _ _ _ _ _ Hrun).
Qed.

(** [Array(size, elements)]: no size gives the array without storage; a
    size above [INT32_MAX] fails CapacityExceeded and a refused
    allocation OutOfMemory.  When the byte count [size * sizeof(T)]
    does not wrap and [std::realloc] hands out the block, the array has
    the length and the capacity [size] and holds the zero element
    everywhere for the null pointer, and the first [size] elements of
    the block otherwise.  A block shorter than [size] is outside the
    defined behaviour, and so is a byte count that wraps: the block
    [std::realloc] hands out for it is too small for the [size] elements
    the constructor writes. *)
Theorem constructor_outcomes (size : N) (elems : option (list T)) :
  (size = 0%N → new_Array size elems = Return tt blank)
  ∧ ((INT32_MAX < size)%N →
     new_Array size elems = Throw CapacityExceeded blank)
  ∧ ((0 < size ≤ INT32_MAX)%N → realloc_ok (byte_count size) = false →
     new_Array size elems = Throw OutOfMemory blank)
  ∧ ((0 < size ≤ INT32_MAX)%N → fits size →
     realloc_ok (byte_count size) = true →
     (∀ src, elems = Some src → (N.to_nat size ≤ List.length src)%nat) →
     ∃ a, new_Array size elems = Return tt a
          ∧ length a = size ∧ capacity a = size
          ∧ ∀ i, (i < size)%N →
                 slot a i = match elems with
                            | None => Some zero
                            | Some src => src !! N.to_nat i
                            end)
  ∧ ((0 < size ≤ INT32_MAX)%N → realloc_ok (byte_count size) = true →
     (∀ src, elems = Some src → (List.length src < N.to_nat size)%nat →
             new_Array size elems = Undefined))
  ∧ ((0 < size ≤ INT32_MAX)%N → ¬ fits size →
     realloc_ok (byte_count size) = true →
     new_Array size elems = Undefined).
Proof.
  split_and!.
  - by intros ->.
  - intros Hbig. unfold new_Array, bind, allocateElements.
    destruct (N.eqb_spec size 0); [unfold INT32_MAX in *; lia|].
    by destruct (N.ltb_spec INT32_MAX size); [|lia].
  - intros Hsize Hno. unfold new_Array, bind, allocateElements.
    destruct (N.eqb_spec size 0); [lia|].
    destruct (N.ltb_spec INT32_MAX size); [lia|]. by rewrite Hno.
  - intros Hsize Hfit Hyes Hsrc.
    assert (∃ a, new_Array size elems = Return tt a) as [a Hnew].
    { unfold new_Array, bind, modify, allocateElements.
      destruct (N.eqb_spec size 0); [lia|].
      destruct (N.ltb_spec INT32_MAX size); [lia|]. rewrite Hyes. cbn.
      rewrite block_fits by done.
      rewrite resize_nil. destruct elems as [src|].
      - erewrite std_copy_from_ok;
          [by eexists|done|by apply Hsrc|by rewrite length_replicate].
      - erewrite std_fill_n_ok; [by eexists|done|by rewrite length_replicate]. }
    exists a. by destruct (new_Array_wf _ _ _ Hnew) as (_ & ? & ? & ?).
  - intros Hsize Hyes src -> Hshort.
    unfold new_Array, bind, modify, allocateElements.
    destruct (N.eqb_spec size 0); [lia|].
    destruct (N.ltb_spec INT32_MAX size); [lia|]. rewrite Hyes. cbn.
    rewrite std_copy_from_undefined; [done|lia|]. left. lia.
  - intros Hsize Hwrap Hyes. pose proof (block_short size Hwrap) as Hshort.
    unfold new_Array, bind, modify, allocateElements.
    destruct (N.eqb_spec size 0); [lia|].
    destruct (N.ltb_spec INT32_MAX size); [lia|]. rewrite Hyes. cbn.
    rewrite resize_nil.
    destruct elems as [src|]; rewrite ?std_fill_n_copy;
      (rewrite std_copy_from_undefined; [done|lia|]);
      right; cbn; rewrite length_replicate; lia.
Qed.

(** *** The array as the list of its elements *)

Lemma omap_total {A B} (f : A → option B) (l : list A) :
  (∀ x, x ∈ l → is_Some (f x)) →
  List.length (omap f l) = List.length l
  ∧ ∀ (j : nat) x, l !! j = Some x → omap f l !! j = f x.
Proof.
  induction l as [|y l IH]; intros Hall.
  { split; [done|]. intros j x Hj. by rewrite lookup_nil in Hj. }
  destruct (Hall y) as [b Hb]; [set_solver|].
  destruct IH as [Hlen Hlookup]; [intros x Hx; apply Hall; set_solver|].
  cbn. rewrite Hb. cbn. split; [by rewrite Hlen|].
  intros [|j] x Hj; cbn in *; [by simplify_eq|by apply Hlookup].
Qed.

Lemma contents_total a :
  sound a →
  List.length (contents a) = N.to_nat (length a)
  ∧ ∀ i, (i < length a)%N → contents a !! N.to_nat i = slot a i.
Proof.
  intros [(_ & _ & Hinit) _ _]. unfold contents.
  destruct (omap_total (slot a) (N.of_nat <$> seq 0 (N.to_nat (length a))))
    as [Hlen Hlookup].
  { intros x (k & -> & Hk%elem_of_seq)%list_elem_of_fmap. apply Hinit. lia. }
  rewrite length_fmap, length_seq in Hlen. split; [done|].
  intros i Hi. rewrite (Hlookup (N.to_nat i) i); [done|].
  rewrite list_lookup_fmap, lookup_seq_lt by lia. cbn. f_equal. lia.
Qed.

Lemma contents_eq a (l : list T) :
  sound a → List.length l = N.to_nat (length a) →
  (∀ i, (i < length a)%N → slot a i = l !! N.to_nat i) →
  contents a = l.
Proof.
  intros Hs Hlen Hslots. destruct (contents_total a Hs) as [Hclen Hclookup].
  apply list_eq. intros j. destruct (decide (j < N.to_nat (length a))%nat).
  - specialize (Hclookup (N.of_nat j)). specialize (Hslots (N.of_nat j)).
    rewrite Nat2N.id in *. rewrite Hclookup, Hslots by lia. done.
  - by rewrite !lookup_ge_None_2 by lia.
Qed.

(** Seen as the list of its elements, the array does what the list
    does: [get] reads the element at the index; [set] replaces it, or
    appends the value behind a run of zero elements when the index is at
    or above the length; [push] appends the block and returns the new
    length; [pop] takes the last element off and [shift] the first;
    [resize] cuts the list or fills it up with zero elements. *)
Theorem operations_on_contents a :
  (32 ≤ size_bits)%N → wf a →
  (∀ (index : N) v a',
     get index a = Return v a' →
     a' = a ∧ contents a !! N.to_nat index = Some v)
  ∧ (∀ (index : N) (value : T) a',
       set index value a = Return tt a' →
       contents a' =
       if decide (index < length a)%N
       then <[N.to_nat index := value]> (contents a)
       else (contents a ++ replicate (N.to_nat (index - length a)) zero
             ++ [value])%list)
  ∧ (∀ (elems : list T) (numElements n : N) a',
       push elems numElements a = Return n a' →
       contents a' = (contents a ++ take (N.to_nat numElements) elems)%list
       ∧ n = N.of_nat (List.length (contents a')))
  ∧ (∀ v a', pop a = Return v a' → contents a = (contents a' ++ [v])%list)
  ∧ (∀ v a', shift a = Return v a' → contents a = v :: contents a')
  ∧ (∀ (newSize : N) a',
       resize newSize a = Return tt a' →
       contents a' =
       (take (N.to_nat newSize) (contents a)
        ++ replicate (N.to_nat (newSize - length a)) zero)%list).
Proof.
  intros Hbits Hwf. pose proof (wf_sound _ Hwf) as Hsound.
  destruct (contents_total a Hsound) as [Hlen Hlookup].
  pose proof Hwf as [(Hlc & _) _ _].
  split_and!.
  - intros index v a' Hget. apply get_inv in Hget as (-> & Hin & Hv).
    split; [done|]. by rewrite Hlookup.
  - intros index value a' Hset.
    destruct (set_inv _ _ _ _ Hbits Hsound Hset) as (Hs' & Hlen' & _ & Hslot').
    pose proof (sound_room a' Hs') as Hroom.
    apply contents_eq; [done|..].
    + case_decide.
      * rewrite length_insert. lia.
      * rewrite !length_app, length_replicate. cbn. lia.
    + intros i Hi. rewrite Hslot' by lia.
      destruct (decide (index < length a)%N) as [Hin|Hout].
      * destruct (decide (i = index)) as [->|Hne].
        -- by rewrite list_lookup_insert_eq by lia.
        -- rewrite list_lookup_insert_ne by lia. rewrite decide_False by lia.
           by rewrite Hlookup by lia.
      * destruct (decide (i < length a)%N).
        -- rewrite lookup_app_l by lia. rewrite !decide_False by lia.
           by rewrite Hlookup.
        -- rewrite lookup_app_r by lia. rewrite Hlen.
           destruct (decide (i = index)) as [->|Hne].
           ++ rewrite lookup_app_r by (rewrite length_replicate; lia).
              rewrite length_replicate.
              by replace (N.to_nat index - N.to_nat (length a)
                          - N.to_nat (index - length a))%nat with 0%nat by lia.
           ++ rewrite decide_True by lia.
              rewrite lookup_app_l by (rewrite length_replicate; lia).
              by rewrite lookup_replicate_2 by lia.
  - intros elems numElements n a' Hpush.
    destruct (push_inv _ _ _ _ _ Hbits Hsound Hpush)
      as (-> & Hs' & Hlen' & Hsrc & _ & Hslot').
    pose proof (sound_room a' Hs') as Hroom.
    assert (contents a' = (contents a ++ take (N.to_nat numElements) elems)%list)
      as ->.
    { apply contents_eq; [done|rewrite length_app, length_take; lia|].
      intros i Hi. rewrite Hslot' by lia. case_decide.
      - rewrite lookup_app_r by lia. rewrite Hlen, lookup_take_lt by lia.
        f_equal. lia.
      - rewrite lookup_app_l by lia. by rewrite Hlookup by lia. }
    split; [done|]. rewrite length_app, length_take. lia.
  - intros v a' Hpop. apply pop_inv in Hpop as (Hpos & -> & Hv).
    assert (sound (set_length (length a - 1) a)) as Hs'.
    { apply set_length_sound; [done|lia|]. intros i Hi. lia. }
    destruct (contents_total _ Hs') as [Hlen' Hlookup']. cbn in Hlen', Hlookup'.
    apply contents_eq; [done|rewrite length_app; cbn; lia|].
    intros i Hi. destruct (decide (i < length a - 1)%N).
    + rewrite lookup_app_l by lia. rewrite Hlookup' by done.
      by rewrite slot_set_length.
    + rewrite lookup_app_r by lia. rewrite Hlen'.
      replace i with (length a - 1)%N by lia.
      by replace (N.to_nat (length a - 1) - N.to_nat (length a - 1))%nat
        with 0%nat by lia.
  - intros v a' Hshift.
    destruct (shift_inv _ _ _ Hsound Hshift)
      as (Hpos & Hv & Hs' & Hlen' & _ & _ & Hslot').
    destruct (contents_total _ Hs') as [Hclen' Hclookup'].
    apply contents_eq; [done|cbn; lia|].
    intros i Hi. destruct (decide (i = 0%N)) as [->|Hne]; [done|].
    replace (N.to_nat i) with (S (N.to_nat (i - 1))) by lia. cbn.
    rewrite Hclookup' by lia. rewrite Hslot', decide_True by lia. f_equal. lia.
  - intros newSize a' Hresize.
    destruct (resize_inv _ _ _ Hsound Hresize) as (Hs' & Hlen' & _ & Hslot').
    pose proof (sound_room a' Hs') as Hroom.
    apply contents_eq; [done|..].
    + rewrite length_app, length_take, length_replicate. lia.
    + intros i Hi. rewrite Hslot' by lia. case_decide.
      * rewrite lookup_app_r by (rewrite length_take; lia).
        rewrite length_take. by rewrite lookup_replicate_2 by lia.
      * rewrite lookup_app_l by (rewrite length_take; lia).
        rewrite lookup_take_lt by lia. by rewrite Hlookup by lia.
Qed.

(** [unshift], seen on the list of the elements, puts the block in
    front of the list and returns the new length: the elements the array
    held follow the block in their order, each of them once. *)
Theorem unshift_on_contents (elems : list T) (numElements n : N) a a' :
  (32 ≤ size_bits)%N → sound a →
  unshift elems numElements a = Return n a' →
  contents a' = (take (N.to_nat numElements) elems ++ contents a)%list
  ∧ n = N.of_nat (List.length (contents a')).
Proof.
  intros Hbits Hsound Hrun.
  destruct (contents_total a Hsound) as [Hlen Hlookup].
  destruct (unshift_inv _ _ _ _ _ Hbits Hsound Hrun)
    as (-> & Hs' & Hlen' & Hsrc & _ & Hslot').
  pose proof (sound_room a' Hs') as Hroom.
  assert (contents a' = (take (N.to_nat numElements) elems ++ contents a)%list)
    as ->.
  { apply contents_eq; [done|rewrite length_app, length_take; lia|].
    intros i Hi. rewrite Hslot' by lia.
    destruct (decide (i < numElements)%N).
    - rewrite lookup_app_l by (rewrite length_take; lia).
      by rewrite lookup_take_lt by lia.
    - rewrite decide_True by lia.
      rewrite lookup_app_r by (rewrite length_take; lia).
      rewrite length_take.
      replace (N.to_nat i - N.to_nat numElements `min` List.length elems)%nat
        with (N.to_nat (i - numElements)) by lia.
      by rewrite Hlookup by lia. }
  split; [done|]. rewrite length_app, length_take. lia.
Qed.

End Facts.

(** *** The specification at concrete arrays *)

#[local] Existing Instances wasm32 integers.

Lemma wf_array_of (l : list Z) :
  (N.of_nat (List.length l) ≤ INT32_MAX)%N → wf (array_of l).
Proof.
  intros Hmax. unfold array_of. destruct l as [|x l]; [by apply wf_None|].
  apply wf_Some. split_and!; [lia|done|done|by rewrite length_fmap, Nat2N.id|].
  intros j Hj. unfold init. rewrite list_lookup_fmap.
  destruct (lookup_lt_is_Some_2 (x :: l) j) as [y ->]; [lia|]. by eexists.
Qed.

(** C2, as the specification states it, fails: on an array of length 2,
    [set] at index 2³¹−1 throws CapacityExceeded and leaves the length
    at 2. *)
Lemma set_every_index_counterexample :
  new_Array 2 (Some [1; 2]%Z) = Return tt (array_of [1; 2]%Z)
  ∧ set 2147483647 9%Z (array_of [1; 2]%Z)
    = Throw CapacityExceeded (array_of [1; 2]%Z)
  ∧ ¬ ∃ a', set 2147483647 9%Z (array_of [1; 2]%Z) = Return tt a'
            ∧ length a' = 2147483648%N.
Proof.
  split_and!; [by vm_compute..|].
  intros (a' & Hset & _). vm_compute in Hset. discriminate.
Qed.

Lemma set_beyond_length_witness :
  ∃ a', set 5 9%Z (array_of [1; 2]%Z) = Return tt a'
        ∧ length a' = 6%N
        ∧ (∀ i, (2 ≤ i < 5)%N → slot a' i = Some 0%Z)
        ∧ slot a' 5 = Some 9%Z
        ∧ (∀ i, (i < 2)%N → slot a' i = slot (array_of [1; 2]%Z) i)
        ∧ (6 ≤ capacity a')%N.
Proof.
  apply (set_beyond_length (T:=Z) (elt:=integers) 5 9%Z (array_of [1; 2]%Z)).
  - by vm_compute.
  - apply wf_array_of. by vm_compute.
  - by vm_compute.
  - by vm_compute.
  - intros _. split; by vm_compute.
Defined.

(** On the 32-bit [size_t], [set] at index 2³⁰ of an array of two
    integers asks for the capacity 2³⁰ + 1, whose byte count wraps to 4:
    [std::realloc] hands out a block of one element, and the zero-fill
    from slot 2 on is outside the block, so outside the defined
    behaviour.  [resize] to 2³⁰ asks for the capacity 2³⁰, whose byte
    count wraps to 0. *)
Lemma wrapped_byte_counts :
  byte_count (newCapacity 2 1073741825) = 4%N
  ∧ ensureCapacity 1073741825 (array_of [1; 2]%Z)
    = Return tt (mkArray 2 1073741825 (Some [Some 1%Z]))
  ∧ set 1073741824 9%Z (array_of [1; 2]%Z) = Undefined
  ∧ byte_count (newCapacity 2 1073741824) = 0%N
  ∧ resize 1073741824 (array_of [1; 2]%Z) = Undefined.
Proof.
  assert (ensureCapacity 1073741825 (array_of [1; 2]%Z)
          = Return tt (mkArray 2 1073741825 (Some [Some 1%Z]))) as E
    by by vm_compute.
  assert (ensureCapacity 1073741824 (array_of [1; 2]%Z) = Undefined) as E'
    by by vm_compute.
  split_and!; [by vm_compute|done| |by vm_compute|].
  - unfold set, resize, bind.
    replace (size_t_wrap (1073741824 + 1)) with 1073741825%N by by vm_compute.
    destruct (N.leb_spec (length (array_of [1; 2]%Z)) 1073741824) as [_|Hlt];
      [|cbn in Hlt; lia].
    rewrite E. cbn [length].
    destruct (N.ltb_spec 2 1073741825) as [_|Hle]; [|lia].
    rewrite std_fill_n_copy, std_copy_from_undefined; [done|lia|].
    right. cbn [room elements List.length]. lia.
  - unfold resize, bind. by rewrite E'.
Qed.

Lemma growth_policy_witness :
  (∃ a', run (OpResize 17) (array_of [1; 2; 3]%Z) = Return tt a'
         ∧ capacity a' = 17%N ∧ length a' = 17%N)
  ∧ (∃ a', run (OpUnshift [0%Z] 1) (array_of [1; 2; 3]%Z) = Return tt a'
           ∧ capacity a' = 6%N ∧ length a' = 4%N)
  ∧ (∃ a', push_each [1; 2; 3; 4; 5; 6; 7; 8; 9; 10; 11; 12; 13; 14; 15; 16]%Z
             blank = Return tt a'
           ∧ length a' = 16%N ∧ capacity a' = 16%N)
  ∧ (∃ a', push_each [1; 2; 3; 4; 5; 6; 7; 8; 9; 10; 11; 12; 13; 14; 15; 16; 17]%Z
             blank = Return tt a'
           ∧ length a' = 17%N ∧ capacity a' = 32%N).
Proof.
  destruct (growth_policy (T:=Z) (elt:=integers) (plat:=wasm32) ltac:(by vm_compute))
    as (Hgrow & _ & Hpush).
  split_and!.
  - destruct (Hgrow (OpResize 17) (array_of [1; 2; 3]%Z)) as (_ & _ & H);
      [apply wf_array_of; by vm_compute|done|by vm_compute|].
    apply (H ltac:(by vm_compute) ltac:(by vm_compute)).
  - destruct (Hgrow (OpUnshift [0%Z] 1) (array_of [1; 2; 3]%Z)) as (_ & _ & H);
      [apply wf_array_of; by vm_compute|split; by vm_compute|by vm_compute|].
    apply (H ltac:(by vm_compute) ltac:(by vm_compute)).
  - apply (Hpush [1; 2; 3; 4; 5; 6; 7; 8; 9; 10; 11; 12; 13; 14; 15; 16]%Z);
      [by vm_compute|reflexivity|reflexivity|cbn; lia].
  - apply (Hpush [1; 2; 3; 4; 5; 6; 7; 8; 9; 10; 11; 12; 13; 14; 15; 16; 17]%Z);
      [by vm_compute|reflexivity|reflexivity|cbn; lia].
Defined.

(** C4, as the specification states it, fails: on an array of length 5
    the end -7 would resolve to 5 + -7 = -2, below the start 5 + -1 = 4,
    which the specification calls a no-op; [fill] throws, the end index
    being out of range. *)
Lemma fill_below_first_counterexample :
  (Z.of_N (length (array_of [1; 2; 3; 4; 5]%Z)) + -7
   < Z.of_N (length (array_of [1; 2; 3; 4; 5]%Z)) + -1)%Z
  ∧ fill 9%Z (-1) (-7) (array_of [1; 2; 3; 4; 5]%Z)
    = Throw (out_of_range "End index is out of range")
        (array_of [1; 2; 3; 4; 5]%Z)
  ∧ fill 9%Z (-1) (-7) (array_of [1; 2; 3; 4; 5]%Z)
    ≠ Return tt (array_of [1; 2; 3; 4; 5]%Z).
Proof.
  split_and!; [by vm_compute..|].
  intros Hfill. vm_compute in Hfill. discriminate.
Qed.

Lemma fill_range_witness :
  ∃ a', fill 9%Z (-2) (-1) (array_of [1; 2; 3; 4; 5]%Z) = Return tt a'
        ∧ length a' = 5%N ∧ capacity a' = 5%N
        ∧ ∀ i, slot a' i =
               if decide (3 ≤ i < 4)%N then Some 9%Z
               else slot (array_of [1; 2; 3; 4; 5]%Z) i.
Proof.
  destruct (fill_range (T:=Z) 9%Z (-2) (-1) (array_of [1; 2; 3; 4; 5]%Z))
    as (_ & _ & _ & _ & _ & Hfill).
  - by vm_compute.
  - apply wf_array_of. by vm_compute.
  - apply Hfill; [by vm_compute|split; by vm_compute].
Defined.

(** C5, as the specification states it, fails: on an array of length 2
    a block of 2³¹−1 elements does not fit, whatever it holds; [unshift]
    and [push] throw CapacityExceeded and leave the array as it was,
    where the specification has them return the new length. *)
Lemma unshift_push_every_block_counterexample :
  new_Array 2 (Some [1; 2]%Z) = Return tt (array_of [1; 2]%Z)
  ∧ (∀ elems : list Z,
       unshift elems 2147483647 (array_of [1; 2]%Z)
       = Throw CapacityExceeded (array_of [1; 2]%Z))
  ∧ (∀ elems : list Z,
       push elems 2147483647 (array_of [1; 2]%Z)
       = Throw CapacityExceeded (array_of [1; 2]%Z))
  ∧ ¬ (∃ (elems : list Z) a',
         unshift elems 2147483647 (array_of [1; 2]%Z)
         = Return 2147483649%N a').
Proof.
  split_and!; [by vm_compute|by intros elems; vm_compute..|].
  intros (elems & a' & Hrun). vm_compute in Hrun. discriminate.
Qed.

Lemma unshift_prepends_push_appends_witness :
  (4%N = (length (array_of [1; 2; 3]%Z) + 1)%N
   ∧ length (mkArray 4 6
               (Some [Some 0; Some 1; Some 2; Some 3; None; None]%Z))
     = (length (array_of [1; 2; 3]%Z) + 1)%N
   ∧ (N.to_nat 1 ≤ List.length [0%Z])%nat
   ∧ (∀ j, (j < 1)%N →
        slot (mkArray 4 6
                (Some [Some 0; Some 1; Some 2; Some 3; None; None]%Z)) j
        = [0%Z] !! N.to_nat j)
   ∧ (∀ i, (i < length (array_of [1; 2; 3]%Z))%N →
        slot (mkArray 4 6
                (Some [Some 0; Some 1; Some 2; Some 3; None; None]%Z)) (1 + i)
        = slot (array_of [1; 2; 3]%Z) i))
  ∧ (∃ a', unshift [0%Z] 1 (array_of [1; 2; 3]%Z) = Return 4%N a')
  ∧ (∃ a', push [0%Z] 1 (array_of [1; 2; 3]%Z) = Return 4%N a').
Proof.
  destruct (unshift_prepends_push_appends (T:=Z) (elt:=integers) [0%Z] 1
              (array_of [1; 2; 3]%Z)) as (Hunshift & _ & Hreturn & _).
  - by vm_compute.
  - apply wf_sound, wf_array_of. by vm_compute.
  - split.
    + apply (Hunshift 4%N). by vm_compute.
    + apply Hreturn.
      * apply wf_array_of. by vm_compute.
      * by vm_compute.
      * cbn. lia.
      * intros _. split; by vm_compute.
Defined.

Lemma pop_shift_witness :
  (∃ v, slot (array_of [1; 2; 3]%Z) 2 = Some v
        ∧ pop (array_of [1; 2; 3]%Z)
          = Return v (set_length 2 (array_of [1; 2; 3]%Z)))
  ∧ (∃ v a', slot (array_of [1; 2; 3]%Z) 0 = Some v
             ∧ shift (array_of [1; 2; 3]%Z) = Return v a'
             ∧ length a' = 2%N ∧ capacity a' = 3%N
             ∧ ∀ i, (i < 2)%N →
                    slot a' i = slot (array_of [1; 2; 3]%Z) (i + 1)).
Proof.
  apply (pop_shift (array_of [1; 2; 3]%Z)).
  - apply wf_array_of. by vm_compute.
  - by vm_compute.
Defined.


Lemma push_appends_witness :
  ∃ a', push [7; 8]%Z 2 (array_of [1; 2; 3]%Z) = Return 5%N a'
        ∧ length a' = 5%N
        ∧ (∀ i, (i < 3)%N → slot a' i = slot (array_of [1; 2; 3]%Z) i)
        ∧ (∀ j, (j < 2)%N → slot a' (3 + j) = [7; 8]%Z !! N.to_nat j).
Proof.
  apply (push_appends (T:=Z) (elt:=integers) [7; 8]%Z 2 (array_of [1; 2; 3]%Z)).
  - by vm_compute.
  - apply wf_array_of. by vm_compute.
  - by vm_compute.
  - cbn. lia.
  - intros _. split; by vm_compute.
Defined.

Lemma get_after_set_witness :
  get 5 (mkArray 6 6
           (Some [Some 1; Some 2; Some 0; Some 0; Some 0; Some 9]%Z))
  = Return 9%Z
      (mkArray 6 6 (Some [Some 1; Some 2; Some 0; Some 0; Some 0; Some 9]%Z)).
Proof.
  apply (get_after_set (T:=Z) (elt:=integers) 5 9%Z (array_of [1; 2]%Z)).
  - by vm_compute.
  - apply wf_array_of. by vm_compute.
  - by vm_compute.
Defined.

Lemma get_in_and_out_witness :
  ((length (array_of [1; 2; 3]%Z) ≤ 3)%N →
   get 3 (array_of [1; 2; 3]%Z)
   = Throw (out_of_range "Index out of bound") (array_of [1; 2; 3]%Z))
  ∧ ((1 < length (array_of [1; 2; 3]%Z))%N →
     ∃ v, slot (array_of [1; 2; 3]%Z) 1 = Some v
          ∧ get 1 (array_of [1; 2; 3]%Z) = Return v (array_of [1; 2; 3]%Z)).
Proof.
  split.
  - apply (get_in_and_out (T:=Z) 3 (array_of [1; 2; 3]%Z)).
    apply wf_array_of. by vm_compute.
  - apply (get_in_and_out (T:=Z) 1 (array_of [1; 2; 3]%Z)).
    apply wf_array_of. by vm_compute.
Defined.

(** *** Further properties at concrete arrays *)

Lemma resize_zero_fills_witness :
  ∃ a', resize 5 (array_of [1; 2; 3]%Z) = Return tt a'
        ∧ length a' = 5%N
        ∧ (5 ≤ capacity a')%N
        ∧ ((5 ≤ 3)%N → capacity a' = 3%N)
        ∧ ∀ i, slot a' i =
               if decide (3 ≤ i < 5)%N then Some 0%Z
               else slot (array_of [1; 2; 3]%Z) i.
Proof.
  destruct (resize_zero_fills (T:=Z) (elt:=integers) 5 (array_of [1; 2; 3]%Z))
    as (_ & _ & H & _).
  - apply wf_array_of. by vm_compute.
  - apply H; [by vm_compute|]. intros _. split; by vm_compute.
Defined.

Lemma resize_shrink_then_grow_witness :
  length (mkArray 3 3 (Some [Some 1; Some 0; Some 0]%Z)) = 3%N
  ∧ (∀ i, (1 ≤ i < 3)%N →
          slot (mkArray 3 3 (Some [Some 1; Some 0; Some 0]%Z)) i = Some 0%Z)
  ∧ (∀ i, (i < 1)%N → (i < 3)%N →
          slot (mkArray 3 3 (Some [Some 1; Some 0; Some 0]%Z)) i
          = slot (array_of [1; 2; 3]%Z) i).
Proof.
  apply (resize_shrink_then_grow (T:=Z) (elt:=integers) 1 3 (array_of [1; 2; 3]%Z)
           (mkArray 1 3 (Some [Some 1; Some 2; Some 3]%Z))).
  - apply wf_array_of. by vm_compute.
  - by vm_compute.
  - by vm_compute.
  - by vm_compute.
Defined.

Lemma set_within_length_witness :
  ∃ a', set 1 9%Z (array_of [1; 2; 3]%Z) = Return tt a'
        ∧ length a' = 3%N ∧ capacity a' = 3%N
        ∧ ∀ i, slot a' i =
               if decide (i = 1%N) then Some 9%Z
               else slot (array_of [1; 2; 3]%Z) i.
Proof.
  apply (set_within_length (T:=Z) (elt:=integers) 1 9%Z (array_of [1; 2; 3]%Z)).
  - apply wf_array_of. by vm_compute.
  - by vm_compute.
Defined.

Lemma set_at_size_max_witness :
  resize (size_t_wrap (2 ^ 32 - 1 + 1)) (array_of [1; 2]%Z)
  = Return tt (set_length 0 (array_of [1; 2]%Z))
  ∧ set 4294967295 9%Z (array_of [1; 2]%Z) = Undefined.
Proof.
  apply (set_at_size_max (T:=Z) (elt:=integers) (plat:=wasm32) 9%Z (array_of [1; 2]%Z)).
  - by vm_compute.
  - apply wf_array_of. by vm_compute.
Defined.

Lemma fill_from_to_end_witness :
  ∃ a', fill_from 9%Z (-2) (array_of [1; 2; 3; 4; 5]%Z) = Return tt a'
        ∧ length a' = 5%N ∧ capacity a' = 5%N
        ∧ ∀ i, slot a' i =
               if decide (3 ≤ i < 5)%N then Some 9%Z
               else slot (array_of [1; 2; 3; 4; 5]%Z) i.
Proof.
  destruct (fill_from_to_end (T:=Z) 9%Z (-2) (array_of [1; 2; 3; 4; 5]%Z))
    as (_ & _ & Hfill).
  - by vm_compute.
  - apply wf_array_of. by vm_compute.
  - apply Hfill. by vm_compute.
Defined.

Lemma pop_after_push_witness :
  ∃ v a2, [7; 8]%Z !! 1%nat = Some v
          ∧ pop (mkArray 5 6
                   (Some [Some 1; Some 2; Some 3; Some 7; Some 8; None]%Z))
            = Return v a2
          ∧ length a2 = 4%N
          ∧ capacity a2 = 6%N
          ∧ ∀ i, (i < 3)%N → slot a2 i = slot (array_of [1; 2; 3]%Z) i.
Proof.
  apply (pop_after_push (T:=Z) (elt:=integers) [7; 8]%Z 2 5 (array_of [1; 2; 3]%Z)).
  - by vm_compute.
  - apply wf_array_of. by vm_compute.
  - by vm_compute.
  - by vm_compute.
Defined.

Lemma push_capacity_bound_witness :
  (length (mkArray 5 6
             (Some [Some 1; Some 2; Some 3; Some 7; Some 8; None]%Z))
   ≤ capacity (mkArray 5 6
                 (Some [Some 1; Some 2; Some 3; Some 7; Some 8; None]%Z))
   ≤ N.max 16
       (2 * length (mkArray 5 6
                      (Some [Some 1; Some 2; Some 3; Some 7; Some 8; None]%Z))))%N.
Proof.
  apply (push_capacity_bound (T:=Z) (elt:=integers) [7; 8]%Z 2 5 (array_of [1; 2; 3]%Z)
           (mkArray 5 6
              (Some [Some 1; Some 2; Some 3; Some 7; Some 8; None]%Z))).
  - by vm_compute.
  - apply wf_array_of. by vm_compute.
  - by vm_compute.
  - by vm_compute.
Defined.

Lemma push_unshift_nothing_witness :
  push [] 0 (array_of [1; 2; 3]%Z) = Return 3%N (array_of [1; 2; 3]%Z)
  ∧ unshift [] 0 (array_of [1; 2; 3]%Z) = Return 3%N (array_of [1; 2; 3]%Z).
Proof.
  apply (push_unshift_nothing (T:=Z) (elt:=integers) [] (array_of [1; 2; 3]%Z)).
  - by vm_compute.
  - apply wf_array_of. by vm_compute.
Defined.

Lemma unshift_on_contents_witness :
  contents (mkArray 7 10
              (Some [Some 7; Some 8; Some 1; Some 2; Some 3; Some 4; Some 5;
                     None; None; None]%Z))
  = (take 2 [7; 8]%Z ++ contents (array_of [1; 2; 3; 4; 5]%Z))%list
  ∧ 7%N = N.of_nat (List.length
            (contents (mkArray 7 10
                         (Some [Some 7; Some 8; Some 1; Some 2; Some 3;
                                Some 4; Some 5; None; None; None]%Z)))).
Proof.
  apply (unshift_on_contents (T:=Z) (elt:=integers) [7; 8]%Z 2 7
           (array_of [1; 2; 3; 4; 5]%Z)).
  - by vm_compute.
  - apply wf_sound, wf_array_of. by vm_compute.
  - by vm_compute.
Defined.

Lemma push_after_pop_witness :
  push [3%Z] 1 (set_length 2 (array_of [1; 2; 3]%Z))
  = Return 3%N (array_of [1; 2; 3]%Z).
Proof.
  apply (push_after_pop (T:=Z) (elt:=integers) 3%Z (array_of [1; 2; 3]%Z)).
  - by vm_compute.
  - apply wf_array_of. by vm_compute.
  - by vm_compute.
Defined.

Lemma operations_on_contents_witness :
  contents (mkArray 5 6
              (Some [Some 1; Some 2; Some 3; Some 7; Some 8; None]%Z))
  = (contents (array_of [1; 2; 3]%Z) ++ take 2 [7; 8]%Z)%list
  ∧ 5%N = N.of_nat (List.length
            (contents (mkArray 5 6
                         (Some [Some 1; Some 2; Some 3; Some 7; Some 8; None]%Z)))).
Proof.
  destruct (operations_on_contents (T:=Z) (array_of [1; 2; 3]%Z))
    as (_ & _ & Hpush & _).
  - by vm_compute.
  - apply wf_array_of. by vm_compute.
  - apply (Hpush [7; 8]%Z 2%N 5%N). by vm_compute.
Defined.

End ArrayFacts.

(** ** The linker *)

Module LinkerFacts.
Import Linker.

Lemma intersects_spec (setA setB : gset string) :
  intersects setA setB = true ↔ ∃ symbol, symbol ∈ setA ∧ symbol ∈ setB.
Proof.
  unfold intersects. rewrite existsb_exists. split.
  - intros (symbol & Hin & Hhas). apply list_elem_of_In, elem_of_elements in Hin.
    apply bool_decide_eq_true in Hhas. exists symbol. case_decide; done.
  - intros (symbol & HA & HB). exists symbol.
    rewrite <- list_elem_of_In, elem_of_elements, bool_decide_eq_true.
    case_decide; done.
Qed.

Lemma intersects_false (setA setB : gset string) :
  intersects setA setB = false ↔ ∀ symbol, symbol ∈ setA → symbol ∉ setB.
Proof.
  rewrite <- not_true_iff_false, intersects_spec. naive_solver.
Qed.

Lemma delete_each_spec (symbols unresolved : gset string) symbol :
  symbol ∈ delete_each symbols unresolved
  ↔ symbol ∈ unresolved ∧ symbol ∉ symbols.
Proof.
  unfold delete_each. rewrite <- (elem_of_elements symbols).
  generalize (elements symbols) as l. intros l. revert unresolved.
  induction l as [|x l IH]; intros unresolved; cbn.
  - set_solver.
  - rewrite IH. set_solver.
Qed.

Lemma add_each_spec (symbols unresolved : gset string) symbol :
  symbol ∈ add_each symbols unresolved
  ↔ symbol ∈ unresolved ∨ symbol ∈ symbols.
Proof.
  unfold add_each. rewrite <- (elem_of_elements symbols).
  generalize (elements symbols) as l. intros l. revert unresolved.
  induction l as [|x l IH]; intros unresolved; cbn.
  - set_solver.
  - rewrite IH. set_solver.
Qed.

(** Whether two sets of symbols intersect does not depend on their
    order. *)
Theorem intersects_comm (setA setB : gset string) :
  intersects setA setB = intersects setB setA.
Proof.
  destruct (intersects setB setA) eqn:E.
  - apply intersects_spec in E as (symbol & ? & ?).
    apply intersects_spec. by exists symbol.
  - rewrite intersects_false in E |- *. intros symbol HA HB.
    exact (E symbol HB HA).
Qed.

Section Facts.
Variable getSymbols : string → Symbols.
Variable objectFiles entrySymbols : list string.

Implicit Types (st : LinkState) (objectFile symbol : string).

#[local] Abbreviation invariant :=
  (Linker.invariant getSymbols objectFiles entrySymbols).
#[local] Abbreviation settled :=
  (Linker.settled getSymbols objectFiles).

(** [considerObjectFile]: a file is taken exactly when it defines an
    unresolved symbol; its defined symbols then leave the set and its
    undefined symbols enter it. *)
Lemma considerObjectFile_spec (objectFile : string) (unresolved : gset string) :
  (considerObjectFile getSymbols objectFile unresolved
   = (true, add_each (undefined (getSymbols objectFile))
              (delete_each (defined (getSymbols objectFile)) unresolved))
   ∧ ∃ symbol, symbol ∈ unresolved ∧ symbol ∈ defined (getSymbols objectFile))
  ∨ (considerObjectFile getSymbols objectFile unresolved = (false, unresolved)
     ∧ ∀ symbol, symbol ∈ unresolved →
                 symbol ∉ defined (getSymbols objectFile)).
Proof.
  unfold considerObjectFile.
  destruct (intersects _ _) eqn:E; [left|right]; split; try done.
  - by apply intersects_spec.
  - by apply intersects_false.
Qed.


Lemma visit_cases st objectFile :
  (visit getSymbols st objectFile = st
   ∧ (objectFile ∈ includedObjectFiles st
      ∨ ∀ symbol, symbol ∈ unresolvedSymbols st →
                  symbol ∉ defined (getSymbols objectFile)))
  ∨ ((objectFile ∉ includedObjectFiles st)
     ∧ (∃ symbol, symbol ∈ unresolvedSymbols st
                  ∧ symbol ∈ defined (getSymbols objectFile))
     ∧ visit getSymbols st objectFile
       = mkLinkState true (includedObjectFiles st ++ [objectFile])
           (add_each (undefined (getSymbols objectFile))
              (delete_each (defined (getSymbols objectFile))
                 (unresolvedSymbols st)))).
Proof.
  unfold visit. case_bool_decide as Hin; [left; auto|].
  destruct (considerObjectFile_spec objectFile (unresolvedSymbols st))
    as [[-> Hhit]|[-> Hmiss]]; [right|left]; auto.
Qed.

Lemma visit_invariant st objectFile :
  objectFile ∈ objectFiles → invariant st →
  invariant (visit getSymbols st objectFile).
Proof.
  intros Hfile [Hun Hinc Hnd].
  destruct (visit_cases st objectFile)
    as [[-> _]|(Hout & (s0 & Hs0 & Hdef) & ->)]; [done|].
  split; cbn.
  - intros symbol [[Hold _]%delete_each_spec|Hnew]%add_each_spec; [auto|].
    eapply needed_undefined; eauto.
  - intros f [Hf| ->%list_elem_of_singleton]%elem_of_app; [auto|].
    split; [done|]. exists s0. auto.
  - apply NoDup_app. split_and!; [done| |apply NoDup_singleton].
    intros f Hf ->%list_elem_of_singleton. done.
Qed.

Lemma scan_cons objectFile (files : list string) st :
  scan getSymbols (objectFile :: files) st
  = scan getSymbols files (visit getSymbols st objectFile).
Proof. done. Qed.

Lemma scan_invariant (files : list string) st :
  (∀ objectFile, objectFile ∈ files → objectFile ∈ objectFiles) →
  invariant st → invariant (scan getSymbols files st).
Proof.
  revert st. induction files as [|f files IH]; intros st Hsub Hinv; [done|].
  rewrite scan_cons. apply IH; [set_solver|]. apply visit_invariant; [set_solver|done].
Qed.

Lemma visit_progress st objectFile :
  (loopAgain st = true → loopAgain (visit getSymbols st objectFile) = true)
  ∧ (loopAgain (visit getSymbols st objectFile) = true →
     loopAgain st = true
     ∨ (List.length (includedObjectFiles st)
        < List.length (includedObjectFiles (visit getSymbols st objectFile)))%nat)
  ∧ (List.length (includedObjectFiles st)
     ≤ List.length (includedObjectFiles (visit getSymbols st objectFile)))%nat.
Proof.
  destruct (visit_cases st objectFile) as [[-> _]|(_ & _ & ->)]; cbn.
  - auto.
  - rewrite length_app. cbn. split_and!; [done|right; lia|lia].
Qed.

Lemma scan_progress (files : list string) st :
  (loopAgain st = true → loopAgain (scan getSymbols files st) = true)
  ∧ (loopAgain (scan getSymbols files st) = true →
     loopAgain st = true
     ∨ (List.length (includedObjectFiles st)
        < List.length (includedObjectFiles (scan getSymbols files st)))%nat)
  ∧ (List.length (includedObjectFiles st)
     ≤ List.length (includedObjectFiles (scan getSymbols files st)))%nat.
Proof.
  revert st. induction files as [|f files IH]; intros st;
    [cbn; auto with lia|].
  rewrite scan_cons. destruct (IH (visit getSymbols st f)) as (Hkeep & Hgrow & Hle).
  destruct (visit_progress st f) as (Hkeep1 & Hgrow1 & Hle1).
  split_and!; [auto| |lia].
  intros Hflag. destruct (Hgrow Hflag) as [Hflag1|Hlt]; [|right; lia].
  destruct (Hgrow1 Hflag1); [by left|right; lia].
Qed.

(** A scan that ends with the flag down changed nothing, and found no
    file to take. *)
Lemma scan_quiet (files : list string) st :
  loopAgain (scan getSymbols files st) = false →
  scan getSymbols files st = st
  ∧ ∀ objectFile, objectFile ∈ files →
      objectFile ∈ includedObjectFiles st
      ∨ ∀ symbol, symbol ∈ unresolvedSymbols st →
                  symbol ∉ defined (getSymbols objectFile).
Proof.
  revert st. induction files as [|f files IH]; intros st Hflag.
  { split; [done|]. intros f Hf. by apply elem_of_nil in Hf. }
  rewrite scan_cons in *. destruct (IH _ Hflag) as [Hsame Hrest]. rewrite Hsame in *.
  destruct (visit_cases st f) as [[Hvisit Hf]|(_ & _ & Hvisit)];
    rewrite Hvisit in *; [|done].
  split; [done|]. intros f' [->|Hf']%elem_of_cons; auto.
Qed.

(** *** The rounds of the loop *)

Lemma rounds_S (n : nat) :
  rounds getSymbols (S n) objectFiles entrySymbols
  = pass getSymbols objectFiles (rounds getSymbols n objectFiles entrySymbols).
Proof. done. Qed.

Lemma seed_invariant : invariant (seed entrySymbols).
Proof.
  split; cbn.
  - intros symbol Hin%elem_of_list_to_set. by apply needed_entry.
  - intros f Hf. by apply elem_of_nil in Hf.
  - apply NoDup_nil_2.
Qed.

Lemma pass_invariant st :
  invariant st → invariant (pass getSymbols objectFiles st).
Proof.
  intros [Hun Hinc Hnd]. apply scan_invariant; [done|]. by split.
Qed.

Lemma rounds_invariant (n : nat) :
  invariant (rounds getSymbols n objectFiles entrySymbols).
Proof.
  induction n as [|n IH]; [apply seed_invariant|].
  rewrite rounds_S. by apply pass_invariant.
Qed.

Lemma included_bound st :
  invariant st →
  (List.length (includedObjectFiles st) ≤ List.length objectFiles)%nat.
Proof.
  intros [_ Hinc Hnd]. apply submseteq_length, NoDup_submseteq; [done|].
  intros f Hf. by apply Hinc.
Qed.

Lemma pass_grows st :
  loopAgain (pass getSymbols objectFiles st) = true →
  (List.length (includedObjectFiles st)
   < List.length (includedObjectFiles (pass getSymbols objectFiles st)))%nat.
Proof.
  unfold pass. intros Hflag.
  by destruct (scan_progress objectFiles
                 (mkLinkState false (includedObjectFiles st) (unresolvedSymbols st)))
    as (_ & Hgrow & _); destruct (Hgrow Hflag).
Qed.

Lemma pass_quiet st :
  loopAgain (pass getSymbols objectFiles st) = false →
  includedObjectFiles (pass getSymbols objectFiles st) = includedObjectFiles st
  ∧ unresolvedSymbols (pass getSymbols objectFiles st) = unresolvedSymbols st
  ∧ settled (pass getSymbols objectFiles st).
Proof.
  unfold pass. intros Hflag. destruct (scan_quiet _ _ Hflag) as [-> Hsettled].
  split_and!; done.
Qed.

Lemma rounds_count (k : nat) :
  (∀ j, (1 ≤ j ≤ k)%nat → loopAgain (rounds getSymbols j objectFiles entrySymbols) = true) →
  (k ≤ List.length
         (includedObjectFiles (rounds getSymbols k objectFiles entrySymbols)))%nat.
Proof.
  induction k as [|k IH]; intros Hflags; [lia|].
  specialize (IH ltac:(intros; apply Hflags; lia)).
  pose proof (pass_grows (rounds getSymbols k objectFiles entrySymbols)) as Hgrow.
  rewrite <- rounds_S in Hgrow. specialize (Hgrow (Hflags (S k) ltac:(lia))).
  lia.
Qed.

Lemma first_quiet_round :
  ∃ n, (1 ≤ n ≤ S (List.length objectFiles))%nat
       ∧ loopAgain (rounds getSymbols n objectFiles entrySymbols) = false
       ∧ ∀ j, (j < n)%nat →
              loopAgain (rounds getSymbols j objectFiles entrySymbols) = true.
Proof.
  assert (∀ k,
    (∀ j, (j ≤ k)%nat →
          loopAgain (rounds getSymbols j objectFiles entrySymbols) = true)
    ∨ ∃ n, (1 ≤ n ≤ k)%nat
           ∧ loopAgain (rounds getSymbols n objectFiles entrySymbols) = false
           ∧ ∀ j, (j < n)%nat →
                  loopAgain (rounds getSymbols j objectFiles entrySymbols) = true)
    as Hsearch.
  { induction k as [|k [Hall|(n & Hn & Hquiet & Hbefore)]].
    - left. intros j Hj. by replace j with 0 by lia.
    - destruct (loopAgain (rounds getSymbols (S k) objectFiles entrySymbols)) eqn:E.
      + left. intros j Hj. destruct (decide (j = S k)) as [->|]; [done|].
        apply Hall. lia.
      + right. exists (S k). split_and!; [lia|lia|done|].
        intros j Hj. apply Hall. lia.
    - right. exists n. split_and!; [lia|lia|done..]. }
  destruct (Hsearch (S (List.length objectFiles)))
    as [Hall|(n & Hn & Hquiet & Hbefore)]; [|by exists n].
  pose proof (rounds_count (S (List.length objectFiles))
                ltac:(intros; apply Hall; lia)).
  pose proof (included_bound _
                (rounds_invariant (S (List.length objectFiles)))). lia.
Qed.

Lemma resolve_rounds (m fuel k : nat) :
  loopAgain (rounds getSymbols (k + m) objectFiles entrySymbols) = false →
  (∀ j, (k ≤ j < k + m)%nat →
        loopAgain (rounds getSymbols j objectFiles entrySymbols) = true) →
  (m < fuel)%nat →
  resolve getSymbols fuel objectFiles
    (rounds getSymbols k objectFiles entrySymbols)
  = Some (rounds getSymbols (k + m) objectFiles entrySymbols).
Proof.
  revert fuel k. induction m as [|m IH]; intros fuel k Hquiet Hbefore Hfuel;
    (destruct fuel as [|fuel]; [lia|]); cbn [resolve].
  - rewrite Nat.add_0_r in *. by rewrite Hquiet.
  - rewrite Hbefore by lia. rewrite <- rounds_S.
    replace (k + S m) with (S k + m) in * by lia.
    apply IH; [done| |lia]. intros j Hj. apply Hbefore. lia.
Qed.

Lemma resolve_running (fuel k : nat) :
  (∀ j, (k ≤ j < k + fuel)%nat →
        loopAgain (rounds getSymbols j objectFiles entrySymbols) = true) →
  resolve getSymbols fuel objectFiles
    (rounds getSymbols k objectFiles entrySymbols) = None.
Proof.
  revert k. induction fuel as [|fuel IH]; intros k Hbefore; [done|].
  cbn [resolve]. rewrite Hbefore by lia. rewrite <- rounds_S.
  apply IH. intros j Hj. apply Hbefore. lia.
Qed.


Lemma unrelated_out st objectFile :
  invariant st →
  unrelated getSymbols objectFiles entrySymbols objectFile →
  objectFile ∉ includedObjectFiles st.
Proof.
  intros [_ Hinc _] Hun Hin.
  destruct (Hinc _ Hin) as (_ & symbol & Hneeded & Hdef).
  by apply (Hun symbol).
Qed.

(** *** A file that defines an entry symbol and a file it refers to *)

Section Scenario.
Variables A B main helper : string.
Hypothesis main_entry : main ∈ entrySymbols.
Hypothesis A_defines : main ∈ defined (getSymbols A).
Hypothesis A_refers : helper ∈ undefined (getSymbols A).
Hypothesis B_defines : helper ∈ defined (getSymbols B).
Hypothesis B_not_main : main ∉ defined (getSymbols B).
Hypothesis others_unrelated :
  ∀ objectFile, objectFile ∈ objectFiles →
    objectFile = A ∨ objectFile = B
    ∨ unrelated getSymbols objectFiles entrySymbols objectFile.

#[local] Abbreviation on_track := (Linker.on_track A B main helper).

Lemma visit_on_track st objectFile :
  objectFile ∈ objectFiles → invariant st → on_track st →
  on_track (visit getSymbols st objectFile).
Proof.
  intros Hfile Hinv [Hmain Hhelper].
  destruct (visit_cases st objectFile)
    as [[-> _]|(Hout & (s0 & Hs0 & Hdef) & ->)]; [done|].
  assert (objectFile = A ∨ objectFile = B) as Hwhich.
  { destruct (others_unrelated _ Hfile) as [?|[?|Hun]]; [auto..|].
    destruct (Hun s0); [|done]. by apply Hinv. }
  split; cbn.
  - destruct Hmain as [HA|Hmain]; [left; set_solver|].
    destruct Hwhich as [->| ->]; [left; set_solver|right].
    apply add_each_spec. left. by apply delete_each_spec.
  - intros [HA| ->%list_elem_of_singleton]%elem_of_app.
    + destruct Hwhich as [->| ->]; [done|left; set_solver].
    + right. apply add_each_spec. by right.
Qed.

Lemma scan_on_track (files : list string) st :
  (∀ objectFile, objectFile ∈ files → objectFile ∈ objectFiles) →
  invariant st → on_track st → on_track (scan getSymbols files st).
Proof.
  revert st. induction files as [|f files IH]; intros st Hsub Hinv Htrack;
    [done|].
  rewrite scan_cons. apply IH; [set_solver| |].
  - apply visit_invariant; [set_solver|done].
  - apply visit_on_track; [set_solver|done..].
Qed.

Lemma rounds_on_track (n : nat) :
  on_track (rounds getSymbols n objectFiles entrySymbols).
Proof.
  induction n as [|n IH].
  - split; cbn; [right; by apply elem_of_list_to_set|].
    intros HA. by apply elem_of_nil in HA.
  - rewrite rounds_S. pose proof (rounds_invariant n) as [Hun Hinc Hnd].
    apply scan_on_track; [done|by split|]. by destruct IH.
Qed.

Lemma settled_on_track st :
  A ∈ objectFiles → B ∈ objectFiles → settled st → on_track st →
  A ∈ includedObjectFiles st ∧ B ∈ includedObjectFiles st.
Proof.
  intros HA HB Hsettled [Hmain Hhelper].
  assert (A ∈ includedObjectFiles st) as HAin.
  { destruct Hmain as [?|Hmain]; [done|].
    destruct (Hsettled A HA) as [?|Hmiss]; [done|]. by destruct (Hmiss main). }
  split; [done|]. destruct (Hhelper HAin) as [?|Hh]; [done|].
  destruct (Hsettled B HB) as [?|Hmiss]; [done|]. by destruct (Hmiss helper).
Qed.

End Scenario.

Lemma resolve_is_round (fuel k : nat) r :
  resolve getSymbols fuel objectFiles
    (rounds getSymbols k objectFiles entrySymbols) = Some r →
  ∃ n, r = rounds getSymbols n objectFiles entrySymbols.
Proof.
  revert k. induction fuel as [|fuel IH]; intros k; [done|].
  cbn [resolve]. destruct (loopAgain _).
  - rewrite <- rounds_S. apply IH.
  - intros [= <-]. by exists k.
Qed.

(** The loop ends, after [n] rounds: the last round took no file, every
    round before it took one. *)
Lemma resolve_ends :
  ∃ n, (1 ≤ n ≤ S (List.length objectFiles))%nat
       ∧ (∀ fuel, (n < fuel)%nat →
            resolve getSymbols fuel objectFiles (seed entrySymbols)
            = Some (rounds getSymbols n objectFiles entrySymbols))
       ∧ (∀ fuel, (fuel ≤ n)%nat →
            resolve getSymbols fuel objectFiles (seed entrySymbols) = None)
       ∧ (∀ j, (j < n)%nat →
            loopAgain (rounds getSymbols j objectFiles entrySymbols) = true)
       ∧ loopAgain (rounds getSymbols n objectFiles entrySymbols) = false.
Proof.
  destruct first_quiet_round as (n & Hn & Hquiet & Hbefore).
  exists n. split_and!; [lia|lia| | |done..].
  - intros fuel Hfuel. apply (resolve_rounds n fuel 0); [done| |done].
    intros j Hj. apply Hbefore. lia.
  - intros fuel Hfuel. apply (resolve_running fuel 0).
    intros j Hj. apply Hbefore. lia.
Qed.

(** *** The references of the included files *)

#[local] Abbreviation accounted := (Linker.accounted getSymbols entrySymbols).

Lemma visit_accounted st objectFile :
  accounted st → accounted (visit getSymbols st objectFile).
Proof.
  intros Hacc.
  destruct (visit_cases st objectFile) as [[-> _]|(_ & _ & ->)]; [done|].
  intros symbol Hasked. cbn.
  assert (symbol ∈ undefined (getSymbols objectFile)
          ∨ symbol ∈ unresolvedSymbols st
          ∨ ∃ f, f ∈ includedObjectFiles st ∧ symbol ∈ defined (getSymbols f))
    as [Hnew|[Hold|(f & Hf & Hdef)]].
  { destruct Hasked as [Hentry|(f & [Hf| ->%list_elem_of_singleton]%elem_of_app & Href)];
      [right; apply Hacc; by left|right; apply Hacc; right; by exists f|by left]. }
  - left. apply add_each_spec. by right.
  - destruct (decide (symbol ∈ defined (getSymbols objectFile))) as [Hdef|Hdef].
    + right. exists objectFile. split; [set_solver|done].
    + left. apply add_each_spec. left. by apply delete_each_spec.
  - right. exists f. split; [set_solver|done].
Qed.

Lemma scan_accounted (files : list string) st :
  accounted st → accounted (scan getSymbols files st).
Proof.
  revert st. induction files as [|f files IH]; intros st Hacc; [done|].
  rewrite scan_cons. by apply IH, visit_accounted.
Qed.

Lemma rounds_accounted (n : nat) :
  accounted (rounds getSymbols n objectFiles entrySymbols).
Proof.
  induction n as [|n IH].
  - intros symbol [Hentry|(f & Hf & _)]; [|by apply elem_of_nil in Hf].
    left. by apply elem_of_list_to_set.
  - rewrite rounds_S. by apply scan_accounted.
Qed.

(** What the loop returns is the state after its last round, in which
    no candidate that is out defines an unresolved symbol. *)
Lemma resolve_settled (fuel : nat) r :
  resolve getSymbols fuel objectFiles (seed entrySymbols) = Some r →
  ∃ n, r = rounds getSymbols n objectFiles entrySymbols ∧ settled r.
Proof.
  intros Hrun.
  destruct resolve_ends as (n & Hn & Hsome & Hnone & _ & Hquiet).
  destruct (decide (n < fuel)%nat) as [Hlt|Hge].
  - rewrite Hsome in Hrun by done. injection Hrun as <-. exists n. split; [done|].
    destruct n as [|n]; [lia|]. rewrite rounds_S in *.
    by apply pass_quiet in Hquiet as (_ & _ & ?).
  - rewrite Hnone in Hrun by lia. done.
Qed.

(** *** The files of a round stay *)

Lemma visit_prefix st objectFile :
  includedObjectFiles st
  `prefix_of` includedObjectFiles (visit getSymbols st objectFile).
Proof.
  destruct (visit_cases st objectFile) as [[-> _]|(_ & _ & ->)]; [done|].
  cbn. by apply prefix_app_r.
Qed.

Lemma scan_prefix (files : list string) st :
  includedObjectFiles st
  `prefix_of` includedObjectFiles (scan getSymbols files st).
Proof.
  revert st. induction files as [|f files IH]; intros st; [done|].
  rewrite scan_cons. etrans; [apply visit_prefix|apply IH].
Qed.

(** A scan over files none of which defines an unresolved symbol takes
    none. *)
Lemma scan_misses (files : list string) st :
  (∀ objectFile symbol,
     objectFile ∈ files → symbol ∈ unresolvedSymbols st →
     symbol ∉ defined (getSymbols objectFile)) →
  scan getSymbols files st = st.
Proof.
  revert st. induction files as [|f files IH]; intros st Hmiss; [done|].
  rewrite scan_cons.
  destruct (visit_cases st f) as [[-> _]|(_ & (symbol & Hin & Hdef) & _)].
  - apply IH. intros g symbol Hg. apply Hmiss. set_solver.
  - destruct (Hmiss f symbol); [set_solver|done..].
Qed.

(** In a settled state that accounts for the symbols asked for, every
    such symbol that a candidate defines is defined by an included
    file. *)
Lemma settled_resolves st symbol :
  settled st → accounted st →
  symbol ∈ entrySymbols
  ∨ (∃ objectFile, objectFile ∈ includedObjectFiles st
                   ∧ symbol ∈ undefined (getSymbols objectFile)) →
  (∃ candidate, candidate ∈ objectFiles
                ∧ symbol ∈ defined (getSymbols candidate)) →
  ∃ objectFile, objectFile ∈ includedObjectFiles st
                ∧ symbol ∈ defined (getSymbols objectFile).
Proof.
  intros Hsettled Hacc Hasked (candidate & Hcand & Hdef).
  destruct (Hacc symbol Hasked) as [Hopen|?]; [|done].
  destruct (Hsettled candidate Hcand) as [Hin|Hmiss]; [by exists candidate|].
  by destruct (Hmiss symbol).
Qed.

Lemma resolve_result (fuel : nat) r :
  resolve getSymbols fuel objectFiles (seed entrySymbols) = Some r →
  invariant r ∧ settled r ∧ accounted r.
Proof.
  intros (n & -> & Hsettled)%resolve_settled.
  split_and!; [apply rounds_invariant|done|apply rounds_accounted].
Qed.

End Facts.

(** Whatever the loop returns holds no file twice, only candidates, and
    only files that define a needed symbol. *)
Theorem linked_files_are_needed (getSymbols : string → Symbols)
    (fuel : nat) (objectFiles entrySymbols linked : list string) :
  getObjectFilesToLink getSymbols fuel objectFiles entrySymbols = Some linked →
  NoDup linked
  ∧ ∀ objectFile, objectFile ∈ linked →
      objectFile ∈ objectFiles
      ∧ ∃ symbol, needed getSymbols objectFiles entrySymbols symbol
                  ∧ symbol ∈ defined (getSymbols objectFile).
Proof.
  unfold getObjectFilesToLink.
  destruct (resolve _ _ _ _) as [r|] eqn:E; [|done]. intros [= <-].
  apply (resolve_is_round getSymbols objectFiles entrySymbols fuel 0) in E
    as [n ->].
  by destruct (rounds_invariant getSymbols objectFiles entrySymbols n).
Qed.

Lemma linked_files_are_needed_witness :
  NoDup ["a.bc"; "b.bc"]
  ∧ ∀ objectFile, objectFile ∈ ["a.bc"; "b.bc"] →
      objectFile ∈ ["c.bc"; "b.bc"; "a.bc"]
      ∧ ∃ symbol,
          needed example_symbols ["c.bc"; "b.bc"; "a.bc"] ["main"] symbol
          ∧ symbol ∈ defined (example_symbols objectFile).
Proof.
  apply (linked_files_are_needed example_symbols 4). vm_compute. reflexivity.
Defined.

(** C1.  For every candidate list and entry symbols the loop ends with a
    set of files that holds no file whose defined symbols are never
    needed; and when an entry symbol [main] is defined by a candidate [A]
    that refers to [helper], [helper] is defined by a candidate [B] that
    does not define [main], and every other candidate is such an
    unrelated file, the set holds both [A] and [B]. *)
Theorem link_includes_reachable (getSymbols : string → Symbols)
    (objectFiles entrySymbols : list string) :
  ∃ (n : nat) (linked : list string),
    (∀ fuel, (n < fuel)%nat →
       getObjectFilesToLink getSymbols fuel objectFiles entrySymbols
       = Some linked)
    ∧ (∀ C, unrelated getSymbols objectFiles entrySymbols C → C ∉ linked)
    ∧ (∀ A B main helper : string,
         A ∈ objectFiles → B ∈ objectFiles →
         main ∈ entrySymbols →
         main ∈ defined (getSymbols A) →
         helper ∈ undefined (getSymbols A) →
         helper ∈ defined (getSymbols B) →
         main ∉ defined (getSymbols B) →
         (∀ objectFile, objectFile ∈ objectFiles →
            objectFile = A ∨ objectFile = B
            ∨ unrelated getSymbols objectFiles entrySymbols objectFile) →
         A ∈ linked ∧ B ∈ linked).
Proof.
  destruct (resolve_ends getSymbols objectFiles entrySymbols)
    as (n & Hn & Hsome & _ & _ & Hquiet).
  exists n, (includedObjectFiles (rounds getSymbols n objectFiles entrySymbols)).
  split_and!.
  - intros fuel Hfuel. unfold getObjectFilesToLink. by rewrite Hsome.
  - intros C. apply unrelated_out, rounds_invariant.
  - intros A B main helper HA HB Hentry HAdef HAref HBdef HBmain Hothers.
    destruct n as [|n]; [lia|]. rewrite rounds_S in *.
    apply pass_quiet in Hquiet as (_ & _ & Hsettled).
    apply (settled_on_track getSymbols objectFiles A B main helper);
      [done..|].
    rewrite <- rounds_S. by apply rounds_on_track.
Qed.

(** C8.  For every candidate list and entry symbols the loop ends: with
    enough rounds allowed it returns the state after some round [n], at
    most one more than there are candidates, and with [n] rounds or fewer
    allowed it is still running.  Round [n] is the first whose scan took
    no file: it left the included files and the unresolved symbols as
    they were, and every round before it took a file.  The unresolved
    symbols play no part: they can be non-empty when the loop ends, and
    the loop goes on for another scan after they became empty. *)
Theorem resolution_terminates :
  (∀ (getSymbols : string → Symbols) (objectFiles entrySymbols : list string),
     ∃ n, (1 ≤ n ≤ S (List.length objectFiles))%nat
       ∧ (∀ fuel, (n < fuel)%nat →
            resolve getSymbols fuel objectFiles (seed entrySymbols)
            = Some (rounds getSymbols n objectFiles entrySymbols))
       ∧ (∀ fuel, (fuel ≤ n)%nat →
            resolve getSymbols fuel objectFiles (seed entrySymbols) = None)
       ∧ (∀ j, (1 ≤ j < n)%nat →
            (List.length (includedObjectFiles
               (rounds getSymbols (j - 1) objectFiles entrySymbols))
             < List.length (includedObjectFiles
                 (rounds getSymbols j objectFiles entrySymbols)))%nat)
       ∧ includedObjectFiles (rounds getSymbols n objectFiles entrySymbols)
         = includedObjectFiles
             (rounds getSymbols (n - 1) objectFiles entrySymbols)
       ∧ unresolvedSymbols (rounds getSymbols n objectFiles entrySymbols)
         = unresolvedSymbols
             (rounds getSymbols (n - 1) objectFiles entrySymbols)
       ∧ Linker.settled getSymbols objectFiles
           (rounds getSymbols n objectFiles entrySymbols))
  ∧ (∃ r, resolve example_symbols 4 ["c.bc"; "b.bc"; "a.bc"] (seed ["main"])
          = Some r
          ∧ unresolvedSymbols r ≠ ∅)
  ∧ (unresolvedSymbols (rounds lone_symbols 1 ["main.bc"] ["main"]) = ∅
     ∧ resolve lone_symbols 2 ["main.bc"] (seed ["main"]) = None
     ∧ resolve lone_symbols 3 ["main.bc"] (seed ["main"])
       = Some (rounds lone_symbols 2 ["main.bc"] ["main"])).
Proof.
  split; [|split].
  - intros getSymbols objectFiles entrySymbols.
    destruct (resolve_ends getSymbols objectFiles entrySymbols)
      as (n & Hn & Hsome & Hnone & Hbefore & Hquiet).
    exists n. split_and!; [lia|lia|done|done|..].
    + intros j Hj. replace j with (S (j - 1)) at 2 by lia.
      rewrite rounds_S. apply pass_grows. rewrite <- rounds_S.
      replace (S (j - 1)) with j by lia. apply Hbefore. lia.
    + destruct n as [|n]; [lia|]. replace (S n - 1) with n by lia.
      rewrite rounds_S in *. by apply pass_quiet in Hquiet as (? & _).
    + destruct n as [|n]; [lia|]. replace (S n - 1) with n by lia.
      rewrite rounds_S in *. by apply pass_quiet in Hquiet as (_ & ? & _).
    + destruct n as [|n]; [lia|].
      rewrite rounds_S in *. by apply pass_quiet in Hquiet as (_ & _ & ?).
  - eexists. split; [by vm_compute|].
    apply (non_empty_inhabited_L "printf"). by vm_compute.
  - split_and!; vm_compute; reflexivity.
Qed.

Lemma example_needed symbol :
  needed example_symbols ["c.bc"; "b.bc"; "a.bc"] ["main"] symbol →
  symbol ∈ ["main"; "helper"; "printf"].
Proof.
  induction 1 as [symbol Hentry|f symbol symbol' Hf _ _ Hdef Hundef].
  - set_solver.
  - unfold example_symbols in *.
    repeat case_decide; cbn in *; set_solver.
Qed.

Lemma link_includes_reachable_witness :
  ∃ (n : nat) (linked : list string),
    (∀ fuel, (n < fuel)%nat →
       getObjectFilesToLink example_symbols fuel ["c.bc"; "b.bc"; "a.bc"] ["main"]
       = Some linked)
    ∧ "a.bc" ∈ linked ∧ "b.bc" ∈ linked ∧ "c.bc" ∉ linked.
Proof.
  destruct (link_includes_reachable example_symbols
              ["c.bc"; "b.bc"; "a.bc"] ["main"])
    as (n & linked & Hlinked & Hout & Hin).
  assert (unrelated example_symbols ["c.bc"; "b.bc"; "a.bc"] ["main"] "c.bc")
    as Hc.
  { intros symbol Hneeded%example_needed. vm_compute. set_solver. }
  exists n, linked. split; [done|].
  destruct (Hin "a.bc" "b.bc" "main" "helper") as [Ha Hb];
    [set_solver|set_solver|set_solver|by vm_compute..| |].
  - intros f Hf. set_solver.
  - split_and!; [done|done|by apply Hout].
Defined.

(** *** Further properties of the linker *)

(** [intersects] answers whether the two sets share a symbol; an empty
    set shares none. *)
Theorem intersects_common_symbol (setA setB : gset string) :
  (intersects setA setB = true ↔ setA ∩ setB ≠ ∅)
  ∧ intersects ∅ setB = false
  ∧ intersects setA ∅ = false.
Proof.
  split_and!.
  - rewrite intersects_spec. split.
    + intros (symbol & HA & HB). set_solver.
    + intros [symbol Hin%elem_of_intersection]%set_choose_L. by exists symbol.
  - apply intersects_false. set_solver.
  - apply intersects_false. set_solver.
Qed.

(** [considerObjectFile] takes a file exactly when it defines an
    unresolved symbol.  The symbols it defines then leave the unresolved
    set and the symbols it refers to enter it, also those it defines
    itself; a file that is not taken leaves the set as it was. *)
Theorem considerObjectFile_effect (getSymbols : string → Symbols)
    (objectFile : string) (unresolved : gset string) :
  considerObjectFile getSymbols objectFile unresolved
  = if bool_decide (unresolved ∩ defined (getSymbols objectFile) ≠ ∅)
    then (true, (unresolved ∖ defined (getSymbols objectFile))
                ∪ undefined (getSymbols objectFile))
    else (false, unresolved).
Proof.
  destruct (considerObjectFile_spec getSymbols objectFile unresolved)
    as [[-> (symbol & ? & ?)]|[-> Hmiss]].
  - rewrite bool_decide_eq_true_2 by set_solver. f_equal.
    apply set_eq. intros s.
    rewrite add_each_spec, delete_each_spec. set_solver.
  - rewrite bool_decide_eq_false_2; [done|]. intros Hne. apply Hne.
    apply set_eq. intros s. split; [|set_solver].
    intros [? ?]%elem_of_intersection. by destruct (Hmiss s).
Qed.

(** The files the loop returns are closed under reference, as far as the
    candidates go: an entry symbol, or a symbol a linked file refers to,
    that some candidate defines is defined by a linked file. *)
Theorem linked_files_resolve_references (getSymbols : string → Symbols)
    (fuel : nat) (objectFiles entrySymbols linked : list string) :
  getObjectFilesToLink getSymbols fuel objectFiles entrySymbols = Some linked →
  ∀ symbol,
    symbol ∈ entrySymbols
    ∨ (∃ objectFile, objectFile ∈ linked
                     ∧ symbol ∈ undefined (getSymbols objectFile)) →
    (∃ candidate, candidate ∈ objectFiles
                  ∧ symbol ∈ defined (getSymbols candidate)) →
    ∃ objectFile, objectFile ∈ linked
                  ∧ symbol ∈ defined (getSymbols objectFile).
Proof.
  unfold getObjectFilesToLink.
  destruct (resolve _ _ _ _) as [r|] eqn:E; [|done]. intros [= <-].
  apply resolve_result in E as (_ & Hsettled & Hacc).
  intros symbol. by apply settled_resolves.
Qed.

Lemma linked_files_resolve_references_witness :
  ∃ objectFile, objectFile ∈ ["a.bc"; "b.bc"]
                ∧ "helper" ∈ defined (example_symbols objectFile).
Proof.
  apply (linked_files_resolve_references example_symbols 4
           ["c.bc"; "b.bc"; "a.bc"] ["main"]).
  - vm_compute. reflexivity.
  - right. exists "a.bc". split; [set_solver|]. vm_compute. set_solver.
  - exists "b.bc". split; [set_solver|]. vm_compute. set_solver.
Defined.

(** When no symbol is defined by two candidates, the loop ends, after
    at most one round more than there are candidates, and it returns
    exactly the candidates that define a needed symbol, whatever the
    order of the candidates: an entry symbol, or a symbol that a
    candidate which defines a needed symbol refers to. *)
Theorem linked_exactly_needed (getSymbols : string → Symbols)
    (objectFiles entrySymbols : list string) :
  (∀ objectFile objectFile' symbol,
     objectFile ∈ objectFiles → objectFile' ∈ objectFiles →
     symbol ∈ defined (getSymbols objectFile) →
     symbol ∈ defined (getSymbols objectFile') →
     objectFile = objectFile') →
  ∃ (n : nat) (linked : list string),
    (n ≤ S (List.length objectFiles))%nat
    ∧ (∀ fuel, (n < fuel)%nat →
         getObjectFilesToLink getSymbols fuel objectFiles entrySymbols
         = Some linked)
    ∧ ∀ objectFile,
        objectFile ∈ linked
        ↔ objectFile ∈ objectFiles
          ∧ ∃ symbol, needed getSymbols objectFiles entrySymbols symbol
                      ∧ symbol ∈ defined (getSymbols objectFile).
Proof.
  intros Hunique.
  destruct (resolve_ends getSymbols objectFiles entrySymbols)
    as (n & Hn & Hsome & _).
  set (r := rounds getSymbols n objectFiles entrySymbols) in *.
  exists n, (includedObjectFiles r). split_and!; [lia| |].
  { intros fuel Hfuel. unfold getObjectFilesToLink. by rewrite Hsome. }
  pose proof (Hsome (S n) ltac:(lia)) as E.
  apply resolve_result in E as ([_ Hinc _] & Hsettled & Hacc).
  assert (∀ symbol, needed getSymbols objectFiles entrySymbols symbol →
            ∀ objectFile, objectFile ∈ objectFiles →
              symbol ∈ defined (getSymbols objectFile) →
              objectFile ∈ includedObjectFiles r) as Hall.
  { induction 1 as [symbol Hentry|g symbol symbol' Hg _ IH Hdef Href];
      intros objectFile Hfile Hdefines.
    - destruct (settled_resolves getSymbols objectFiles entrySymbols r symbol
                  Hsettled Hacc) as (f & Hf & Hfdef);
        [by left|by exists objectFile|].
      by rewrite (Hunique objectFile f symbol Hfile (proj1 (Hinc f Hf))).
    - destruct (settled_resolves getSymbols objectFiles entrySymbols r symbol'
                  Hsettled Hacc) as (f & Hf & Hfdef);
        [right; exists g; split; [by apply IH|done]|by exists objectFile|].
      by rewrite (Hunique objectFile f symbol' Hfile (proj1 (Hinc f Hf))). }
  intros objectFile. split; [apply Hinc|].
  intros (Hfile & symbol & Hneeded & Hdef). by apply (Hall symbol).
Qed.

Lemma linked_exactly_needed_witness :
  ∃ (n : nat) (linked : list string),
    (n ≤ 4)%nat
    ∧ (∀ fuel, (n < fuel)%nat →
         getObjectFilesToLink example_symbols fuel
           ["c.bc"; "b.bc"; "a.bc"] ["main"] = Some linked)
    ∧ ∀ objectFile,
        objectFile ∈ linked
        ↔ objectFile ∈ ["c.bc"; "b.bc"; "a.bc"]
          ∧ ∃ symbol,
              needed example_symbols ["c.bc"; "b.bc"; "a.bc"] ["main"] symbol
              ∧ symbol ∈ defined (example_symbols objectFile).
Proof.
  apply (linked_exactly_needed example_symbols
           ["c.bc"; "b.bc"; "a.bc"] ["main"]).
  intros f g symbol Hf Hg. unfold example_symbols.
  repeat case_decide; subst; cbn; set_solver.
Defined.

(** When no candidate defines an entry symbol, which covers the link
    without candidates and the link without entry symbols, the loop ends
    after its first round and nothing is linked. *)
Theorem nothing_defined_nothing_linked (getSymbols : string → Symbols)
    (fuel : nat) (objectFiles entrySymbols : list string) :
  (∀ objectFile symbol,
     objectFile ∈ objectFiles → symbol ∈ entrySymbols →
     symbol ∉ defined (getSymbols objectFile)) →
  getObjectFilesToLink getSymbols (S (S fuel)) objectFiles entrySymbols
  = Some [].
Proof.
  intros Hmiss. unfold getObjectFilesToLink. cbn [resolve seed loopAgain].
  unfold pass. rewrite scan_misses; [done|]. cbn.
  intros objectFile symbol Hfile Hentry%elem_of_list_to_set. by apply Hmiss.
Qed.

Lemma nothing_defined_nothing_linked_witness :
  getObjectFilesToLink example_symbols 2 ["c.bc"; "b.bc"] ["main"] = Some [].
Proof.
  apply (nothing_defined_nothing_linked example_symbols 0
           ["c.bc"; "b.bc"] ["main"]).
  intros objectFile symbol Hfile ->%list_elem_of_singleton.
  apply elem_of_cons in Hfile as [-> | ->%list_elem_of_singleton];
    vm_compute; set_solver.
Defined.

(** A file taken in one round is there in every later round, at the
    place it was taken: the included files of a round are the first of
    the included files of every later round. *)
Theorem included_files_stay (getSymbols : string → Symbols)
    (objectFiles entrySymbols : list string) (n k : nat) :
  includedObjectFiles (rounds getSymbols n objectFiles entrySymbols)
  `prefix_of`
  includedObjectFiles (rounds getSymbols (n + k) objectFiles entrySymbols).
Proof.
  induction k as [|k IH]; [by rewrite Nat.add_0_r|].
  replace (n + S k)%nat with (S (n + k)) by lia. rewrite rounds_S.
  etrans; [exact IH|]. unfold pass.
  apply (scan_prefix getSymbols objectFiles
           (mkLinkState false
              (includedObjectFiles (rounds getSymbols (n + k) objectFiles entrySymbols))
              (unresolvedSymbols (rounds getSymbols (n + k) objectFiles entrySymbols)))).
Qed.

(** *** The files the linker is handed *)

Lemma substring_all (s : string) :
  String.substring 0 (String.length s) s = s.
Proof. induction s as [|c s IH]; [done|]. cbn. by rewrite IH. Qed.

Lemma substring_append (before s : string) :
  String.substring (String.length before) (String.length s) (before +:+ s) = s.
Proof. induction before as [|c before IH]; [apply substring_all|done]. Qed.

Lemma substring_split (n m : nat) (s : string) :
  (n + m = String.length s)%nat →
  s = String.substring 0 n s +:+ String.substring n m s.
Proof.
  revert s. induction n as [|n IH]; intros s Hlen.
  - cbn in Hlen. subst m. rewrite substring_all. by destruct s.
  - destruct s as [|c s]; [done|]. cbn in Hlen.
    change (String c s
            = String c (String.substring 0 n s +:+ String.substring n m s)).
    f_equal. apply IH. lia.
Qed.

Lemma string_length_app (before s : string) :
  String.length (before +:+ s) = (String.length before + String.length s)%nat.
Proof.
  induction before as [|c before IH]; [done|].
  change (S (String.length (before +:+ s))
          = S (String.length before + String.length s)).
  by rewrite IH.
Qed.

(** [endsWith] holds exactly of the texts that are some text followed
    by [searchString]. *)
Lemma endsWith_spec (s searchString : string) :
  endsWith s searchString = true ↔ ∃ before, s = before +:+ searchString.
Proof.
  unfold endsWith. split.
  - case_decide as Hlen; [|done]. intros Hsub%bool_decide_eq_true.
    exists (String.substring 0 (String.length s - String.length searchString) s).
    pose proof (substring_split (String.length s - String.length searchString)
                  (String.length searchString) s ltac:(lia)) as Hsplit.
    by rewrite Hsub in Hsplit.
  - intros [before ->]. rewrite string_length_app.
    rewrite decide_True by lia. apply bool_decide_eq_true.
    replace (String.length before + String.length searchString
             - String.length searchString)%nat
      with (String.length before) by lia.
    apply substring_append.
Qed.

Section RegistrationFacts.
Variables World Error : Type.
Variable readdirSync : string → World → Error + list string.
Variable path_join : string → string → string.
Variable path_basename : string → string.
Variable getTempSubdirectory : string → World → string * World.
Variable execLLVM : string → string → option string → World → option Error * World.
Variables OBJECT_FILES_LOCATION COMPILER_RT_FILE : string.

Implicit Types (this : LLVMLink World) (file p : string).

#[local] Abbreviation extractArchive :=
  (Linker.extractArchive World Error readdirSync path_join path_basename
     getTempSubdirectory execLLVM).
#[local] Abbreviation addRuntime_each :=
  (Linker.addRuntime_each World Error readdirSync path_join path_basename
     getTempSubdirectory execLLVM OBJECT_FILES_LOCATION COMPILER_RT_FILE).
#[local] Abbreviation addRuntime :=
  (Linker.addRuntime World Error readdirSync path_join path_basename
     getTempSubdirectory execLLVM OBJECT_FILES_LOCATION COMPILER_RT_FILE).
#[local] Abbreviation object_entry :=
  (Linker.object_entry path_join OBJECT_FILES_LOCATION COMPILER_RT_FILE).
#[local] Abbreviation archive_entry :=
  (Linker.archive_entry path_join OBJECT_FILES_LOCATION COMPILER_RT_FILE).

(** [extractArchive] leaves the registered files alone, and returns
    paths inside the temporary directory of the archive. *)
Lemma extractArchive_inv (archiveFilePath : string) this :
  byteCodeFiles (extractArchive archiveFilePath this).2 = byteCodeFiles this
  ∧ ∀ members this',
      extractArchive archiveFilePath this = (Returned members, this') →
      ∀ p, p ∈ members →
        ∃ member,
          p = path_join
                (getTempSubdirectory (path_basename archiveFilePath)
                   (world this)).1 member.
Proof.
  unfold Linker.extractArchive.
  destruct (getTempSubdirectory _ _) as [directory w].
  destruct (execLLVM _ _ _ _) as [[e|] w']; [by split|].
  destruct (readdirSync directory w') as [e|files]; [by split|].
  split; [done|]. intros members this' [= <- <-] p (member & -> & _)%list_elem_of_fmap.
  by exists member.
Qed.

Lemma addRuntime_each_inv (files : list string) this :
  byteCodeFiles this `prefix_of` byteCodeFiles (addRuntime_each files this).2
  ∧ ∀ this', addRuntime_each files this = (Returned tt, this') →
      (∀ file, file ∈ files → object_entry file →
               path_join OBJECT_FILES_LOCATION file ∈ byteCodeFiles this')
      ∧ (∀ p, p ∈ byteCodeFiles this' →
           p ∈ byteCodeFiles this
           ∨ (∃ file, file ∈ files ∧ object_entry file
                      ∧ p = path_join OBJECT_FILES_LOCATION file)
           ∨ (∃ file w member,
                file ∈ files ∧ archive_entry file
                ∧ p = path_join
                        (getTempSubdirectory
                           (path_basename (path_join OBJECT_FILES_LOCATION file))
                           w).1 member)).
Proof.
  revert this. induction files as [|file files IH]; intros this.
  { split; [done|]. intros this' [= <-]. split.
    - intros file Hfile. by apply elem_of_nil in Hfile.
    - intros p Hp. by left. }
  cbn [Linker.addRuntime_each].
  case_decide as Hrt.
  { destruct (IH this) as [Hpre Hret]. split; [done|]. intros this' Hrun.
    destruct (Hret this' Hrun) as [Hall Honly]. split.
    - intros f [->|Hf]%elem_of_cons Hobj; [by destruct Hobj|by apply Hall].
    - intros p Hp. destruct (Honly p Hp) as [?|[(f & ? & ? & ?)|(f & w & m & ? & ? & ?)]];
        [by left|right; left; exists f; set_solver
        |right; right; exists f, w, m; set_solver]. }
  destruct (endsWith file ".a") eqn:Harchive.
  { destruct (extractArchive_inv (path_join OBJECT_FILES_LOCATION file) this)
      as [Hsame Hmembers].
    destruct (extractArchive _ this) as [[members|e] this1] eqn:Hextract.
    2: { cbn in *. split; [by rewrite Hsame|done]. }
    cbn in Hsame.
    destruct (IH (mkLLVMLink (byteCodeFiles this1 ++ members) (world this1)))
      as [Hpre Hret].
    split.
    { etrans; [|exact Hpre]. cbn. rewrite Hsame. by apply prefix_app_r. }
    intros this' Hrun. destruct (Hret this' Hrun) as [Hall Honly]. split.
    - intros f [->|Hf]%elem_of_cons Hobj; [|by apply Hall].
      destruct Hobj as (_ & Hno & _). congruence.
    - intros p Hp.
      destruct (Honly p Hp) as [Hold|[(f & ? & ? & ?)|(f & w & m & ? & ? & ?)]];
        [|right; left; exists f; set_solver
         |right; right; exists f, w, m; set_solver].
      cbn in Hold. rewrite Hsame in Hold.
      apply elem_of_app in Hold as [?|Hmember]; [by left|].
      destruct (Hmembers _ _ eq_refl p Hmember) as [m ->].
      right; right. exists file, (world this), m. split_and!; [set_solver|done|done]. }
  destruct (endsWith file ".bc" || endsWith file ".o") eqn:Hobject.
  { destruct (IH (mkLLVMLink
                    (byteCodeFiles this ++ [path_join OBJECT_FILES_LOCATION file])
                    (world this))) as [Hpre Hret].
    split.
    { etrans; [|exact Hpre]. by apply prefix_app_r. }
    intros this' Hrun. destruct (Hret this' Hrun) as [Hall Honly]. split.
    - intros f [->|Hf]%elem_of_cons Hobj; [|by apply Hall].
      rewrite Hrun in Hpre. eapply elem_of_prefix; [|exact Hpre]. cbn. set_solver.
    - intros p Hp.
      destruct (Honly p Hp) as [Hold|[(f & ? & ? & ?)|(f & w & m & ? & ? & ?)]];
        [|right; left; exists f; set_solver
         |right; right; exists f, w, m; set_solver].
      cbn in Hold. apply elem_of_app in Hold as [?| ->%list_elem_of_singleton];
        [by left|].
      right; left. exists file. split_and!; [set_solver| |done].
      split_and!; [done|done|]. by apply orb_true_iff in Hobject. }
  destruct (IH this) as [Hpre Hret]. split; [done|]. intros this' Hrun.
  destruct (Hret this' Hrun) as [Hall Honly]. split.
  - intros f [->|Hf]%elem_of_cons Hobj; [|by apply Hall].
    destruct Hobj as (_ & _ & Hext). apply orb_false_iff in Hobject.
    destruct Hobject, Hext; congruence.
  - intros p Hp. destruct (Honly p Hp) as [?|[(f & ? & ? & ?)|(f & w & m & ? & ? & ?)]];
      [by left|right; left; exists f; set_solver
      |right; right; exists f, w, m; set_solver].
Qed.

(** Registering only appends: whether they return or throw,
    [addByteCodeFile] and [addRuntime] leave the files registered before
    at the front of the list, in their order. *)
Theorem registered_files_stay (fileExists : string → World → bool)
    (file : string) this :
  byteCodeFiles this
  `prefix_of` byteCodeFiles (addByteCodeFile World Error fileExists file this).2
  ∧ byteCodeFiles this `prefix_of` byteCodeFiles (addRuntime this).2.
Proof.
  split.
  - unfold addByteCodeFile. destruct (fileExists file (world this)); [|done].
    by apply prefix_app_r.
  - unfold Linker.addRuntime.
    destruct (readdirSync OBJECT_FILES_LOCATION (world this)) as [e|files];
      [done|].
    apply addRuntime_each_inv.
Qed.


End RegistrationFacts.

Section LinkFacts.
Variables World Error : Type.
Variable execLLVM : string → string → option string → World → option Error * World.
Variable getSymbols : string → Symbols.

Implicit Types (this : LLVMLink World).

(** [link] ends, whatever files are registered: it runs llvm-link once,
    on the quoted names of the files [getObjectFilesToLink] returns for
    the registered files, separated by blanks and followed by -o and the
    quoted target.  When no registered file defines an entry symbol,
    llvm-link is still run, with no input file before the -o. *)
Theorem link_runs_llvm_link (fuel : nat) (target : string)
    (entrySymbols : list string) this :
  (S (List.length (byteCodeFiles this)) < fuel)%nat →
  ∃ linkingFiles,
    getObjectFilesToLink getSymbols fuel (byteCodeFiles this) entrySymbols
    = Some linkingFiles
    ∧ link World Error execLLVM getSymbols fuel target entrySymbols this
      = Some (run_tool World Error execLLVM "llvm-link"
                (String.concat " " (quoted <$> linkingFiles)
                 +:+ " -o " +:+ quoted target) None this)
    ∧ ((∀ objectFile symbol,
          objectFile ∈ byteCodeFiles this → symbol ∈ entrySymbols →
          symbol ∉ defined (getSymbols objectFile)) →
       link World Error execLLVM getSymbols fuel target entrySymbols this
       = Some (run_tool World Error execLLVM "llvm-link"
                 (" -o " +:+ quoted target) None this)).
Proof.
  intros Hfuel.
  destruct (resolve_ends getSymbols (byteCodeFiles this) entrySymbols)
    as (n & Hn & Hsome & _).
  exists (includedObjectFiles
            (rounds getSymbols n (byteCodeFiles this) entrySymbols)).
  assert (getObjectFilesToLink getSymbols fuel (byteCodeFiles this) entrySymbols
          = Some (includedObjectFiles
                    (rounds getSymbols n (byteCodeFiles this) entrySymbols)))
    as Hlinked.
  { unfold getObjectFilesToLink. by rewrite Hsome by lia. }
  split_and!; [done|unfold link; by rewrite Hlinked|].
  intros Hmiss. unfold link.
  destruct fuel as [|[|fuel]]; [lia..|].
  unfold getObjectFilesToLink. cbn [resolve seed loopAgain].
  unfold pass. rewrite scan_misses; [done|]. cbn.
  intros objectFile symbol Hfile Hentry%elem_of_list_to_set. by apply Hmiss.
Qed.

End LinkFacts.

Lemma registered_files_stay_witness :
  ["main.bc"] `prefix_of`
    byteCodeFiles
      (addByteCodeFile unit unit (λ _ _, true) "lib.bc"
         (mkLLVMLink ["main.bc"] tt)).2
  ∧ ["main.bc"] `prefix_of`
      byteCodeFiles
        (addRuntime unit unit example_readdir example_join example_basename
           example_temp example_exec "runtime" "runtime/compiler-rt.bc"
           (mkLLVMLink ["main.bc"] tt)).2.
Proof.
  apply (registered_files_stay unit unit example_readdir
           example_join example_basename example_temp example_exec
           "runtime" "runtime/compiler-rt.bc" (λ _ _, true) "lib.bc"
           (mkLLVMLink ["main.bc"] tt)).
Defined.


Lemma link_runs_llvm_link_witness :
  ∃ linkingFiles,
    getObjectFilesToLink example_symbols 5 ["c.bc"; "b.bc"; "a.bc"] ["main"]
    = Some linkingFiles
    ∧ link unit unit example_exec example_symbols 5 "out.bc" ["main"]
        (mkLLVMLink ["c.bc"; "b.bc"; "a.bc"] tt)
      = Some (run_tool unit unit example_exec "llvm-link"
                (String.concat " " (quoted <$> linkingFiles)
                 +:+ " -o " +:+ quoted "out.bc") None
                (mkLLVMLink ["c.bc"; "b.bc"; "a.bc"] tt))
    ∧ ((∀ objectFile symbol,
          objectFile ∈ ["c.bc"; "b.bc"; "a.bc"] → symbol ∈ ["main"] →
          symbol ∉ defined (example_symbols objectFile)) →
       link unit unit example_exec example_symbols 5 "out.bc" ["main"]
         (mkLLVMLink ["c.bc"; "b.bc"; "a.bc"] tt)
       = Some (run_tool unit unit example_exec "llvm-link"
                 (" -o " +:+ quoted "out.bc") None
                 (mkLLVMLink ["c.bc"; "b.bc"; "a.bc"] tt))).
Proof.
  apply (link_runs_llvm_link unit unit example_exec example_symbols 5 "out.bc"
           ["main"] (mkLLVMLink ["c.bc"; "b.bc"; "a.bc"] tt)).
  cbn. lia.
Defined.

End LinkerFacts.

(** ** The fallback code generator *)

Module CodeGenerationFacts.
Import CodeGeneration.

(** C7.  For every node and every context, [generate] throws: the
    diagnostic has the category UnsupportedSyntaxKind, the location of
    that node and a message that names its kind; the context comes back
    as it was handed in. *)
Theorem fallback_generator_fails {CodeGenerationContext : Type}
    (kindName : SyntaxKind → string) (node : Node)
    (context : CodeGenerationContext) :
  ∃ diagnostic,
    generate kindName node context = (context, inl diagnostic)
    ∧ category diagnostic = UnsupportedSyntaxKind
    ∧ nodeLocation diagnostic = location node
    ∧ ∃ before after,
        message diagnostic = before +:+ kindName (kind node) +:+ after.
Proof.
  exists (unsupportedSyntaxKind kindName node). split_and!; [done..|].
  by exists "The syntax kind '", "' is not yet supported.".
Qed.

End CodeGenerationFacts.

